(** * AlisaCache: a shallow embedding of [src/index.js]

    The cache object of [index.js] is split into its configuration
    ([Config]: the fields the constructor copies from the options and no
    method writes afterwards) and its mutable part ([Cache]: the six [Map]s
    and the three counters).  Every method becomes a function that takes the
    configuration, the reading of [Date.now()] and the state, and returns
    the result together with the new state.

    Modelling conventions:
    - a JS [Map] is an insertion-ordered association list ([JsMap]): [set]
      on a present key keeps its position, on a fresh key appends;
    - a JS [Set] of strings is an insertion-ordered list ([JsSet]);
    - keys and tags are strings, numbers (timestamps, priorities, counters,
      the limit) are integers, cached values are an opaque type [value];
      the options of [set] are those of the declared type [SetOptions]
      ([tags] is an array of strings, [priority] a number); [undefined] is
      a value like any other, told apart by the test [isUndefined];
    - [CacheError] in [index.js] is what [require] returns for the ES
      module [CacheError.js], not the class, so [new CacheError(...)]
      throws a [TypeError] ([newCacheError]);
    - one method call reads the clock once;
    - a cache object with its [namespaces] map is an [Instance], a tree of
      configurations and states; the callbacks handed to [filter], [map],
      [some], [every], [reduce], [partition] and [groupBy] read the cache
      and write nothing;
    - [emit] only calls listeners, which are outside the engine, and is not
      modelled; neither are the timer of [autoPrune], [search], [forEach]
      and the reports [stats], [statsExtended] and [metrics]. *)

From Stdlib Require Import List String ZArith Bool Lia.
Import ListNotations.
Open Scope Z_scope.

(** ** Insertion-ordered maps and sets *)

Module JsMap.

Definition t (A : Type) : Type := list (string * A).

Definition empty {A : Type} : t A := [].

Fixpoint get {A : Type} (k : string) (m : t A) : option A :=
  match m with
  | [] => None
  | (k', v) :: r => if String.eqb k k' then Some v else get k r
  end.

Definition has {A : Type} (k : string) (m : t A) : bool :=
  match get k m with Some _ => true | None => false end.

Fixpoint set {A : Type} (k : string) (v : A) (m : t A) : t A :=
  match m with
  | [] => [(k, v)]
  | (k', v') :: r =>
      if String.eqb k k' then (k', v) :: r else (k', v') :: set k v r
  end.

Definition delete {A : Type} (k : string) (m : t A) : t A :=
  filter (fun e => negb (String.eqb k (fst e))) m.

Definition keys {A : Type} (m : t A) : list string := map fst m.

Definition size {A : Type} (m : t A) : Z := Z.of_nat (List.length m).

(** [for (const [k, v] of entries) m.set(k, v)] *)
Definition setAll {A : Type} (entries : list (string * A)) (m : t A) : t A :=
  fold_left (fun acc e => set (fst e) (snd e) acc) entries m.

End JsMap.

Module JsSet.

Definition t : Type := list string.

Definition has (k : string) (s : t) : bool := existsb (String.eqb k) s.

Definition add (k : string) (s : t) : t := if has k s then s else s ++ [k].

Definition delete (k : string) (s : t) : t :=
  filter (fun x => negb (String.eqb k x)) s.

Definition size (s : t) : Z := Z.of_nat (List.length s).

(** [new Set(iterable)] *)
Definition of_list (l : list string) : t :=
  fold_left (fun acc x => add x acc) l [].

End JsSet.

(** ** Configuration and state *)

Inductive Strategy : Type := LRU | FIFO | MFU | CUSTOM.

(** What a call can throw: an instance of the class of [CacheError.js],
    or a [TypeError] of the language. *)
Inductive Error : Type :=
| CacheError (message : string)
| TypeError.

(** What a name can be bound to when [new] is applied to it. *)
Inductive Callee : Type :=
| ErrorClass
| ModuleObject.

(** [const CacheError = require("./CacheError.js")]: the file ends in
    [export default CacheError], so it is an ES module and [require] hands
    back its module object, which has the class under [default] and is not
    the class. *)
Definition requiredCacheError : Callee := ModuleObject.

(** [new callee(message)]: an instance when the callee is the class, a
    [TypeError] ("is not a constructor") when it is not. *)
Definition construct (callee : Callee) (message : string) : Error :=
  match callee with
  | ErrorClass => CacheError message
  | ModuleObject => TypeError
  end.

(** [new CacheError(message)] as [index.js] evaluates it; this is the
    value every [throw new CacheError(...)] of the file throws. *)
Definition newCacheError (message : string) : Error :=
  construct requiredCacheError message.

(** [x || 0] for a possibly missing number. *)
Definition or0 (o : option Z) : Z :=
  match o with Some x => x | None => 0 end.

(** Truthiness of a possibly missing number: [undefined] and [0] are falsy. *)
Definition truthy (o : option Z) : bool :=
  match o with Some x => negb (x =? 0) | None => false end.

Section Engine.

Context {value : Type}.

(** [JSON.parse(JSON.stringify(v))] on a cached value, as [clone] applies
    it to a whole snapshot, and the method [_clone], which applies it to
    objects and returns every other value as it is.  Values are opaque, so
    both are parameters of the model. *)
Variable jsonValue : value -> value.
Variable cloneValue : value -> value.

(** [v === undefined] on a cached value: [set] stores whatever it is
    given, [undefined] included. *)
Variable isUndefined : value -> bool.

(** [customEvict(store, meta)] receives the two maps and mutates them. *)
Definition EvictFn : Type :=
  JsMap.t value -> JsMap.t Z -> JsMap.t value * JsMap.t Z.

(** The argument of the constructor; [None] is a property left out. *)
Record AlisaCacheOptions : Type := mkOptions {
  o_limit : option Z;
  o_ttl : option Z;
  o_updateOnGet : option bool;
  o_updateOnHas : option bool;
  o_cloneOnGet : option bool;
  o_overWrite : option bool;
  o_strategy : option Strategy;
  o_customEvict : option EvictFn
}.

Record Config : Type := mkConfig {
  limit : Z;
  ttl : option Z;
  updateOnGet : bool;
  updateOnHas : bool;
  cloneOnGet : bool;
  overWrite : bool;
  strategy : Strategy;
  customEvict : option EvictFn
}.

Record Cache : Type := mkCache {
  store : JsMap.t value;
  meta : JsMap.t Z;
  ttlMap : JsMap.t Z;
  priorityMap : JsMap.t Z;
  tagMap : JsMap.t JsSet.t;
  keyTags : JsMap.t JsSet.t;
  hits : Z;
  misses : Z;
  evictions : Z
}.

Definition with_store (x : JsMap.t value) (s : Cache) : Cache :=
  mkCache x (meta s) (ttlMap s) (priorityMap s) (tagMap s) (keyTags s)
          (hits s) (misses s) (evictions s).
Definition with_meta (x : JsMap.t Z) (s : Cache) : Cache :=
  mkCache (store s) x (ttlMap s) (priorityMap s) (tagMap s) (keyTags s)
          (hits s) (misses s) (evictions s).
Definition with_ttlMap (x : JsMap.t Z) (s : Cache) : Cache :=
  mkCache (store s) (meta s) x (priorityMap s) (tagMap s) (keyTags s)
          (hits s) (misses s) (evictions s).
Definition with_priorityMap (x : JsMap.t Z) (s : Cache) : Cache :=
  mkCache (store s) (meta s) (ttlMap s) x (tagMap s) (keyTags s)
          (hits s) (misses s) (evictions s).
Definition with_tagMap (x : JsMap.t JsSet.t) (s : Cache) : Cache :=
  mkCache (store s) (meta s) (ttlMap s) (priorityMap s) x (keyTags s)
          (hits s) (misses s) (evictions s).
Definition with_keyTags (x : JsMap.t JsSet.t) (s : Cache) : Cache :=
  mkCache (store s) (meta s) (ttlMap s) (priorityMap s) (tagMap s) x
          (hits s) (misses s) (evictions s).
Definition with_hits (x : Z) (s : Cache) : Cache :=
  mkCache (store s) (meta s) (ttlMap s) (priorityMap s) (tagMap s)
          (keyTags s) x (misses s) (evictions s).
Definition with_misses (x : Z) (s : Cache) : Cache :=
  mkCache (store s) (meta s) (ttlMap s) (priorityMap s) (tagMap s)
          (keyTags s) (hits s) x (evictions s).
Definition with_evictions (x : Z) (s : Cache) : Cache :=
  mkCache (store s) (meta s) (ttlMap s) (priorityMap s) (tagMap s)
          (keyTags s) (hits s) (misses s) x.

(** The state the constructor builds: six empty maps, counters at zero. *)
Definition emptyCache : Cache :=
  mkCache JsMap.empty JsMap.empty JsMap.empty JsMap.empty JsMap.empty
          JsMap.empty 0 0 0.

Definition dflt {A : Type} (d : A) (o : option A) : A :=
  match o with Some a => a | None => d end.

(** [constructor(options)]: the three checks, then the fields. *)
Definition constructor (o : AlisaCacheOptions) : Error + (Config * Cache) :=
  let limit := dflt 100 (o_limit o) in
  let strategy := dflt LRU (o_strategy o) in
  if limit <=? 0 then
    inl (newCacheError "`limit` must be a positive number.")
  else
    match strategy, o_customEvict o with
    | CUSTOM, None =>
        inl (newCacheError
               "When using CUSTOM strategy, `customEvict` must be a function.")
    | _, _ =>
        inr (mkConfig limit (o_ttl o)
                      (dflt false (o_updateOnGet o))
                      (dflt false (o_updateOnHas o))
                      (dflt false (o_cloneOnGet o))
                      (dflt true (o_overWrite o))
                      strategy (o_customEvict o),
             emptyCache)
    end.

(** ** delete *)

(** One turn of the loop over the key's tags in [delete]; the loop
    reads and writes [this.tagMap] only. *)
Definition untag (key : string) (tm : JsMap.t JsSet.t) (tag : string)
  : JsMap.t JsSet.t :=
  match JsMap.get tag tm with
  | Some keys =>
      let keys' := JsSet.delete key keys in
      if JsSet.size keys' =? 0
      then JsMap.delete tag tm
      else JsMap.set tag keys' tm
  | None => tm
  end.

Definition delete (key : string) (s : Cache) : bool * Cache :=
  let existed := JsMap.has key (store s) in
  let s := with_store (JsMap.delete key (store s)) s in
  let s := with_meta (JsMap.delete key (meta s)) s in
  let s := with_ttlMap (JsMap.delete key (ttlMap s)) s in
  let s := with_priorityMap (JsMap.delete key (priorityMap s)) s in
  let s :=
    match JsMap.get key (keyTags s) with
    | Some tags =>
        let s := with_tagMap (fold_left (untag key) tags (tagMap s)) s in
        with_keyTags (JsMap.delete key (keyTags s)) s
    | None => s
    end in
  (existed, s).

(** ** evict *)

(** The comparator handed to [entries.sort]. *)
Definition compareEntries (cfg : Config) (s : Cache)
           (a b : string * value) : Z :=
  let aPrio := or0 (JsMap.get (fst a) (priorityMap s)) in
  let bPrio := or0 (JsMap.get (fst b) (priorityMap s)) in
  if negb (aPrio =? bPrio) then aPrio - bPrio
  else
    let aTime := or0 (JsMap.get (fst a) (meta s)) in
    let bTime := or0 (JsMap.get (fst b) (meta s)) in
    match strategy cfg with
    | LRU => aTime - bTime
    | MFU => bTime - aTime
    | FIFO => aTime - bTime
    | CUSTOM => 0
    end.

(** [Array.prototype.sort] is stable: entries that compare equal keep
    their order.  A stable insertion sort gives the array it produces. *)
Fixpoint insertSorted {A : Type} (cmp : A -> A -> Z) (x : A) (l : list A)
  : list A :=
  match l with
  | [] => [x]
  | y :: r => if cmp x y <=? 0 then x :: y :: r else y :: insertSorted cmp x r
  end.

Definition sort {A : Type} (cmp : A -> A -> Z) (l : list A) : list A :=
  fold_right (insertSorted cmp) [] l.

Definition evict (cfg : Config) (s : Cache) : Cache :=
  match customEvict cfg with
  | Some f =>
      let (st, me) := f (store s) (meta s) in
      with_meta me (with_store st s)
  | None =>
      match sort (compareEntries cfg s) (store s) with
      | [] => s
      | (evictKey, _) :: _ =>
          let s := snd (delete evictKey s) in
          with_evictions (evictions s + 1) s
      end
  end.

(** ** set *)

(** The third argument of [set]; a property left out is [None], and
    [tags] left out is the empty list. *)
Record SetOptions : Type := mkSetOptions {
  opt_ttl : option Z;
  opt_priority : option Z;
  opt_tags : list string
}.

Definition noOptions : SetOptions := mkSetOptions None None [].

(** One turn of the loop over [tagSet] in [set]; the loop reads and
    writes [this.tagMap] only. *)
Definition tagWith (key : string) (tm : JsMap.t JsSet.t) (tag : string)
  : JsMap.t JsSet.t :=
  let keys := dflt [] (JsMap.get tag tm) in
  JsMap.set tag (JsSet.add key keys) tm.

Definition set (cfg : Config) (now : Z) (key : string) (v : value)
           (o : SetOptions) (s : Cache) : Cache :=
  let priority := dflt 0 (opt_priority o) in
  let s := with_priorityMap (JsMap.set key priority (priorityMap s)) s in
  let defaultTTL := if truthy (opt_ttl o) then opt_ttl o else ttl cfg in
  if negb (overWrite cfg) && JsMap.has key (store s) then s
  else
    let s :=
      if (limit cfg <=? JsMap.size (store s)) && negb (JsMap.has key (store s))
      then evict cfg s else s in
    let s := with_store (JsMap.set key v (store s)) s in
    let s := with_meta (JsMap.set key now (meta s)) s in
    let s :=
      match defaultTTL with
      | Some t =>
          if 0 <? t
          then with_ttlMap (JsMap.set key (now + t) (ttlMap s)) s
          else with_ttlMap (JsMap.delete key (ttlMap s)) s
      | None => with_ttlMap (JsMap.delete key (ttlMap s)) s
      end in
    let tagSet := JsSet.of_list (opt_tags o) in
    let s := with_keyTags (JsMap.set key tagSet (keyTags s)) s in
    with_tagMap (fold_left (tagWith key) tagSet (tagMap s)) s.

(** ** get, has, getByTag *)

(** [ttl && Date.now() > ttl] *)
Definition expired (now : Z) (deadline : option Z) : bool :=
  truthy deadline && (or0 deadline <? now).

Definition get (cfg : Config) (now : Z) (key : string) (s : Cache)
  : option value * Cache :=
  match JsMap.get key (store s) with
  | None => (None, with_misses (misses s + 1) s)
  | Some v =>
      if expired now (JsMap.get key (ttlMap s)) then
        let s := snd (delete key s) in
        (None, with_misses (misses s + 1) s)
      else
        let s := if updateOnGet cfg
                 then with_meta (JsMap.set key now (meta s)) s else s in
        let s := with_hits (hits s + 1) s in
        (Some (if cloneOnGet cfg then cloneValue v else v), s)
  end.

Definition has (cfg : Config) (now : Z) (key : string) (s : Cache)
  : bool * Cache :=
  let exists_ := JsMap.has key (store s) in
  if negb exists_ || expired now (JsMap.get key (ttlMap s)) then
    (false, snd (delete key s))
  else
    (true, if updateOnHas cfg
           then with_meta (JsMap.set key now (meta s)) s else s).

(** [[...keys].map(k => this.get(k)).filter(v => v !== undefined)]: the
    keys are copied before the first [get]; the filter drops the answer of
    every miss and of every hit whose value is [undefined]. *)
Fixpoint getAll (cfg : Config) (now : Z) (keys : list string) (s : Cache)
  : list value * Cache :=
  match keys with
  | [] => ([], s)
  | k :: r =>
      let (v, s) := get cfg now k s in
      let (vs, s) := getAll cfg now r s in
      (match v with
       | Some x => if isUndefined x then vs else x :: vs
       | None => vs
       end, s)
  end.

Definition getByTag (cfg : Config) (now : Z) (tag : string) (s : Cache)
  : list value * Cache :=
  match JsMap.get tag (tagMap s) with
  | None => ([], s)
  | Some keys => getAll cfg now keys s
  end.

(** ** deleteByTag, rename, flush *)

(** The loop runs over the live set [tagMap.get(tag)] while [delete]
    takes the key of the current turn out of it; no key still to come is
    removed, so the turns are those of the set as it was at the start. *)
Definition deleteByTag (tag : string) (s : Cache) : Z * Cache :=
  match JsMap.get tag (tagMap s) with
  | None => (0, s)
  | Some keys =>
      let step (acc : Z * Cache) (key : string) :=
        let (existed, s) := delete key (snd acc) in
        (if existed then fst acc + 1 else fst acc, s) in
      let (deleted, s) := fold_left step keys (0, s) in
      (deleted, with_tagMap (JsMap.delete tag (tagMap s)) s)
  end.

(** One turn of the loop over the old key's tags in [rename]; the loop
    reads and writes [this.tagMap] only. *)
Definition retag (oldKey newKey : string) (tm : JsMap.t JsSet.t)
           (tag : string) : JsMap.t JsSet.t :=
  let tm :=
    match JsMap.get tag tm with
    | Some keys => JsMap.set tag (JsSet.add newKey keys) tm
    | None => tm
    end in
  match JsMap.get tag tm with
  | Some keys => JsMap.set tag (JsSet.delete oldKey keys) tm
  | None => tm
  end.

Definition rename (cfg : Config) (now : Z) (oldKey newKey : string)
           (s : Cache) : bool * Cache :=
  match JsMap.get oldKey (store s) with
  | None => (false, s)
  | Some v =>
      if JsMap.has newKey (store s) then (false, s)
      else
        let meta0 := JsMap.get oldKey (meta s) in
        let ttl0 := JsMap.get oldKey (ttlMap s) in
        let tags0 := JsMap.get oldKey (keyTags s) in
        let s := set cfg now newKey v noOptions s in
        let s := if truthy meta0
                 then with_meta (JsMap.set newKey (or0 meta0) (meta s)) s
                 else s in
        let s := if truthy ttl0
                 then with_ttlMap (JsMap.set newKey (or0 ttl0) (ttlMap s)) s
                 else s in
        let s :=
          match tags0 with
          | Some tags =>
              let s := with_keyTags
                         (JsMap.set newKey (JsSet.of_list tags) (keyTags s))
                         s in
              with_tagMap
                (fold_left (retag oldKey newKey) tags (tagMap s)) s
          | None => s
          end in
        (true, snd (delete oldKey s))
  end.

Definition flush (s : Cache) : Cache :=
  mkCache JsMap.empty JsMap.empty JsMap.empty JsMap.empty JsMap.empty
          JsMap.empty (hits s) (misses s) (evictions s).

(** ** ttlExpire, expire, prune *)

Definition ttlExpire (now : Z) (key : string) (s : Cache) : Z :=
  let expireAt := JsMap.get key (ttlMap s) in
  if negb (JsMap.has key (store s)) || negb (truthy expireAt) then -1
  else if now <? or0 expireAt then or0 expireAt - now else -1.

Definition expire (now : Z) (key : string) (s : Cache) : bool * Cache :=
  if negb (JsMap.has key (ttlMap s)) then (false, s)
  else (true, with_ttlMap (JsMap.set key (now - 1) (ttlMap s)) s).

(** The loop runs over the live [ttlMap] while [delete] takes the entry of
    the current turn out of it, so the turns are those of the map as it
    was at the start. *)
Definition prune (now : Z) (s : Cache) : Z * Cache :=
  let step (acc : Z * Cache) (e : string * Z) :=
    if snd e <? now then
      let (existed, s) := delete (fst e) (snd acc) in
      (if existed then fst acc + 1 else fst acc, s)
    else acc in
  fold_left step (ttlMap s) (0, s).

Definition resetStats (s : Cache) : Cache :=
  with_evictions 0 (with_misses 0 (with_hits 0 s)).

Definition tags (s : Cache) : list string := JsMap.keys (tagMap s).

(** ** snapshot, loadSnapshot, clone *)

(** A property of the object given to [loadSnapshot] that the method
    iterates: left out or falsy ([x || []] replaces it by the empty
    array), a truthy value that is not iterable ([for ... of] throws a
    [TypeError]), or an array.  An element of the array is a pair, or
    ([None]) a value that the pattern [[k, v]] cannot destructure, where
    the loop throws a [TypeError]. *)
Inductive Field (A : Type) : Type :=
| Missing
| NotIterable
| Items (l : list (option A)).
Arguments Missing {A}.
Arguments NotIterable {A}.
Arguments Items {A} l.

Record Stats : Type := mkStats {
  s_hits : option Z;
  s_misses : option Z;
  s_evictions : option Z
}.

Record SnapshotObject : Type := mkSnapshot {
  snap_data : Field (string * value);
  snap_meta : Field (string * Z);
  snap_ttlMap : Field (string * Z);
  snap_tagMap : Field (string * list string);
  snap_keyTags : Field (string * list string);
  snap_stats : option Stats
}.

(** The argument of [loadSnapshot]: a falsy value or one whose [typeof]
    is not ["object"], or an object. *)
Inductive Snapshot : Type :=
| NotAnObject
| Object (o : SnapshotObject).

Definition snapshot (s : Cache) : SnapshotObject :=
  mkSnapshot (Items (map Some (store s)))
             (Items (map Some (meta s)))
             (Items (map Some (ttlMap s)))
             (Items (map Some (tagMap s)))
             (Items (map Some (keyTags s)))
             (Some (mkStats (Some (hits s)) (Some (misses s))
                            (Some (evictions s)))).

(** What a method that can throw leaves behind: its result, or the error
    and the state at the moment it was thrown. *)
Inductive Outcome : Type :=
| Returned (s : Cache)
| Thrown (e : Error) (s : Cache).

Definition andThen (r : Outcome) (k : Cache -> Outcome) : Outcome :=
  match r with
  | Returned s => k s
  | Thrown e s => Thrown e s
  end.

Fixpoint forOf {A : Type} (body : A -> Cache -> Cache)
         (l : list (option A)) (s : Cache) : Outcome :=
  match l with
  | [] => Returned s
  | None :: _ => Thrown TypeError s
  | Some a :: r => forOf body r (body a s)
  end.

Definition forField {A : Type} (body : A -> Cache -> Cache)
           (f : Field A) (s : Cache) : Outcome :=
  match f with
  | Missing => Returned s
  | NotIterable => Thrown TypeError s
  | Items l => forOf body l s
  end.

Definition loadSnapshot (snap : Snapshot) (s : Cache) : Outcome :=
  match snap with
  | NotAnObject => Thrown (newCacheError "Invalid snapshot") s
  | Object o =>
      let s := flush s in
      andThen (forField (fun e s =>
                 with_store (JsMap.set (fst e) (snd e) (store s)) s)
                 (snap_data o) s) (fun s =>
      andThen (forField (fun e s =>
                 with_meta (JsMap.set (fst e) (snd e) (meta s)) s)
                 (snap_meta o) s) (fun s =>
      andThen (forField (fun e s =>
                 with_ttlMap (JsMap.set (fst e) (snd e) (ttlMap s)) s)
                 (snap_ttlMap o) s) (fun s =>
      andThen (forField (fun e s =>
                 with_tagMap
                   (JsMap.set (fst e) (JsSet.of_list (snd e)) (tagMap s)) s)
                 (snap_tagMap o) s) (fun s =>
      andThen (forField (fun e s =>
                 with_keyTags
                   (JsMap.set (fst e) (JsSet.of_list (snd e)) (keyTags s)) s)
                 (snap_keyTags o) s) (fun s =>
      let stats := dflt (mkStats None None None) (snap_stats o) in
      let s := with_hits (dflt 0 (s_hits stats)) s in
      let s := with_misses (dflt 0 (s_misses stats)) s in
      let s := with_evictions (dflt 0 (s_evictions stats)) s in
      Returned s)))))
  end.

(** [_deepClone]: a new cache from seven of the fields; [ttl] is not
    passed on. *)
Definition deepCloneOptions (cfg : Config) : AlisaCacheOptions :=
  mkOptions (Some (limit cfg)) None (Some (updateOnGet cfg))
            (Some (updateOnHas cfg)) (Some (cloneOnGet cfg))
            (Some (overWrite cfg)) (Some (strategy cfg)) (customEvict cfg).

Definition mapField {A B : Type} (f : A -> B) (x : Field A) : Field B :=
  match x with
  | Missing => Missing
  | NotIterable => NotIterable
  | Items l => Items (map (option_map f) l)
  end.

(** [JSON.parse(JSON.stringify(snapshot))]: strings, integers and the
    arrays that hold them come back as they were; cached values go
    through [jsonValue]. *)
Definition jsonSnapshot (o : SnapshotObject) : SnapshotObject :=
  mkSnapshot (mapField (fun e => (fst e, jsonValue (snd e))) (snap_data o))
             (snap_meta o) (snap_ttlMap o) (snap_tagMap o) (snap_keyTags o)
             (snap_stats o).

(** [clone()]: the result of the constructor call inside [_deepClone]
    (an error when it throws) and of [loadSnapshot] on the new cache. *)
Definition clone (cfg : Config) (s : Cache) : Error + (Config * Outcome) :=
  match constructor (deepCloneOptions cfg) with
  | inl e => inl e
  | inr (cfg', fresh) =>
      inr (cfg', loadSnapshot (Object (jsonSnapshot (snapshot s))) fresh)
  end.

End Engine.

Arguments Missing {A}.
Arguments NotIterable {A}.
Arguments Items {A} l.

(** ** Vocabulary of the properties *)

Section Vocabulary.

Context {value : Type}.

(** The priority and the recency the comparator of [evict] reads. *)
Definition priorityOf (s : @Cache value) (key : string) : Z :=
  or0 (JsMap.get key (priorityMap s)).

Definition recordedAt (s : @Cache value) (key : string) : Z :=
  or0 (JsMap.get key (meta s)).

(** [y] is in the set [m.get(x)]. *)
Definition memberOf (m : JsMap.t JsSet.t) (x y : string) : bool :=
  match JsMap.get x m with
  | Some ys => JsSet.has y ys
  | None => false
  end.

(** [key] is in the set [tagMap.get(tag)]; [tag] is in [keyTags.get(key)]. *)
Definition inTagMap (s : @Cache value) (tag key : string) : bool :=
  memberOf (tagMap s) tag key.

Definition inKeyTags (s : @Cache value) (key tag : string) : bool :=
  memberOf (keyTags s) key tag.

Definition noEmptySet (m : JsMap.t JsSet.t) : Prop :=
  forall x, JsMap.get x m <> Some [].

(** The two directions of the tag index agree, and no tag is mapped to an
    empty set. *)
Definition tagIndexConsistent (s : @Cache value) : Prop :=
  (forall tag key, inTagMap s tag key = inKeyTags s key tag) /\
  noEmptySet (tagMap s).

(** A [Map] holds a key once and a [Set] an element once. *)
Definition uniqueKeys {A : Type} (m : JsMap.t A) : Prop :=
  NoDup (JsMap.keys m).

Definition setsOf (m : JsMap.t JsSet.t) : Prop :=
  Forall (fun e => NoDup (snd e)) m.

Definition tagMapOk (m : JsMap.t JsSet.t) : Prop :=
  uniqueKeys m /\ setsOf m.

Record wellFormed (s : @Cache value) : Prop := mkWellFormed {
  wf_store : uniqueKeys (store s);
  wf_meta : uniqueKeys (meta s);
  wf_ttlMap : uniqueKeys (ttlMap s);
  wf_priorityMap : uniqueKeys (priorityMap s);
  wf_tagMap : uniqueKeys (tagMap s);
  wf_keyTags : uniqueKeys (keyTags s);
  wf_tagSets : setsOf (tagMap s);
  wf_keySets : setsOf (keyTags s)
}.

(** A [customEvict] function is handed two [Map]s and what it leaves
    behind are [Map]s. *)
Definition evictFnMaps (f : @EvictFn value) : Prop :=
  forall st me, uniqueKeys st -> uniqueKeys me ->
                uniqueKeys (fst (f st me)) /\ uniqueKeys (snd (f st me)).

Definition configMaps (cfg : @Config value) : Prop :=
  match customEvict cfg with
  | Some f => evictFnMaps f
  | None => True
  end.

(** A snapshot the claim on [loadSnapshot] calls malformed: not an
    object, or one of the five collections is missing or is not a list of
    pairs. *)
Definition listOfPairs {A : Type} (f : Field A) : bool :=
  match f with
  | Items l => forallb (fun x => match x with Some _ => true | None => false end) l
  | _ => false
  end.

Definition malformed (snap : @Snapshot value) : bool :=
  match snap with
  | NotAnObject => true
  | Object o =>
      negb (listOfPairs (snap_data o) && listOfPairs (snap_meta o)
            && listOfPairs (snap_ttlMap o) && listOfPairs (snap_tagMap o)
            && listOfPairs (snap_keyTags o))
  end.

(** A snapshot object in which every collection left out is the empty
    list. *)
Definition orEmpty {A : Type} (f : Field A) : Field A :=
  match f with
  | Missing => Items []
  | _ => f
  end.

Definition missingAsEmpty (o : @SnapshotObject value) : SnapshotObject :=
  mkSnapshot (orEmpty (snap_data o)) (orEmpty (snap_meta o))
             (orEmpty (snap_ttlMap o)) (orEmpty (snap_tagMap o))
             (orEmpty (snap_keyTags o)) (snap_stats o).

(** The state a call leaves behind, returned or thrown. *)
Definition stateOf (r : @Outcome value) : Cache :=
  match r with
  | Returned s => s
  | Thrown _ s => s
  end.

(** The secondary order of the comparator of [evict]: recency alone. *)
Definition compareRecency (cfg : @Config value) (s : @Cache value)
           (a b : string) : Z :=
  match strategy cfg with
  | LRU => recordedAt s a - recordedAt s b
  | MFU => recordedAt s b - recordedAt s a
  | FIFO => recordedAt s a - recordedAt s b
  | CUSTOM => 0
  end.

(** The state in which [set] reaches the line [this.store.set(key, value)]:
    the priority is written and, on a full store and a new key, [evict] has
    run. *)
Definition beforeInsert (cfg : @Config value) (key : string)
           (o : SetOptions) (s : @Cache value) : Cache :=
  let s := with_priorityMap
             (JsMap.set key (dflt 0 (opt_priority o)) (priorityMap s)) s in
  if (limit cfg <=? JsMap.size (store s)) && negb (JsMap.has key (store s))
  then evict cfg s else s.

(** The deadline [set] gives the key: [now + ttl] for a positive [ttl],
    the one of the call or else the one of the cache, and none otherwise. *)
Definition deadlineOf (cfg : @Config value) (now : Z) (o : SetOptions)
  : option Z :=
  match (if truthy (opt_ttl o) then opt_ttl o else ttl cfg) with
  | Some t => if 0 <? t then Some (now + t) else None
  | None => None
  end.

(** The states a cache built by the constructor can be in.  The state
    [getByTag] leaves does not depend on which values its filter drops, so
    the test for [undefined] is an argument of that call alone. *)
Inductive reachable (cloneValue : value -> value) (cfg : @Config value)
  : Cache -> Prop :=
| reach_new : reachable cloneValue cfg emptyCache
| reach_set now key v o s :
    reachable cloneValue cfg s ->
    reachable cloneValue cfg (set cfg now key v o s)
| reach_get now key s :
    reachable cloneValue cfg s ->
    reachable cloneValue cfg (snd (get cloneValue cfg now key s))
| reach_getByTag isUndefined now tag s :
    reachable cloneValue cfg s ->
    reachable cloneValue cfg
              (snd (getByTag cloneValue isUndefined cfg now tag s))
| reach_has now key s :
    reachable cloneValue cfg s ->
    reachable cloneValue cfg (snd (has cfg now key s))
| reach_delete key s :
    reachable cloneValue cfg s ->
    reachable cloneValue cfg (snd (delete key s))
| reach_deleteByTag tag s :
    reachable cloneValue cfg s ->
    reachable cloneValue cfg (snd (deleteByTag tag s))
| reach_rename now oldKey newKey s :
    reachable cloneValue cfg s ->
    reachable cloneValue cfg (snd (rename cfg now oldKey newKey s))
| reach_flush s :
    reachable cloneValue cfg s ->
    reachable cloneValue cfg (flush s)
| reach_expire now key s :
    reachable cloneValue cfg s ->
    reachable cloneValue cfg (snd (expire now key s))
| reach_prune now s :
    reachable cloneValue cfg s ->
    reachable cloneValue cfg (snd (prune now s))
| reach_resetStats s :
    reachable cloneValue cfg s ->
    reachable cloneValue cfg (resetStats s)
| reach_loadSnapshot snap s s' :
    reachable cloneValue cfg s ->
    loadSnapshot snap s = Returned s' ->
    reachable cloneValue cfg s'
| reach_loadSnapshot_thrown snap s e s' :
    reachable cloneValue cfg s ->
    loadSnapshot snap s = Thrown e s' ->
    reachable cloneValue cfg s'.

End Vocabulary.

(** ** The helpers over the entries *)

Module Collection.

Section Defs.

Context {value : Type}.

(** The method [_clone]. *)
Variable cloneValue : value -> value.

(** A callback [(value, key, cache) => r] that reads the cache it is
    handed and writes nothing. *)
Definition Callback (R : Type) : Type := value -> string -> @Cache value -> R.

Definition size (s : @Cache value) : Z := JsMap.size (store s).

Definition keys (s : @Cache value) : list string := JsMap.keys (store s).

Definition values (s : @Cache value) : list value := List.map snd (store s).

Definition entries (s : @Cache value) : list (string * value) := store s.

Definition toJSON (s : @Cache value) : SnapshotObject := snapshot s.

Definition fromJSON (json : @Snapshot value) (s : Cache) : Outcome :=
  loadSnapshot json s.

(** [this.cloneOnGet ? this._clone(value) : value] *)
Definition copied (cfg : @Config value) (v : value) : value :=
  if cloneOnGet cfg then cloneValue v else v.

(** [filter(predicate)]: a new cache from [_deepClone], then one [set]
    for every entry the predicate accepts.  The source is not written. *)
Definition filter (cfg : @Config value) (now : Z) (predicate : Callback bool)
           (s : Cache) : Error + (Config * Cache) :=
  match constructor (deepCloneOptions cfg) with
  | inl e => inl e
  | inr (cfg', result) =>
      inr (cfg',
           fold_left
             (fun r e =>
                if predicate (snd e) (fst e) s
                then set cfg' now (fst e) (copied cfg (snd e)) noOptions r
                else r)
             (store s) result)
  end.

(** [partition(fn)]: two new caches; every entry is [set] in the first
    when [fn] accepts it and in the second when it does not. *)
Definition partition (cfg : @Config value) (now : Z) (fn : Callback bool)
           (s : Cache) : Error + ((Config * Cache) * (Config * Cache)) :=
  match constructor (deepCloneOptions cfg) with
  | inl e => inl e
  | inr (cfgM, matched) =>
      match constructor (deepCloneOptions cfg) with
      | inl e => inl e
      | inr (cfgU, unmatched) =>
          let step (acc : Cache * Cache) (e : string * value) :=
            if fn (snd e) (fst e) s
            then (set cfgM now (fst e) (copied cfg (snd e)) noOptions (fst acc),
                  snd acc)
            else (fst acc,
                  set cfgU now (fst e) (copied cfg (snd e)) noOptions (snd acc))
          in
          let (m, u) := fold_left step (store s) (matched, unmatched) in
          inr ((cfgM, m), (cfgU, u))
      end
  end.

(** [some(fn)] returns at the first entry [fn] accepts, [every(fn)] at
    the first it rejects. *)
Definition some (fn : Callback bool) (s : Cache) : bool :=
  existsb (fun e => fn (snd e) (fst e) s) (store s).

Definition every (fn : Callback bool) (s : Cache) : bool :=
  forallb (fun e => fn (snd e) (fst e) s) (store s).

Definition map {R : Type} (fn : Callback R) (s : Cache) : list R :=
  List.map (fun e => fn (snd e) (fst e) s) (store s).

Definition reduce {R : Type} (reducer : R -> Callback R) (initialValue : R)
           (s : Cache) : R :=
  fold_left (fun acc e => reducer acc (snd e) (fst e) s) (store s)
            initialValue.

(** [groupBy(fn)] for a callback that answers a string: the [Map] from
    group key to the array of values, each value pushed to the array of its
    group. *)
Definition groupBy (fn : Callback string) (s : Cache)
  : JsMap.t (list value) :=
  fold_left
    (fun groups e =>
       let groupKey := fn (snd e) (fst e) s in
       let groups := if JsMap.has groupKey groups then groups
                     else JsMap.set groupKey [] groups in
       JsMap.set groupKey (dflt [] (JsMap.get groupKey groups) ++ [snd e])
                 groups)
    (store s) JsMap.empty.

End Defs.

End Collection.

(** ** Namespaces *)

Module Namespaces.

Section Defs.

Context {value : Type}.

(** A cache object together with its [namespaces] map; a namespace is a
    cache object of its own. *)
#[warnings="-register-all"]
Inductive Instance : Type :=
| mkInstance (cfg : @Config value) (state : @Cache value)
             (namespaces : list (string * Instance)).

Definition configOf (i : Instance) : Config :=
  match i with mkInstance cfg _ _ => cfg end.

Definition cacheOf (i : Instance) : Cache :=
  match i with mkInstance _ state _ => state end.

Definition namespacesOf (i : Instance) : JsMap.t Instance :=
  match i with mkInstance _ _ namespaces => namespaces end.

(** [namespace(name)]: the namespace and the cache object afterwards. *)
Definition namespace (name : string) (i : Instance)
  : Error + (Instance * Instance) :=
  if (String.length name =? 0)%nat then
    inl (newCacheError "Namespace name must be a non-empty string.")
  else
    match JsMap.get name (namespacesOf i) with
    | Some ns => inr (ns, i)
    | None =>
        match constructor (deepCloneOptions (configOf i)) with
        | inl e => inl e
        | inr (cfg', fresh) =>
            let ns := mkInstance cfg' fresh JsMap.empty in
            inr (ns, mkInstance (configOf i) (cacheOf i)
                                (JsMap.set name ns (namespacesOf i)))
        end
    end.

Definition listNamespaces (i : Instance) : list string :=
  JsMap.keys (namespacesOf i).

Definition removeNamespace (name : string) (i : Instance) : bool * Instance :=
  (JsMap.has name (namespacesOf i),
   mkInstance (configOf i) (cacheOf i) (JsMap.delete name (namespacesOf i))).

(** [ns.flush()] on one namespace: its six maps, not its own namespaces. *)
Definition flushed (ns : Instance) : Instance :=
  mkInstance (configOf ns) (flush (cacheOf ns)) (namespacesOf ns).

Definition flushNamespaces (i : Instance) : Instance :=
  mkInstance (configOf i) (cacheOf i)
             (List.map (fun e => (fst e, flushed (snd e))) (namespacesOf i)).

End Defs.

End Namespaces.

(** ** Vocabulary of the further properties *)

Section MoreVocabulary.

Context {value : Type}.

(** A configuration the constructor accepts. *)
Definition validConfig (cfg : @Config value) : Prop :=
  0 < limit cfg /\ (strategy cfg = CUSTOM -> customEvict cfg <> None).

(** The configuration [_deepClone] hands on: all of it but [ttl]. *)
Definition withoutTtl (cfg : @Config value) : Config :=
  mkConfig (limit cfg) None (updateOnGet cfg) (updateOnHas cfg)
           (cloneOnGet cfg) (overWrite cfg) (strategy cfg) (customEvict cfg).

(** One call of a method that writes the state, [resetStats] and
    [loadSnapshot] apart; as in [reachable], the test for [undefined] is an
    argument of the call of [getByTag]. *)
Inductive step (cloneValue : value -> value) (cfg : @Config value)
  : Cache -> Cache -> Prop :=
| step_set now key v o s : step cloneValue cfg s (set cfg now key v o s)
| step_get now key s :
    step cloneValue cfg s (snd (get cloneValue cfg now key s))
| step_getByTag isUndefined now tag s :
    step cloneValue cfg s
         (snd (getByTag cloneValue isUndefined cfg now tag s))
| step_has now key s : step cloneValue cfg s (snd (has cfg now key s))
| step_delete key s : step cloneValue cfg s (snd (delete key s))
| step_deleteByTag tag s : step cloneValue cfg s (snd (deleteByTag tag s))
| step_rename now oldKey newKey s :
    step cloneValue cfg s (snd (rename cfg now oldKey newKey s))
| step_flush s : step cloneValue cfg s (flush s)
| step_expire now key s : step cloneValue cfg s (snd (expire now key s))
| step_prune now s : step cloneValue cfg s (snd (prune now s)).

(** The states a new cache gets into by such calls and [resetStats]:
    every way of filling it but [loadSnapshot]. *)
Inductive runs (cloneValue : value -> value) (cfg : @Config value)
  : Cache -> Prop :=
| runs_new : runs cloneValue cfg emptyCache
| runs_step s s' :
    runs cloneValue cfg s -> step cloneValue cfg s s' ->
    runs cloneValue cfg s'
| runs_resetStats s :
    runs cloneValue cfg s -> runs cloneValue cfg (resetStats s).



(** The value a read of [key] at [now] finds: the one in the store,
    unless the key has a deadline behind [now]. *)
Definition liveValue (now : Z) (s : @Cache value) (key : string)
  : option value :=
  match JsMap.get key (store s) with
  | Some v => if expired now (JsMap.get key (ttlMap s)) then None else Some v
  | None => None
  end.

(** What [getByTag] keeps of the read of one key at [now]: the value
    [get] returns, unless the read misses or the value is [undefined]. *)
Definition keptValue (cloneValue : value -> value)
           (isUndefined : value -> bool) (cfg : @Config value) (now : Z)
           (s : @Cache value) (key : string) : list value :=
  match liveValue now s key with
  | Some v =>
      if isUndefined (Collection.copied cloneValue cfg v) then []
      else [Collection.copied cloneValue cfg v]
  | None => []
  end.

(** The keys of a list that a read at [now] finds. *)
Definition liveKeys (now : Z) (s : @Cache value) (keys : list string)
  : list string :=
  List.filter (fun k => match liveValue now s k with
                        | Some _ => true
                        | None => false
                        end) keys.



(** The state of a new cache after one [set(key, value)] at [now] for each
    entry of a list, when no key repeats and the limit is not reached. *)
Definition collected (now : Z) (l : list (string * value)) : @Cache value :=
  mkCache l (List.map (fun e => (fst e, now)) l) JsMap.empty
          (List.map (fun e => (fst e, 0)) l) JsMap.empty
          (List.map (fun e => (fst e, @nil string)) l) 0 0 0.

(** The keys of the [ttlMap] entries whose deadline is behind [now]. *)
Definition overdue (now : Z) (s : @Cache value) : list string :=
  List.map fst (List.filter (fun e => snd e <? now) (ttlMap s)).

End MoreVocabulary.

(** ** Concrete caches used as witnesses and counterexamples *)

Module Samples.

Open Scope string_scope.

Definition cfgOf (limit : Z) (ttl : option Z) (overWrite : bool)
           (strategy : Strategy) (customEvict : option (@EvictFn Z))
  : @Config Z :=
  mkConfig limit ttl false false false overWrite strategy customEvict.

Definition tagged (tags : list string) : SetOptions :=
  mkSetOptions None None tags.

Definition prio (p : Z) : SetOptions := mkSetOptions None (Some p) [].

Definition lru : @Config Z := cfgOf 2 None true LRU None.

Definition keepFirst : @Config Z := cfgOf 2 None false LRU None.

Definition cfgMFU : @Config Z := cfgOf 2 None true MFU None.

(** A [customEvict] that removes nothing. *)
Definition evictNothing : @EvictFn Z := fun st me => (st, me).

(** A [customEvict] that removes the key ["b"]. *)
Definition evictB : @EvictFn Z :=
  fun st me => (JsMap.delete "b" st, JsMap.delete "b" me).

(** A [customEvict] that empties the store. *)
Definition evictAll : @EvictFn Z := fun _ me => (JsMap.empty, me).

Definition custom : @Config Z := cfgOf 2 None true CUSTOM (Some evictNothing).

Definition customAll : @Config Z := cfgOf 2 None true CUSTOM (Some evictAll).

Definition lruWithCustom : @Config Z :=
  cfgOf 2 None true LRU (Some evictB).

(** [set("a", 1, {priority: 5})] on a new cache. *)
Definition oneEntry (cfg : @Config Z) : @Cache Z :=
  set cfg 10 "a" 1 (prio 5) emptyCache.

(** [set("a", 1, {priority: 1}); set("b", 2, {priority: 2})] *)
Definition twoEntries (cfg : @Config Z) : @Cache Z :=
  set cfg 20 "b" 2 (prio 2) (set cfg 10 "a" 1 (prio 1) emptyCache).

(** [set("a", 1, {tags: ["x"]})], then the same key with [{tags: ["y"]}]. *)
Definition taggedX : @Cache Z := set lru 10 "a" 1 (tagged ["x"]) emptyCache.

Definition retaggedY : @Cache Z := set lru 11 "a" 1 (tagged ["y"]) taggedX.

(** A cache of limit 1 holding ["a"] with the tag ["x"], and the state
    after [rename("a", "b")] on it. *)
Definition single : @Config Z := cfgOf 1 None true LRU None.

Definition fullTagged : @Cache Z := set single 10 "a" 1 (tagged ["x"]) emptyCache.

Definition fullRenamed : @Cache Z := snd (rename single 20 "a" "b" fullTagged).

(** [set("a", 1, {ttl: 50, priority: 5, tags: ["x"]})] at time 10. *)
Definition renamable : @Cache Z :=
  set lru 10 "a" 1 (mkSetOptions (Some 50) (Some 5) ["x"]) emptyCache.

(** An object whose [data] is a truthy value that cannot be iterated. *)
Definition dataNotIterable : @Snapshot Z :=
  Object (mkSnapshot NotIterable Missing Missing Missing Missing None).

(** [set("a", 1, {ttl: 50})] at time 1000: the deadline is 1050. *)
Definition withDeadline : @Cache Z :=
  set lru 1000 "a" 1 (mkSetOptions (Some 50) None []) emptyCache.

Definition noCollections : @Snapshot Z :=
  Object (mkSnapshot Missing Missing Missing Missing Missing None).

(** Limit 2, LRU, reads refresh the recency. *)
Definition refreshing : @Config Z :=
  mkConfig 2 None true false false true LRU None.

(** [set("a", 1); set("b", 2); get("a"); set("c", 3)] at times 1 to 4. *)
Definition afterThirdSet : @Cache Z :=
  set refreshing 4 "c" 3 noOptions
    (snd (get (fun v => v) refreshing 3 "a"
            (set refreshing 2 "b" 2 noOptions
               (set refreshing 1 "a" 1 noOptions emptyCache)))).

(** [set("u", 1, {tags: ["t"]}); set("v", 2, {tags: ["t"]})] *)
Definition twoTagged : @Cache Z :=
  set lru 2 "v" 2 (tagged ["t"]) (set lru 1 "u" 1 (tagged ["t"]) emptyCache).

(** [set("a", 1, {ttl: 50}); set("b", 2)] at time 1000. *)
Definition mixedDeadlines : @Cache Z :=
  set lru 1000 "b" 2 noOptions withDeadline.

(** A cache with one entry and no namespace, and the same cache with the
    namespace ["guild"] that holds one tagged entry. *)
Definition root : @Namespaces.Instance Z :=
  Namespaces.mkInstance lru (oneEntry lru) JsMap.empty.

Definition withGuild : @Namespaces.Instance Z :=
  Namespaces.mkInstance lru (oneEntry lru)
    [("guild", Namespaces.mkInstance lru taggedX JsMap.empty)].

(** A cache whose default [ttl] is 100, holding the key ["a"] written
    with [{ttl: -1}], which leaves it without deadline. *)
Definition withTtl : @Config Z := cfgOf 2 (Some 100) true LRU None.

Definition permanent : @Cache Z :=
  set withTtl 10 "a" 1 (mkSetOptions (Some (-1)) None []) emptyCache.

(** The test [v === undefined] on integers, none of which is
    [undefined]; and the same test on a cache in which the integer 0
    stands for [undefined]. *)
Definition defined : Z -> bool := fun _ => false.

Definition zeroIsUndefined : Z -> bool := fun v => (v =? 0)%Z.

(** [set("k", undefined, {tags: ["t"]})] with 0 standing for
    [undefined]. *)
Definition storedUndefined : @Cache Z :=
  set lru 1 "k" 0 (tagged ["t"]) emptyCache.

End Samples.

(** * Properties *)

(** Closed statements about the sample caches are settled by evaluation. *)
Ltac by_computation :=
  repeat match goal with |- _ /\ _ => split end;
  vm_compute; first [reflexivity | discriminate].

(** ** The scenarios of the specification, run on the model *)

Module Scenarios.

(** Capacity 2, LRU: after [get("a")] refreshed ["a"], the third [set]
    evicts ["b"]. *)
Example lru_evicts_unrefreshed :
  store Samples.afterThirdSet = [("a"%string, 1); ("c"%string, 3)]
  /\ evictions Samples.afterThirdSet = 1
  /\ hits Samples.afterThirdSet = 1.
Proof. by_computation. Qed.

(** [set("a", 1, {ttl: 50})] at 1000; [get("a")] at 1060 is a miss that
    deletes the entry and is not counted as an eviction. *)
Example get_after_deadline :
  fst (get (fun v => v) Samples.lru 1060 "a"%string Samples.withDeadline)
  = None
  /\ store (snd (get (fun v => v) Samples.lru 1060 "a"%string
                     Samples.withDeadline)) = []
  /\ misses (snd (get (fun v => v) Samples.lru 1060 "a"%string
                      Samples.withDeadline)) = 1
  /\ evictions (snd (get (fun v => v) Samples.lru 1060 "a"%string
                         Samples.withDeadline)) = 0.
Proof. by_computation. Qed.

(** [deleteByTag("t")] on two keys tagged ["t"] returns 2 and leaves no
    tag. *)
Example deleteByTag_two :
  fst (deleteByTag "t" Samples.twoTagged) = 2
  /\ tags (snd (deleteByTag "t" Samples.twoTagged)) = []
  /\ store (snd (deleteByTag "t" Samples.twoTagged)) = [].
Proof. by_computation. Qed.

(** [prune] at 1060 removes the entry whose deadline was 1050. *)
Example prune_expired :
  fst (prune 1060 Samples.withDeadline) = 1
  /\ fst (prune 1050 Samples.withDeadline) = 0.
Proof. by_computation. Qed.

End Scenarios.

(** ** Facts about [JsMap] and [JsSet] *)

Module JsMapFacts.

Lemma get_set_eq {A : Type} (k : string) (v : A) (m : JsMap.t A) :
  JsMap.get k (JsMap.set k v m) = Some v.
Proof.
  induction m as [|[k' v'] r IH]; simpl.
  - now rewrite String.eqb_refl.
  - destruct (String.eqb k k') eqn:E; simpl; rewrite E; auto.
Qed.

Lemma get_set_neq {A : Type} (k k' : string) (v : A) (m : JsMap.t A) :
  k <> k' -> JsMap.get k (JsMap.set k' v m) = JsMap.get k m.
Proof.
  intros Hne. induction m as [|[k2 v2] r IH]; simpl.
  - apply String.eqb_neq in Hne. now rewrite Hne.
  - destruct (String.eqb k' k2) eqn:E; simpl.
    + apply String.eqb_eq in E. subst k2.
      apply String.eqb_neq in Hne. now rewrite Hne.
    + destruct (String.eqb k k2); auto.
Qed.

Lemma get_delete_eq {A : Type} (k : string) (m : JsMap.t A) :
  JsMap.get k (JsMap.delete k m) = None.
Proof.
  induction m as [|[k' v'] r IH]; simpl; auto.
  destruct (String.eqb k k') eqn:E; simpl; auto. now rewrite E.
Qed.

Lemma get_delete_neq {A : Type} (k k' : string) (m : JsMap.t A) :
  k <> k' -> JsMap.get k (JsMap.delete k' m) = JsMap.get k m.
Proof.
  intros Hne. induction m as [|[k2 v2] r IH]; simpl; auto.
  destruct (String.eqb k' k2) eqn:E; simpl.
  - apply String.eqb_eq in E. subst k2.
    apply String.eqb_neq in Hne. now rewrite Hne.
  - destruct (String.eqb k k2); auto.
Qed.

Lemma get_none_keys {A : Type} (k : string) (m : JsMap.t A) :
  JsMap.get k m = None <-> ~ In k (JsMap.keys m).
Proof.
  induction m as [|[k' v'] r IH]; simpl.
  - tauto.
  - destruct (String.eqb_spec k k') as [->|Hne].
    + split; [discriminate | intros H; exfalso; apply H; now left].
    + rewrite IH. split; [intros H [E|I]; [congruence | tauto] | tauto].
Qed.

Lemma has_true_keys {A : Type} (k : string) (m : JsMap.t A) :
  JsMap.has k m = true <-> In k (JsMap.keys m).
Proof.
  unfold JsMap.has. destruct (JsMap.get k m) eqn:E.
  - split; auto. intros _.
    destruct (in_dec string_dec k (JsMap.keys m)) as [I|N]; auto.
    apply get_none_keys in N. congruence.
  - apply get_none_keys in E. split; [discriminate | tauto].
Qed.

Lemma has_false_get {A : Type} (k : string) (m : JsMap.t A) :
  JsMap.has k m = false <-> JsMap.get k m = None.
Proof.
  unfold JsMap.has. destruct (JsMap.get k m); split; congruence.
Qed.

Lemma set_fresh {A : Type} (k : string) (v : A) (m : JsMap.t A) :
  ~ In k (JsMap.keys m) -> JsMap.set k v m = m ++ [(k, v)].
Proof.
  induction m as [|[k' v'] r IH]; simpl; intros H; auto.
  destruct (String.eqb_spec k k') as [->|Hne]; [tauto|].
  f_equal. apply IH. tauto.
Qed.

Lemma keys_set_present {A : Type} (k : string) (v : A) (m : JsMap.t A) :
  JsMap.keys (JsMap.set k v m) =
  if JsMap.has k m then JsMap.keys m else JsMap.keys m ++ [k].
Proof.
  unfold JsMap.has.
  induction m as [|[k' v'] r IH]; simpl; auto.
  destruct (String.eqb k k') eqn:E; simpl; auto.
  rewrite IH. destruct (JsMap.get k r); auto.
Qed.

Lemma NoDup_keys_set {A : Type} (k : string) (v : A) (m : JsMap.t A) :
  NoDup (JsMap.keys m) -> NoDup (JsMap.keys (JsMap.set k v m)).
Proof.
  intros H. rewrite keys_set_present.
  destruct (JsMap.has k m) eqn:E; auto.
  apply has_false_get, get_none_keys in E.
  apply NoDup_app; auto.
  - constructor; [simpl; tauto | constructor].
  - intros x Hx [<-|[]]. tauto.
Qed.

Lemma keys_delete {A : Type} (k : string) (m : JsMap.t A) :
  JsMap.keys (JsMap.delete k m) =
  filter (fun x => negb (String.eqb k x)) (JsMap.keys m).
Proof.
  induction m as [|[k' v'] r IH]; simpl; auto.
  destruct (String.eqb k k'); simpl; now rewrite IH.
Qed.

Lemma NoDup_keys_delete {A : Type} (k : string) (m : JsMap.t A) :
  NoDup (JsMap.keys m) -> NoDup (JsMap.keys (JsMap.delete k m)).
Proof.
  intros H. rewrite keys_delete. now apply NoDup_filter.
Qed.

Lemma delete_absent {A : Type} (k : string) (m : JsMap.t A) :
  ~ In k (JsMap.keys m) -> JsMap.delete k m = m.
Proof.
  induction m as [|[k' v'] r IH]; simpl; intros H; auto.
  destruct (String.eqb_spec k k') as [->|Hne]; [tauto|].
  simpl. f_equal. apply IH. tauto.
Qed.

(** Deleting a present key of a map takes exactly one entry out. *)
Lemma length_delete {A : Type} (k : string) (m : JsMap.t A) :
  NoDup (JsMap.keys m) -> In k (JsMap.keys m) ->
  S (List.length (JsMap.delete k m)) = List.length m.
Proof.
  induction m as [|[k' v'] r IH]; simpl; intros Hnd Hin; [tauto|].
  inversion Hnd as [|? ? Hni Hnd']; subst.
  destruct (String.eqb_spec k k') as [->|Hne]; simpl.
  - fold (JsMap.delete k' r). now rewrite delete_absent.
  - f_equal. apply IH; auto. destruct Hin; congruence.
Qed.

Lemma setAll_app {A : Type} (l acc : JsMap.t A) :
  NoDup (JsMap.keys (acc ++ l)) -> JsMap.setAll l acc = acc ++ l.
Proof.
  revert acc. induction l as [|[k v] r IH]; intros acc H; simpl.
  - now rewrite app_nil_r.
  - unfold JsMap.setAll in *. simpl.
    assert (Hk : ~ In k (JsMap.keys acc)).
    { unfold JsMap.keys in H. rewrite map_app in H. simpl in H.
      apply NoDup_remove_2 in H. intros I. apply H.
      apply in_or_app. now left. }
    rewrite (set_fresh k v acc Hk).
    rewrite IH; rewrite <- app_assoc; simpl; auto.
Qed.

Lemma setAll_nodup {A : Type} (m : JsMap.t A) :
  NoDup (JsMap.keys m) -> JsMap.setAll m JsMap.empty = m.
Proof. intros H. now rewrite setAll_app. Qed.

End JsMapFacts.

Module JsSetFacts.

Lemma has_true_in (k : string) (s : JsSet.t) :
  JsSet.has k s = true <-> In k s.
Proof.
  unfold JsSet.has. rewrite existsb_exists. split.
  - intros [x [I E]]. apply String.eqb_eq in E. now subst.
  - intros I. exists k. split; auto. apply String.eqb_refl.
Qed.

Lemma has_false_in (k : string) (s : JsSet.t) :
  JsSet.has k s = false <-> ~ In k s.
Proof.
  rewrite <- has_true_in. destruct (JsSet.has k s); split; congruence.
Qed.

Lemma in_add (x k : string) (s : JsSet.t) :
  In x (JsSet.add k s) <-> x = k \/ In x s.
Proof.
  unfold JsSet.add. destruct (JsSet.has k s) eqn:E.
  - apply has_true_in in E. split; [tauto | intros [->|]; auto].
  - rewrite in_app_iff. simpl. split; [intros [|[|[]]]; auto | intros [|]; auto].
Qed.

Lemma in_delete (x k : string) (s : JsSet.t) :
  In x (JsSet.delete k s) <-> x <> k /\ In x s.
Proof.
  unfold JsSet.delete. rewrite filter_In.
  destruct (String.eqb_spec k x) as [->|Hne]; simpl; split.
  - intros [_ H]. discriminate.
  - intros [H _]. congruence.
  - intros [H _]. split; auto.
  - intros [_ H]. auto.
Qed.

Lemma NoDup_add (k : string) (s : JsSet.t) :
  NoDup s -> NoDup (JsSet.add k s).
Proof.
  intros H. unfold JsSet.add. destruct (JsSet.has k s) eqn:E; auto.
  apply has_false_in in E. apply NoDup_app; auto.
  - constructor; [simpl; tauto | constructor].
  - intros x Hx [<-|[]]. tauto.
Qed.

Lemma NoDup_delete (k : string) (s : JsSet.t) :
  NoDup s -> NoDup (JsSet.delete k s).
Proof. intros H. now apply NoDup_filter. Qed.

Lemma of_list_acc (l acc : list string) :
  NoDup (acc ++ l) ->
  fold_left (fun a x => JsSet.add x a) l acc = acc ++ l.
Proof.
  revert acc. induction l as [|x r IH]; intros acc H; simpl.
  - now rewrite app_nil_r.
  - assert (Hx : ~ In x acc).
    { apply NoDup_remove_2 in H. intros I. apply H.
      apply in_or_app. now left. }
    unfold JsSet.add at 2. apply has_false_in in Hx. rewrite Hx.
    rewrite IH; rewrite <- app_assoc; simpl; auto.
Qed.

(** [new Set(s)] of the elements of a set is that set. *)
Lemma of_list_nodup (l : list string) :
  NoDup l -> JsSet.of_list l = l.
Proof. intros H. unfold JsSet.of_list. now rewrite of_list_acc. Qed.

Lemma in_of_list_acc (x : string) (l acc : list string) :
  In x (fold_left (fun a y => JsSet.add y a) l acc) <-> In x acc \/ In x l.
Proof.
  revert acc. induction l as [|y r IH]; intros acc; simpl.
  - tauto.
  - rewrite IH, in_add. split; intros H; intuition auto.
Qed.

Lemma in_of_list (x : string) (l : list string) :
  In x (JsSet.of_list l) <-> In x l.
Proof. unfold JsSet.of_list. rewrite in_of_list_acc. simpl. tauto. Qed.

Lemma NoDup_of_list_acc (l acc : list string) :
  NoDup acc -> NoDup (fold_left (fun a y => JsSet.add y a) l acc).
Proof.
  revert acc. induction l as [|y r IH]; intros acc H; simpl; auto.
  apply IH. now apply NoDup_add.
Qed.

Lemma NoDup_of_list (l : list string) : NoDup (JsSet.of_list l).
Proof. apply NoDup_of_list_acc. constructor. Qed.

End JsSetFacts.

(** ** What [delete] and [set] do to each field *)

Section Frames.

Context {value : Type}.
Implicit Types (s : @Cache value) (cfg : @Config value).

Lemma delete_store key s :
  store (snd (delete key s)) = JsMap.delete key (store s).
Proof. unfold delete. simpl. destruct (JsMap.get key (keyTags s)); reflexivity. Qed.

Lemma delete_meta key s :
  meta (snd (delete key s)) = JsMap.delete key (meta s).
Proof. unfold delete. simpl. destruct (JsMap.get key (keyTags s)); reflexivity. Qed.

Lemma delete_ttlMap key s :
  ttlMap (snd (delete key s)) = JsMap.delete key (ttlMap s).
Proof. unfold delete. simpl. destruct (JsMap.get key (keyTags s)); reflexivity. Qed.

Lemma delete_priorityMap key s :
  priorityMap (snd (delete key s)) = JsMap.delete key (priorityMap s).
Proof. unfold delete. simpl. destruct (JsMap.get key (keyTags s)); reflexivity. Qed.

Lemma delete_keyTags key s :
  keyTags (snd (delete key s)) = JsMap.delete key (keyTags s).
Proof.
  unfold delete. simpl. destruct (JsMap.get key (keyTags s)) eqn:E; simpl; auto.
  symmetry. apply JsMapFacts.delete_absent. now apply JsMapFacts.get_none_keys.
Qed.

Lemma delete_tagMap key s :
  tagMap (snd (delete key s)) =
  fold_left (untag key) (dflt [] (JsMap.get key (keyTags s))) (tagMap s).
Proof. unfold delete. simpl. destruct (JsMap.get key (keyTags s)); reflexivity. Qed.

Lemma delete_counters key s :
  hits (snd (delete key s)) = hits s /\
  misses (snd (delete key s)) = misses s /\
  evictions (snd (delete key s)) = evictions s.
Proof. unfold delete. simpl. destruct (JsMap.get key (keyTags s)); auto. Qed.

Lemma delete_existed key s :
  fst (delete key s) = JsMap.has key (store s).
Proof. reflexivity. Qed.

(** The fields of the state [set] returns when it does not stop at the
    [overWrite] guard. *)
Lemma set_fields cfg now key (v : value) o s :
  negb (overWrite cfg) && JsMap.has key (store s) = false ->
  let s2 := beforeInsert cfg key o s in
  let s' := set cfg now key v o s in
  store s' = JsMap.set key v (store s2)
  /\ meta s' = JsMap.set key now (meta s2)
  /\ ttlMap s' = match deadlineOf cfg now o with
                 | Some d => JsMap.set key d (ttlMap s2)
                 | None => JsMap.delete key (ttlMap s2)
                 end
  /\ priorityMap s' = priorityMap s2
  /\ keyTags s' = JsMap.set key (JsSet.of_list (opt_tags o)) (keyTags s2)
  /\ tagMap s' = fold_left (tagWith key) (JsSet.of_list (opt_tags o))
                           (tagMap s2)
  /\ hits s' = hits s2 /\ misses s' = misses s2
  /\ evictions s' = evictions s2.
Proof.
  intros Hg s2 s'. unfold s', set. cbn [store with_priorityMap]. rewrite Hg.
  fold (beforeInsert cfg key o s). fold s2. unfold deadlineOf.
  destruct (if truthy (opt_ttl o) then opt_ttl o else ttl cfg) as [t|];
    [destruct (0 <? t)|]; repeat split; reflexivity.
Qed.

End Frames.

(** ** The custom eviction path (C9) *)

Lemma evict_with_custom {value : Type}
      (cfg : @Config value) (f : EvictFn) (s : Cache) :
  customEvict cfg = Some f ->
  evict cfg s =
    with_meta (snd (f (store s) (meta s)))
              (with_store (fst (f (store s) (meta s))) s).
Proof.
  intros Hc. unfold evict. rewrite Hc.
  destruct (f (store s) (meta s)); reflexivity.
Qed.

(** C9.  When a [customEvict] function was supplied, [evict] is that
    function applied to the store and the recency map, whatever the
    strategy: the evictions counter and every other field are left as they
    were, two configurations that differ in anything but the function evict
    alike, and a [set] of a new key on a full store inserts into the store
    the function returned with the counter unchanged. *)
Theorem evict_custom_delegates {value : Type}
        (cfg : @Config value) (f : EvictFn) (s : Cache) :
  customEvict cfg = Some f ->
  evict cfg s =
    with_meta (snd (f (store s) (meta s)))
              (with_store (fst (f (store s) (meta s))) s)
  /\ evictions (evict cfg s) = evictions s
  /\ priorityMap (evict cfg s) = priorityMap s
  /\ (forall cfg', customEvict cfg' = Some f -> evict cfg' s = evict cfg s)
  /\ (forall now key v o,
         limit cfg <= JsMap.size (store s) ->
         JsMap.has key (store s) = false ->
         store (set cfg now key v o s) =
           JsMap.set key v (fst (f (store s) (meta s)))
         /\ evictions (set cfg now key v o s) = evictions s).
Proof.
  intros Hf.
  pose proof (fun c t => evict_with_custom c f t) as He.
  split; [now apply He|].
  split; [now rewrite He|].
  split; [now rewrite He|].
  split.
  - intros cfg' Hf'. now rewrite !He.
  - intros now key v o Hfull Hnew. unfold set. simpl.
    rewrite Hnew. rewrite andb_false_r. simpl.
    apply Z.leb_le in Hfull. rewrite Hfull. simpl.
    rewrite He by assumption. simpl.
    destruct (if truthy (opt_ttl o) then opt_ttl o else ttl cfg) as [t|];
      [destruct (0 <? t)|]; simpl; auto.
Qed.

Lemma evict_custom_delegates_witness :
  customEvict Samples.lruWithCustom = Some Samples.evictB
  /\ strategy Samples.lruWithCustom = LRU
  /\ JsMap.keys (store (Samples.twoEntries Samples.lruWithCustom))
     = ["a"%string; "b"%string]
  /\ JsMap.keys (store (evict Samples.lruWithCustom
                              (Samples.twoEntries Samples.lruWithCustom)))
     = ["a"%string]
  /\ evictions (evict Samples.lruWithCustom
                      (Samples.twoEntries Samples.lruWithCustom)) = 0.
Proof.
  pose proof (evict_custom_delegates Samples.lruWithCustom Samples.evictB
                (Samples.twoEntries Samples.lruWithCustom) eq_refl)
    as [H1 [H2 _]].
  split; [reflexivity|]. split; [reflexivity|]. split; [reflexivity|]. split.
  - rewrite H1. reflexivity.
  - rewrite H2. reflexivity.
Defined.

(** ** [set] with [overWrite] disabled (C3) *)

(** What [set] does with [overWrite] disabled on a present key: the store,
    the recency map, the deadlines, both tag maps and the counters are as
    they were; the one field written is the priority of that key, which
    becomes the priority given (0 when none is given). *)
Lemma set_no_overwrite_priority_only {value : Type}
      (cfg : @Config value) (now : Z) (key : string) (v : value)
      (o : SetOptions) (s : Cache) :
  overWrite cfg = false ->
  JsMap.has key (store s) = true ->
  let s' := set cfg now key v o s in
  s' = with_priorityMap
         (JsMap.set key (dflt 0 (opt_priority o)) (priorityMap s)) s
  /\ JsMap.get key (priorityMap s') = Some (dflt 0 (opt_priority o))
  /\ (forall k, k <> key ->
                JsMap.get k (priorityMap s') = JsMap.get k (priorityMap s)).
Proof.
  intros Hov Hin s'.
  assert (E : s' = with_priorityMap
                (JsMap.set key (dflt 0 (opt_priority o)) (priorityMap s)) s).
  { unfold s', set. simpl. rewrite Hov, Hin. reflexivity. }
  rewrite E. simpl. repeat split; auto.
  - apply JsMapFacts.get_set_eq.
  - intros k Hk. now apply JsMapFacts.get_set_neq.
Qed.

(** C3, at the failing input.  On a cache with [overWrite] disabled,
    [set("a", 1, {priority: 5})] stores the entry; [set("a", 7)] on the
    key now present keeps the value 1, the recency and the tags, and
    rewrites the priority of ["a"] from 5 to 0: the call is not a no-op. *)
Theorem set_no_overwrite_not_noop :
  overWrite Samples.keepFirst = false
  /\ JsMap.has "a" (store (Samples.oneEntry Samples.keepFirst)) = true
  /\ JsMap.get "a" (priorityMap (Samples.oneEntry Samples.keepFirst))
     = Some 5
  /\ JsMap.get "a" (store
       (set Samples.keepFirst 20 "a"%string 7 noOptions
            (Samples.oneEntry Samples.keepFirst)))
     = Some 1
  /\ JsMap.get "a" (priorityMap
       (set Samples.keepFirst 20 "a"%string 7 noOptions
            (Samples.oneEntry Samples.keepFirst)))
     = Some 0
  /\ set Samples.keepFirst 20 "a"%string 7 noOptions
         (Samples.oneEntry Samples.keepFirst)
     <> Samples.oneEntry Samples.keepFirst.
Proof.
  repeat (split; [vm_compute; reflexivity|]).
  intros H. apply (f_equal priorityMap) in H. vm_compute in H. discriminate.
Qed.

(** ** [loadSnapshot] on a malformed snapshot (C2) *)

(** C2, against the claim as stated: an object with none of the five
    collections is malformed, yet [loadSnapshot] returns normally and the
    entry that was in the cache is gone; an object whose [data] cannot be
    iterated makes it throw, after [flush] has emptied the cache. *)
Lemma loadSnapshot_missing_collections_accepted :
  malformed Samples.noCollections = true
  /\ store (Samples.oneEntry Samples.lru) = [("a"%string, 1)]
  /\ loadSnapshot Samples.noCollections (Samples.oneEntry Samples.lru)
     = Returned emptyCache
  /\ malformed Samples.dataNotIterable = true
  /\ loadSnapshot Samples.dataNotIterable (Samples.oneEntry Samples.lru)
     = Thrown TypeError emptyCache.
Proof. by_computation. Qed.

(** C2, amended.  For a snapshot that is not an object, [loadSnapshot]
    throws an error and the cache is exactly as before: the check comes
    before [flush].  An object is not rejected for a collection it
    leaves out: the collection is read as the empty list, and with all five
    left out the call returns with the six maps empty and the counters taken
    from [stats] (0 where [stats] gives none). *)
Theorem loadSnapshot_validation {value : Type} (s : @Cache value) :
  (exists e, loadSnapshot NotAnObject s = Thrown e s)
  /\ (forall o, loadSnapshot (Object o) s
                = loadSnapshot (Object (missingAsEmpty o)) s)
  /\ (forall st,
         loadSnapshot
           (Object (mkSnapshot Missing Missing Missing Missing Missing st)) s
         = Returned
             (mkCache JsMap.empty JsMap.empty JsMap.empty JsMap.empty
                      JsMap.empty JsMap.empty
                      (dflt 0 (s_hits (dflt (mkStats None None None) st)))
                      (dflt 0 (s_misses (dflt (mkStats None None None) st)))
                      (dflt 0 (s_evictions (dflt (mkStats None None None) st))))).
Proof.
  split; [eexists; reflexivity|]. split.
  - intros [d m t tm kt st]. unfold missingAsEmpty. simpl.
    destruct d, m, t, tm, kt; reflexivity.
  - intros st. reflexivity.
Qed.

(** ** [ttlExpire] (C8) *)

(** The part of C8 the code has: -1 for a key that is absent or has no
    deadline, the positive time left while the deadline is ahead, -1 once
    it is behind. *)
Lemma ttlExpire_cases {value : Type} (now : Z) (key : string)
      (s : @Cache value) :
  (JsMap.has key (store s) = false -> ttlExpire now key s = -1)
  /\ (JsMap.get key (ttlMap s) = None -> ttlExpire now key s = -1)
  /\ (forall d, JsMap.has key (store s) = true ->
                JsMap.get key (ttlMap s) = Some d -> d <> 0 -> now < d ->
                ttlExpire now key s = d - now)
  /\ (forall d, JsMap.get key (ttlMap s) = Some d -> d < now ->
                ttlExpire now key s = -1).
Proof.
  unfold ttlExpire. repeat split.
  - intros H. now rewrite H.
  - intros H. rewrite H. simpl. now rewrite orb_true_r.
  - intros d Hs Hd Hnz Hlt. rewrite Hs, Hd. simpl.
    apply Z.eqb_neq in Hnz. rewrite Hnz. simpl.
    apply Z.ltb_lt in Hlt. now rewrite Hlt.
  - intros d Hd Hlt. rewrite Hd. simpl.
    destruct (negb (JsMap.has key (store s)) || negb (negb (d =? 0))); auto.
    destruct (now <? d) eqn:E; auto. apply Z.ltb_lt in E. lia.
Qed.

(** C8, at the failing input.  At the instant of the deadline the time left
    is 0 ms and [get] still serves the entry (it expires only when
    [Date.now() > ttl]), but [ttlExpire] answers -1, the answer it gives for
    an entry that has expired. *)
Theorem ttlExpire_at_deadline {value : Type} (cloneValue : value -> value)
        (cfg : @Config value) (key : string) (v : value) (d : Z)
        (s : Cache) :
  JsMap.get key (store s) = Some v ->
  JsMap.get key (ttlMap s) = Some d ->
  d <> 0 ->
  ttlExpire d key s = -1
  /\ expired d (JsMap.get key (ttlMap s)) = false
  /\ fst (get cloneValue cfg d key s)
     = Some (if cloneOnGet cfg then cloneValue v else v)
  /\ JsMap.get key (store (snd (get cloneValue cfg d key s))) = Some v.
Proof.
  intros Hs Hd Hnz.
  assert (Hex : expired d (JsMap.get key (ttlMap s)) = false).
  { unfold expired. rewrite Hd. simpl. rewrite Z.ltb_irrefl.
    apply andb_false_r. }
  repeat split.
  - unfold ttlExpire, JsMap.has. rewrite Hs, Hd. simpl.
    apply Z.eqb_neq in Hnz. rewrite Hnz. simpl. now rewrite Z.ltb_irrefl.
  - exact Hex.
  - unfold get. rewrite Hs, Hex. reflexivity.
  - unfold get. rewrite Hs, Hex. simpl. destruct (updateOnGet cfg); exact Hs.
Qed.

Lemma ttlExpire_at_deadline_witness :
  JsMap.get "a" (ttlMap Samples.withDeadline) = Some 1050
  /\ ttlExpire 1050 "a" Samples.withDeadline = -1
  /\ fst (get (fun v => v) Samples.lru 1050 "a"%string Samples.withDeadline)
     = Some 1.
Proof.
  pose proof (ttlExpire_at_deadline (fun v => v) Samples.lru "a"%string 1 1050
                Samples.withDeadline eq_refl eq_refl) as H.
  destruct H as [H1 [_ [H2 _]]]; [discriminate|].
  split; [reflexivity|]. split; [exact H1 | exact H2].
Defined.

(** ** Snapshots (C7, C10) *)

Section SnapshotFacts.

Context {value : Type}.
Implicit Types (s : @Cache value).

Lemma forOf_map_Some {A : Type} (body : A -> @Cache value -> Cache)
      (l : list A) s :
  forOf body (map Some l) s = Returned (fold_left (fun t a => body a t) l s).
Proof.
  revert s. induction l as [|a r IH]; intros s; simpl; auto.
Qed.

(** A property that [flush] sets up and every write of [loadSnapshot]
    keeps holds of the state the call leaves, returned or thrown. *)
Lemma forOf_invariant {A : Type} (P : @Cache value -> Prop)
      (body : A -> @Cache value -> Cache) :
  (forall a s, P s -> P (body a s)) ->
  forall l s, P s -> P (stateOf (forOf body l s)).
Proof.
  intros Hb l. induction l as [|[a|] r IH]; intros s Hs; simpl; auto.
Qed.

Lemma forField_invariant {A : Type} (P : @Cache value -> Prop)
      (body : A -> @Cache value -> Cache) :
  (forall a s, P s -> P (body a s)) ->
  forall f s, P s -> P (stateOf (forField body f s)).
Proof.
  intros Hb [| |l] s Hs; simpl; auto. now apply forOf_invariant.
Qed.

Lemma andThen_invariant (P : @Cache value -> Prop) (r : Outcome)
      (k : Cache -> Outcome) :
  P (stateOf r) -> (forall s, P s -> P (stateOf (k s))) ->
  P (stateOf (andThen r k)).
Proof. destruct r; simpl; auto. Qed.

Lemma loadSnapshot_invariant (P : @Cache value -> Prop) :
  (forall k v s, P s -> P (with_store (JsMap.set k v (store s)) s)) ->
  (forall k v s, P s -> P (with_meta (JsMap.set k v (meta s)) s)) ->
  (forall k v s, P s -> P (with_ttlMap (JsMap.set k v (ttlMap s)) s)) ->
  (forall k l s, P s ->
     P (with_tagMap (JsMap.set k (JsSet.of_list l) (tagMap s)) s)) ->
  (forall k l s, P s ->
     P (with_keyTags (JsMap.set k (JsSet.of_list l) (keyTags s)) s)) ->
  (forall a b c s, P s ->
     P (with_evictions c (with_misses b (with_hits a s)))) ->
  forall o s, P (flush s) -> P (stateOf (loadSnapshot (Object o) s)).
Proof.
  intros H1 H2 H3 H4 H5 H6 o s Hs. unfold loadSnapshot.
  apply andThen_invariant; [apply forField_invariant; auto|]. intros s1 P1.
  apply andThen_invariant; [apply forField_invariant; auto|]. intros s2 P2.
  apply andThen_invariant; [apply forField_invariant; auto|]. intros s3 P3.
  apply andThen_invariant; [apply forField_invariant; auto|]. intros s4 P4.
  apply andThen_invariant; [apply forField_invariant; auto|]. intros s5 P5.
  simpl. now apply H6.
Qed.

Lemma loadSnapshot_priorityMap (snap : Snapshot) s s' :
  loadSnapshot snap s = Returned s' -> priorityMap s' = JsMap.empty.
Proof.
  destruct snap as [|o]; simpl; [discriminate|]. intros H.
  change s' with (stateOf (Returned s')). rewrite <- H.
  apply (loadSnapshot_invariant (fun t => priorityMap t = JsMap.empty));
    auto.
Qed.

Lemma fold_setAll {A B : Type} (proj : @Cache value -> JsMap.t B)
      (upd : JsMap.t B -> @Cache value -> Cache) (g : A -> string * B) :
  (forall x s, proj (upd x s) = x) ->
  (forall x y s, upd x (upd y s) = upd x s) ->
  (forall s, upd (proj s) s = s) ->
  forall l s,
    fold_left (fun t e => upd (JsMap.set (fst (g e)) (snd (g e)) (proj t)) t)
              l s
    = upd (JsMap.setAll (map g l) (proj s)) s.
Proof.
  intros Hp Hu He l. induction l as [|a r IH]; intros s; simpl.
  - unfold JsMap.setAll. simpl. now rewrite He.
  - rewrite IH, Hp, Hu. reflexivity.
Qed.

Lemma map_of_list_sets (m : JsMap.t JsSet.t) :
  setsOf m -> map (fun e => (fst e, JsSet.of_list (snd e))) m = m.
Proof.
  induction 1 as [|[k l] r Hl _ IH]; simpl; auto.
  simpl in Hl. rewrite IH. now rewrite JsSetFacts.of_list_nodup.
Qed.

(** Loading the snapshot of a well-formed state, into any cache, gives
    that state back with the priorities gone. *)
Lemma loadSnapshot_snapshot s s0 :
  wellFormed s ->
  loadSnapshot (Object (snapshot s)) s0
  = Returned (with_priorityMap JsMap.empty s).
Proof.
  intros [W1 W2 W3 _ W5 W6 W7 W8].
  unfold loadSnapshot, snapshot, forField. cbn [snap_data snap_meta
    snap_ttlMap snap_tagMap snap_keyTags snap_stats].
  rewrite !forOf_map_Some. cbn [andThen].
  rewrite (fold_setAll store with_store (fun e => e)) by (first [reflexivity | intros []; reflexivity]).
  rewrite map_id. cbn [andThen].
  rewrite !forOf_map_Some. cbn [andThen].
  rewrite (fold_setAll meta with_meta (fun e => e)) by (first [reflexivity | intros []; reflexivity]).
  rewrite map_id.
  rewrite !forOf_map_Some. cbn [andThen].
  rewrite (fold_setAll ttlMap with_ttlMap (fun e => e)) by (first [reflexivity | intros []; reflexivity]).
  rewrite map_id.
  rewrite !forOf_map_Some. cbn [andThen].
  rewrite (fold_setAll tagMap with_tagMap
             (fun e => (fst e, JsSet.of_list (snd e)))) by (first [reflexivity | intros []; reflexivity]).
  rewrite !forOf_map_Some. cbn [andThen].
  rewrite (fold_setAll keyTags with_keyTags
             (fun e => (fst e, JsSet.of_list (snd e)))) by (first [reflexivity | intros []; reflexivity]).
  rewrite !map_of_list_sets by assumption.
  simpl.
  rewrite !JsMapFacts.setAll_nodup by assumption.
  destruct s; reflexivity.
Qed.

End SnapshotFacts.

(** ** Every reachable state is well formed *)

Section WellFormed.

Context {value : Type}.
Implicit Types (s : @Cache value) (cfg : @Config value).

Lemma fold_left_invariant {A B : Type} (P : A -> Prop) (f : A -> B -> A) :
  (forall a b, P a -> P (f a b)) ->
  forall l a, P a -> P (fold_left f l a).
Proof.
  intros Hf l. induction l as [|b r IH]; intros a Ha; simpl; auto.
Qed.

Lemma setsOf_get (m : JsMap.t JsSet.t) k v :
  setsOf m -> JsMap.get k m = Some v -> NoDup v.
Proof.
  induction 1 as [|[k' l] r Hl _ IH]; simpl; [discriminate|].
  destruct (String.eqb k k'); auto. intros E. now inversion E; subst.
Qed.

Lemma setsOf_set (m : JsMap.t JsSet.t) k v :
  setsOf m -> NoDup v -> setsOf (JsMap.set k v m).
Proof.
  intros Hm Hv. induction Hm as [|[k' l] r Hl Hr IH]; simpl.
  - repeat constructor; auto.
  - destruct (String.eqb k k'); constructor; auto.
Qed.

Lemma setsOf_delete (m : JsMap.t JsSet.t) k :
  setsOf m -> setsOf (JsMap.delete k m).
Proof.
  intros Hm. unfold setsOf, JsMap.delete in *. rewrite Forall_forall in *.
  intros e He. apply filter_In in He. apply Hm. tauto.
Qed.

Lemma untag_ok key m tag : tagMapOk m -> tagMapOk (untag key m tag).
Proof.
  intros [U S]. unfold untag.
  destruct (JsMap.get tag m) as [keys|] eqn:E; [|split; auto].
  destruct (JsSet.size (JsSet.delete key keys) =? 0); split.
  - now apply JsMapFacts.NoDup_keys_delete.
  - now apply setsOf_delete.
  - now apply JsMapFacts.NoDup_keys_set.
  - apply setsOf_set; auto. apply JsSetFacts.NoDup_delete.
    eapply setsOf_get; eauto.
Qed.

Lemma tagWith_ok key m tag : tagMapOk m -> tagMapOk (tagWith key m tag).
Proof.
  intros [U S]. unfold tagWith. split.
  - now apply JsMapFacts.NoDup_keys_set.
  - apply setsOf_set; auto. apply JsSetFacts.NoDup_add.
    destruct (JsMap.get tag m) eqn:E; simpl; [|constructor].
    eapply setsOf_get; eauto.
Qed.

Lemma retag_ok oldKey newKey m tag :
  tagMapOk m -> tagMapOk (retag oldKey newKey m tag).
Proof.
  intros H. unfold retag.
  assert (H1 : tagMapOk
                 match JsMap.get tag m with
                 | Some keys => JsMap.set tag (JsSet.add newKey keys) m
                 | None => m
                 end).
  { destruct (JsMap.get tag m) eqn:E; auto. destruct H as [U S]. split.
    - now apply JsMapFacts.NoDup_keys_set.
    - apply setsOf_set; auto. apply JsSetFacts.NoDup_add.
      eapply setsOf_get; eauto. }
  set (m1 := match JsMap.get tag m with
             | Some keys => JsMap.set tag (JsSet.add newKey keys) m
             | None => m
             end) in *.
  destruct (JsMap.get tag m1) eqn:E; auto. destruct H1 as [U S]. split.
  - now apply JsMapFacts.NoDup_keys_set.
  - apply setsOf_set; auto. apply JsSetFacts.NoDup_delete.
    eapply setsOf_get; eauto.
Qed.

Lemma wf_with_store x s :
  uniqueKeys x -> wellFormed s -> wellFormed (with_store x s).
Proof. intros Hx []. constructor; auto. Qed.

Lemma wf_with_meta x s :
  uniqueKeys x -> wellFormed s -> wellFormed (with_meta x s).
Proof. intros Hx []. constructor; auto. Qed.

Lemma wf_with_ttlMap x s :
  uniqueKeys x -> wellFormed s -> wellFormed (with_ttlMap x s).
Proof. intros Hx []. constructor; auto. Qed.

Lemma wf_with_priorityMap x s :
  uniqueKeys x -> wellFormed s -> wellFormed (with_priorityMap x s).
Proof. intros Hx []. constructor; auto. Qed.

Lemma wf_with_tagMap x s :
  tagMapOk x -> wellFormed s -> wellFormed (with_tagMap x s).
Proof. intros [U S] []. constructor; auto. Qed.

Lemma wf_with_keyTags x s :
  tagMapOk x -> wellFormed s -> wellFormed (with_keyTags x s).
Proof. intros [U S] []. constructor; auto. Qed.

Lemma wf_with_hits x s : wellFormed s -> wellFormed (with_hits x s).
Proof. intros []. constructor; auto. Qed.

Lemma wf_with_misses x s : wellFormed s -> wellFormed (with_misses x s).
Proof. intros []. constructor; auto. Qed.

Lemma wf_with_evictions x s :
  wellFormed s -> wellFormed (with_evictions x s).
Proof. intros []. constructor; auto. Qed.

Lemma wf_tagMapOk s : wellFormed s -> tagMapOk (tagMap s).
Proof. intros []. split; auto. Qed.

Lemma wf_keyTagsOk s : wellFormed s -> tagMapOk (keyTags s).
Proof. intros []. split; auto. Qed.

Lemma wf_emptyCache : wellFormed (@emptyCache value).
Proof. constructor; simpl; constructor. Qed.

Lemma wf_flush s : wellFormed (flush s).
Proof. constructor; simpl; constructor. Qed.

Lemma wf_delete key s : wellFormed s -> wellFormed (snd (delete key s)).
Proof.
  intros W. unfold delete. cbn [snd].
  assert (W4 : wellFormed
    (with_priorityMap (JsMap.delete key (priorityMap s))
       (with_ttlMap (JsMap.delete key (ttlMap s))
          (with_meta (JsMap.delete key (meta s))
             (with_store (JsMap.delete key (store s)) s))))).
  { apply wf_with_priorityMap; [apply JsMapFacts.NoDup_keys_delete, W|].
    apply wf_with_ttlMap; [apply JsMapFacts.NoDup_keys_delete, W|].
    apply wf_with_meta; [apply JsMapFacts.NoDup_keys_delete, W|].
    apply wf_with_store; [apply JsMapFacts.NoDup_keys_delete, W|]. exact W. }
  simpl.
  destruct (JsMap.get key (keyTags s)) as [tags|]; [|exact W4].
  apply wf_with_keyTags.
  - split; [apply JsMapFacts.NoDup_keys_delete, W | apply setsOf_delete, W].
  - apply wf_with_tagMap; [|exact W4].
    apply fold_left_invariant; [intros; now apply untag_ok|].
    now apply wf_tagMapOk.
Qed.

Lemma wf_evict cfg s :
  configMaps cfg -> wellFormed s -> wellFormed (evict cfg s).
Proof.
  intros C W. unfold evict. unfold configMaps in C.
  destruct (customEvict cfg) as [f|].
  - destruct (C (store s) (meta s) (wf_store _ W) (wf_meta _ W)) as [A B].
    destruct (f (store s) (meta s)) as [st me]. simpl in *.
    apply wf_with_meta; auto. apply wf_with_store; auto.
  - destruct (sort (compareEntries cfg s) (store s)) as [|[k v] r]; auto.
    apply wf_with_evictions. now apply wf_delete.
Qed.

Lemma wf_set cfg now key v o s :
  configMaps cfg -> wellFormed s -> wellFormed (set cfg now key v o s).
Proof.
  intros C W. unfold set.
  set (s1 := with_priorityMap _ s).
  assert (W1 : wellFormed s1).
  { apply wf_with_priorityMap; auto. apply JsMapFacts.NoDup_keys_set, W. }
  destruct (negb (overWrite cfg) && JsMap.has key (store s1)); auto.
  match goal with
  | |- context [if ?c then evict cfg s1 else s1] =>
      set (s2 := if c then evict cfg s1 else s1)
  end.
  assert (W2 : wellFormed s2).
  { unfold s2. destruct (_ && _); auto. now apply wf_evict. }
  set (s3 := with_meta _ (with_store _ s2)).
  assert (W3 : wellFormed s3).
  { apply wf_with_meta; [apply JsMapFacts.NoDup_keys_set, W2|].
    apply wf_with_store; [apply JsMapFacts.NoDup_keys_set, W2|]. exact W2. }
  match goal with
  | |- context [with_keyTags _ ?x] => set (s4 := x)
  end.
  assert (W4 : wellFormed s4).
  { unfold s4.
    destruct (if truthy (opt_ttl o) then opt_ttl o else ttl cfg) as [t|];
      [destruct (0 <? t)|]; apply wf_with_ttlMap; auto;
      first [apply JsMapFacts.NoDup_keys_set, W3
            | apply JsMapFacts.NoDup_keys_delete, W3]. }
  clearbody s4.
  apply wf_with_tagMap.
  - apply fold_left_invariant; [intros; now apply tagWith_ok|].
    simpl. now apply wf_tagMapOk.
  - apply wf_with_keyTags; auto. split.
    + apply JsMapFacts.NoDup_keys_set, W4.
    + apply setsOf_set; [apply W4 | apply JsSetFacts.NoDup_of_list].
Qed.

Lemma wf_get cloneValue cfg now key s :
  wellFormed s -> wellFormed (snd (get cloneValue cfg now key s)).
Proof.
  intros W. unfold get. destruct (JsMap.get key (store s)); simpl.
  - destruct (expired now (JsMap.get key (ttlMap s))); simpl.
    + apply wf_with_misses. now apply wf_delete.
    + apply wf_with_hits. destruct (updateOnGet cfg); auto.
      apply wf_with_meta; auto. apply JsMapFacts.NoDup_keys_set, W.
  - now apply wf_with_misses.
Qed.

Lemma wf_getAll cloneValue isUndefined cfg now keys s :
  wellFormed s ->
  wellFormed (snd (getAll cloneValue isUndefined cfg now keys s)).
Proof.
  revert s. induction keys as [|k r IH]; intros s W; simpl; auto.
  pose proof (wf_get cloneValue cfg now k s W) as W1.
  destruct (get cloneValue cfg now k s) as [v s1]. simpl in W1.
  specialize (IH s1 W1).
  destruct (getAll cloneValue isUndefined cfg now r s1) as [vs s2]. exact IH.
Qed.

Lemma wf_getByTag cloneValue isUndefined cfg now tag s :
  wellFormed s ->
  wellFormed (snd (getByTag cloneValue isUndefined cfg now tag s)).
Proof.
  intros W. unfold getByTag. destruct (JsMap.get tag (tagMap s)); auto.
  now apply wf_getAll.
Qed.

Lemma wf_has cfg now key s :
  wellFormed s -> wellFormed (snd (has cfg now key s)).
Proof.
  intros W. unfold has.
  destruct (negb (JsMap.has key (store s))
            || expired now (JsMap.get key (ttlMap s))); simpl.
  - now apply wf_delete.
  - destruct (updateOnHas cfg); auto.
    apply wf_with_meta; auto. apply JsMapFacts.NoDup_keys_set, W.
Qed.

Lemma wf_deleteByTag tag s :
  wellFormed s -> wellFormed (snd (deleteByTag tag s)).
Proof.
  intros W. unfold deleteByTag.
  destruct (JsMap.get tag (tagMap s)) as [keys|]; auto.
  match goal with
  | |- context [fold_left ?f keys (0, s)] =>
      assert (H : wellFormed (snd (fold_left f keys (0, s))));
      [|destruct (fold_left f keys (0, s)) as [n s1]]
  end.
  - apply (fold_left_invariant (fun a => wellFormed (snd a))); auto.
    intros [n t] k Ht. cbn [snd fst] in *.
    pose proof (wf_delete k t Ht) as Hd. destruct (delete k t). exact Hd.
  - cbn [snd] in *. apply wf_with_tagMap; auto. split.
    + apply JsMapFacts.NoDup_keys_delete, H.
    + apply setsOf_delete, H.
Qed.

Lemma wf_rename cfg now oldKey newKey s :
  configMaps cfg -> wellFormed s ->
  wellFormed (snd (rename cfg now oldKey newKey s)).
Proof.
  intros C W. unfold rename.
  destruct (JsMap.get oldKey (store s)) as [v|]; auto.
  destruct (JsMap.has newKey (store s)); auto.
  cbn [snd]. apply wf_delete.
  pose proof (wf_set cfg now newKey v noOptions s C W) as W1.
  set (s1 := set cfg now newKey v noOptions s) in *. clearbody s1.
  set (s2 := if truthy (JsMap.get oldKey (meta s))
             then with_meta (JsMap.set newKey (or0 (JsMap.get oldKey (meta s)))
                                       (meta s1)) s1
             else s1).
  assert (W2 : wellFormed s2).
  { unfold s2. destruct (truthy _); auto.
    apply wf_with_meta; auto. apply JsMapFacts.NoDup_keys_set, W1. }
  clearbody s2.
  set (s3 := if truthy (JsMap.get oldKey (ttlMap s))
             then with_ttlMap
                    (JsMap.set newKey (or0 (JsMap.get oldKey (ttlMap s)))
                               (ttlMap s2)) s2
             else s2).
  assert (W3 : wellFormed s3).
  { unfold s3. destruct (truthy _); auto.
    apply wf_with_ttlMap; auto. apply JsMapFacts.NoDup_keys_set, W2. }
  clearbody s3.
  destruct (JsMap.get oldKey (keyTags s)) as [tags|]; auto.
  apply wf_with_tagMap.
  - apply fold_left_invariant; [intros; now apply retag_ok|].
    simpl. now apply wf_tagMapOk.
  - apply wf_with_keyTags; auto. split.
    + apply JsMapFacts.NoDup_keys_set, W3.
    + apply setsOf_set; [apply W3 | apply JsSetFacts.NoDup_of_list].
Qed.

Lemma wf_expire now key s :
  wellFormed s -> wellFormed (snd (expire now key s)).
Proof.
  intros W. unfold expire. destruct (negb (JsMap.has key (ttlMap s))); auto.
  simpl. apply wf_with_ttlMap; auto. apply JsMapFacts.NoDup_keys_set, W.
Qed.

Lemma wf_prune now s : wellFormed s -> wellFormed (snd (prune now s)).
Proof.
  intros W. unfold prune.
  apply (fold_left_invariant (fun a => wellFormed (snd a))); auto.
  intros [n t] [k d] Ht. cbn [snd fst] in *.
  destruct (d <? now); auto.
  pose proof (wf_delete k t Ht) as Hd. destruct (delete k t). exact Hd.
Qed.

Lemma wf_resetStats s : wellFormed s -> wellFormed (resetStats s).
Proof.
  intros W. unfold resetStats.
  now apply wf_with_evictions, wf_with_misses, wf_with_hits.
Qed.

Lemma wf_loadSnapshot (snap : Snapshot) s :
  wellFormed s -> wellFormed (stateOf (loadSnapshot snap s)).
Proof.
  intros W. destruct snap as [|o]; [exact W|].
  apply (loadSnapshot_invariant wellFormed).
  - intros k v t Wt. apply wf_with_store; auto.
    apply JsMapFacts.NoDup_keys_set, Wt.
  - intros k v t Wt. apply wf_with_meta; auto.
    apply JsMapFacts.NoDup_keys_set, Wt.
  - intros k v t Wt. apply wf_with_ttlMap; auto.
    apply JsMapFacts.NoDup_keys_set, Wt.
  - intros k l t Wt. apply wf_with_tagMap; auto. split.
    + apply JsMapFacts.NoDup_keys_set, Wt.
    + apply setsOf_set; [apply Wt | apply JsSetFacts.NoDup_of_list].
  - intros k l t Wt. apply wf_with_keyTags; auto. split.
    + apply JsMapFacts.NoDup_keys_set, Wt.
    + apply setsOf_set; [apply Wt | apply JsSetFacts.NoDup_of_list].
  - intros a b c t Wt.
    now apply wf_with_evictions, wf_with_misses, wf_with_hits.
  - apply wf_flush.
Qed.

(** The maps of a reachable state hold each key once and its sets each
    element once. *)
Lemma reachable_wellFormed cloneValue cfg s :
  configMaps cfg -> reachable cloneValue cfg s -> wellFormed s.
Proof.
  intros C R. induction R.
  - apply wf_emptyCache.
  - now apply wf_set.
  - now apply wf_get.
  - now apply wf_getByTag.
  - now apply wf_has.
  - now apply wf_delete.
  - now apply wf_deleteByTag.
  - now apply wf_rename.
  - apply wf_flush.
  - now apply wf_expire.
  - now apply wf_prune.
  - now apply wf_resetStats.
  - change s' with (stateOf (Returned s')).
    match goal with H : loadSnapshot _ _ = _ |- _ => rewrite <- H end.
    now apply wf_loadSnapshot.
  - change s' with (stateOf (Thrown e s')).
    match goal with H : loadSnapshot _ _ = _ |- _ => rewrite <- H end.
    now apply wf_loadSnapshot.
Qed.

End WellFormed.

(** C7.  For every state a cache can reach, [snapshot] followed by
    [loadSnapshot] on a new cache returns, and the restored cache has the
    store of the original (the same keys and values in the same order), the
    same recency map and deadlines, the same tag-to-keys and key-to-tags
    maps, and the same hits, misses and evictions; it is the original state
    with the priority map emptied. *)
Theorem snapshot_loadSnapshot_roundtrip {value : Type}
        (cloneValue : value -> value) (cfg : @Config value) (s : Cache) :
  configMaps cfg ->
  reachable cloneValue cfg s ->
  exists s',
    loadSnapshot (Object (snapshot s)) emptyCache = Returned s'
    /\ s' = with_priorityMap JsMap.empty s
    /\ store s' = store s
    /\ JsMap.keys (store s') = JsMap.keys (store s)
    /\ meta s' = meta s /\ ttlMap s' = ttlMap s
    /\ tagMap s' = tagMap s /\ keyTags s' = keyTags s
    /\ hits s' = hits s /\ misses s' = misses s
    /\ evictions s' = evictions s.
Proof.
  intros C R. exists (with_priorityMap JsMap.empty s).
  split.
  - apply loadSnapshot_snapshot. eapply reachable_wellFormed; eauto.
  - repeat split; reflexivity.
Qed.

Lemma snapshot_loadSnapshot_roundtrip_witness :
  exists s',
    loadSnapshot (Object (snapshot Samples.retaggedY)) emptyCache = Returned s'
    /\ store s' = [("a"%string, 1)]
    /\ tagMap s' = [("x"%string, ["a"%string]); ("y"%string, ["a"%string])].
Proof.
  destruct (snapshot_loadSnapshot_roundtrip (fun v => v) Samples.lru
              Samples.retaggedY I) as [s' [H [E _]]].
  - apply reach_set. apply reach_set. apply reach_new.
  - exists s'. split; [exact H|]. rewrite E. split; reflexivity.
Defined.

Lemma clone_returns {value : Type} (jsonValue : value -> value)
      (cfg : @Config value) (s : Cache) :
  0 < limit cfg ->
  (strategy cfg = CUSTOM -> customEvict cfg <> None) ->
  exists cfg' s', clone jsonValue cfg s = inr (cfg', Returned s').
Proof.
  intros Hl Hc.
  assert (Hk : exists cfg',
             constructor (deepCloneOptions cfg) = inr (cfg', emptyCache)).
  { unfold constructor. cbn [deepCloneOptions o_limit o_strategy
      o_customEvict dflt].
    apply Z.leb_gt in Hl. rewrite Hl.
    destruct (strategy cfg) eqn:Es; try (eexists; reflexivity).
    destruct (customEvict cfg) eqn:Ec; [eexists; reflexivity|].
    exfalso. now apply Hc. }
  assert (Hr : exists s', loadSnapshot (Object (jsonSnapshot jsonValue (snapshot s)))
                            emptyCache = Returned s').
  { unfold loadSnapshot, jsonSnapshot, snapshot, forField, mapField.
    cbn [snap_data snap_meta snap_ttlMap snap_tagMap snap_keyTags snap_stats].
    rewrite map_map. cbn [option_map].
    rewrite <- (map_map (fun e => (fst e, jsonValue (snd e))) Some).
    rewrite !forOf_map_Some. cbn [andThen].
    rewrite !forOf_map_Some. cbn [andThen].
    rewrite !forOf_map_Some. cbn [andThen].
    rewrite !forOf_map_Some. cbn [andThen].
    rewrite !forOf_map_Some. cbn [andThen].
    eexists. reflexivity. }
  destruct Hr as [s' Hr]. destruct Hk as [cfg' Hk].
  exists cfg', s'. unfold clone. now rewrite Hk, Hr.
Qed.

(** C10.  The snapshot of a state does not depend on its priority map;
    after [loadSnapshot] has returned the priority map is empty, so every
    key has the priority 0 and the comparator of [evict] orders any two
    entries by recency alone; and [clone] of a cache the constructor
    accepts returns a cache whose priority map is empty. *)
Theorem snapshot_excludes_priorities {value : Type}
        (jsonValue : value -> value) :
  (forall (s : @Cache value) p, snapshot (with_priorityMap p s) = snapshot s)
  /\ (forall (snap : @Snapshot value) s s',
         loadSnapshot snap s = Returned s' ->
         priorityMap s' = JsMap.empty
         /\ (forall k, priorityOf s' k = 0)
         /\ (forall cfg a b,
                compareEntries cfg s' a b
                = compareRecency cfg s' (fst a) (fst b)))
  /\ (forall (cfg : @Config value) s,
         0 < limit cfg ->
         (strategy cfg = CUSTOM -> customEvict cfg <> None) ->
         exists cfg' s',
           clone jsonValue cfg s = inr (cfg', Returned s')
           /\ priorityMap s' = JsMap.empty
           /\ (forall k, priorityOf s' k = 0)).
Proof.
  split; [reflexivity|]. split.
  - intros snap s s' H. apply loadSnapshot_priorityMap in H.
    split; [exact H|]. split.
    + intros k. unfold priorityOf. now rewrite H.
    + intros cfg a b. unfold compareEntries, compareRecency, recordedAt.
      rewrite H. reflexivity.
  - intros cfg s Hl Hc.
    destruct (clone_returns jsonValue cfg s Hl Hc) as [cfg' [s' H]].
    exists cfg', s'. split; [exact H|].
    unfold clone in H.
    destruct (constructor (deepCloneOptions cfg)) as [e|[c fresh]];
      [discriminate|].
    assert (Hs : loadSnapshot (Object (jsonSnapshot jsonValue (snapshot s)))
                              fresh = Returned s') by congruence.
    apply loadSnapshot_priorityMap in Hs.
    split; [exact Hs|]. intros k. unfold priorityOf. now rewrite Hs.
Qed.

Lemma snapshot_excludes_priorities_witness :
  priorityOf (Samples.twoEntries Samples.lru) "b" = 2
  /\ loadSnapshot (Object (snapshot (Samples.twoEntries Samples.lru)))
                  emptyCache
     = Returned (with_priorityMap JsMap.empty (Samples.twoEntries Samples.lru))
  /\ priorityOf (with_priorityMap JsMap.empty (Samples.twoEntries Samples.lru))
                "b" = 0.
Proof.
  assert (E : loadSnapshot (Object (snapshot (Samples.twoEntries Samples.lru)))
                           emptyCache
              = Returned (with_priorityMap JsMap.empty
                            (Samples.twoEntries Samples.lru)))
    by (vm_compute; reflexivity).
  split; [vm_compute; reflexivity|]. split; [exact E|].
  destruct (snapshot_excludes_priorities (fun v : Z => v)) as [_ [H _]].
  destruct (H _ _ _ E) as [_ [H2 _]].
  exact (H2 "b"%string).
Defined.

(** ** The ranking of [evict] (C4, C5) *)

Section SortFacts.

Context {A : Type} (cmp : A -> A -> Z).

Lemma insertSorted_in (x y : A) (l : list A) :
  In y (insertSorted cmp x l) <-> y = x \/ In y l.
Proof.
  induction l as [|z r IH]; simpl.
  - intuition auto.
  - destruct (cmp x z <=? 0); simpl; [intuition auto|].
    rewrite IH. intuition auto.
Qed.

Lemma sort_in (y : A) (l : list A) : In y (sort cmp l) <-> In y l.
Proof.
  induction l as [|x r IH]; simpl; [tauto|].
  rewrite insertSorted_in, IH. intuition auto.
Qed.

Lemma sort_nil (l : list A) : sort cmp l = [] -> l = [].
Proof.
  destruct l as [|x r]; auto. intros H.
  assert (I : In x (sort cmp (x :: r))) by (apply sort_in; now left).
  rewrite H in I. destruct I.
Qed.

Hypothesis cmp_total : forall a b, cmp a b <= 0 \/ cmp b a <= 0.
Hypothesis cmp_trans :
  forall a b c, cmp a b <= 0 -> cmp b c <= 0 -> cmp a c <= 0.

(** The first element of the sorted array is a least one. *)
Lemma sort_head_least (l : list A) (x : A) (r : list A) :
  sort cmp l = x :: r -> forall y, In y l -> cmp x y <= 0.
Proof.
  revert x r. induction l as [|a l IH]; intros x r H y Hy; [destruct Hy|].
  simpl in H. destruct (sort cmp l) as [|m r'] eqn:E.
  - apply sort_nil in E. subst l. simpl in H. inversion H; subst.
    destruct Hy as [->|[]]. destruct (cmp_total y y); auto.
  - simpl in H. destruct (cmp a m <=? 0) eqn:C.
    + inversion H; subst. apply Z.leb_le in C.
      destruct Hy as [->|Hy]; [destruct (cmp_total y y); auto|].
      apply cmp_trans with m; auto. eapply IH; eauto.
    + inversion H; subst. apply Z.leb_gt in C.
      destruct Hy as [->|Hy]; [|eapply IH; eauto].
      destruct (cmp_total x y); auto. lia.
Qed.

End SortFacts.

Section Ranking.

Context {value : Type}.
Implicit Types (s : @Cache value) (cfg : @Config value).

Lemma compareEntries_le cfg s (a b : string * value) :
  compareEntries cfg s a b <= 0 <->
  priorityOf s (fst a) < priorityOf s (fst b)
  \/ (priorityOf s (fst a) = priorityOf s (fst b)
      /\ compareRecency cfg s (fst a) (fst b) <= 0).
Proof.
  unfold compareEntries, compareRecency, priorityOf, recordedAt.
  destruct (or0 (JsMap.get (fst a) (priorityMap s))
            =? or0 (JsMap.get (fst b) (priorityMap s))) eqn:E; simpl.
  - apply Z.eqb_eq in E. rewrite E. split; [intros H; right; auto|].
    intros [H|[_ H]]; [lia | exact H].
  - apply Z.eqb_neq in E. lia.
Qed.

Lemma compareEntries_total cfg s (a b : string * value) :
  compareEntries cfg s a b <= 0 \/ compareEntries cfg s b a <= 0.
Proof.
  rewrite !compareEntries_le. unfold compareRecency.
  destruct (strategy cfg); lia.
Qed.

Lemma compareEntries_trans cfg s (a b c : string * value) :
  compareEntries cfg s a b <= 0 -> compareEntries cfg s b c <= 0 ->
  compareEntries cfg s a c <= 0.
Proof.
  rewrite !compareEntries_le. unfold compareRecency.
  destruct (strategy cfg); lia.
Qed.

(** Without a [customEvict] function and with a store that is not empty,
    [evict] deletes one key of the store, a least one in the order of the
    comparator, and counts it. *)
Lemma evict_victim cfg s :
  customEvict cfg = None -> store s <> [] ->
  exists victim,
    In victim (JsMap.keys (store s))
    /\ evict cfg s = with_evictions (evictions s + 1) (snd (delete victim s))
    /\ forall k, In k (JsMap.keys (store s)) ->
         priorityOf s victim < priorityOf s k
         \/ (priorityOf s victim = priorityOf s k
             /\ compareRecency cfg s victim k <= 0).
Proof.
  intros Hc Hne. unfold evict. rewrite Hc.
  destruct (sort (compareEntries cfg s) (store s)) as [|[k v] r] eqn:E.
  - apply sort_nil in E. contradiction.
  - exists k. split; [|split].
    + assert (I : In (k, v) (store s)).
      { apply (sort_in (compareEntries cfg s)). rewrite E. now left. }
      apply in_map_iff. exists (k, v). auto.
    + destruct (delete_counters k s) as [_ [_ He]]. now rewrite He.
    + intros k' Hk'. apply in_map_iff in Hk'. destruct Hk' as [[k2 v2] [<- I]].
      pose proof (sort_head_least (compareEntries cfg s)
                    (compareEntries_total cfg s) (compareEntries_trans cfg s)
                    _ _ _ E _ I) as H.
      apply compareEntries_le in H. exact H.
Qed.

Lemma size_positive_nonempty {B : Type} (m : JsMap.t B) (limit : Z) :
  0 < limit -> limit <= JsMap.size m -> m <> [].
Proof.
  intros H1 H2 ->. unfold JsMap.size in H2. simpl in H2. lia.
Qed.

Lemma length_set_fresh {B : Type} (k : string) (v : B) (m : JsMap.t B) :
  JsMap.has k m = false ->
  List.length (JsMap.set k v m) = S (List.length m).
Proof.
  intros H. apply JsMapFacts.has_false_get, JsMapFacts.get_none_keys in H.
  rewrite JsMapFacts.set_fresh by assumption.
  rewrite length_app. simpl. lia.
Qed.

Lemma has_delete_other {B : Type} (k k' : string) (m : JsMap.t B) :
  JsMap.has k m = false -> JsMap.has k (JsMap.delete k' m) = false.
Proof.
  intros H. apply JsMapFacts.has_false_get.
  apply JsMapFacts.has_false_get in H.
  destruct (string_dec k k') as [->|Hne].
  - apply JsMapFacts.get_delete_eq.
  - now rewrite JsMapFacts.get_delete_neq.
Qed.

End Ranking.

(** C4, against the claim as stated: under the CUSTOM strategy an eviction
    removes what the supplied function removes, here no entry at all or
    both entries, and the evictions counter stays where it was. *)
Lemma evict_custom_not_exactly_one :
  strategy Samples.custom = CUSTOM
  /\ limit Samples.custom
     <= JsMap.size (store (Samples.twoEntries Samples.custom))
  /\ JsMap.keys (store (Samples.twoEntries Samples.custom))
     = ["a"%string; "b"%string]
  /\ store (evict Samples.custom (Samples.twoEntries Samples.custom))
     = store (Samples.twoEntries Samples.custom)
  /\ evictions (evict Samples.custom (Samples.twoEntries Samples.custom))
     = evictions (Samples.twoEntries Samples.custom)
  /\ JsMap.keys (store (set Samples.custom 30 "c"%string 3 noOptions
                            (Samples.twoEntries Samples.custom)))
     = ["a"%string; "b"%string; "c"%string]
  /\ evictions (set Samples.custom 30 "c"%string 3 noOptions
                    (Samples.twoEntries Samples.custom)) = 0
  /\ store (evict Samples.customAll (Samples.twoEntries Samples.customAll))
     = []
  /\ evictions (evict Samples.customAll
                      (Samples.twoEntries Samples.customAll)) = 0.
Proof. by_computation. Qed.

(** C4, amended.  On a store at or above the limit, which is positive:
    when no [customEvict] function was supplied, the eviction removes
    exactly one entry of the store, a key that was in it, and adds one to
    the evictions counter, and the [set] of a new key that triggered it
    leaves the store as large as it was and the counter one higher; when a
    [customEvict] function was supplied, as it always is under CUSTOM, the
    store after the eviction is the one the function leaves and the
    evictions counter is not touched. *)
Theorem evict_removes_exactly_one {value : Type}
        (cfg : @Config value) (s : Cache) :
  0 < limit cfg ->
  limit cfg <= JsMap.size (store s) ->
  uniqueKeys (store s) ->
  (customEvict cfg = None ->
   S (List.length (store (evict cfg s))) = List.length (store s)
   /\ evictions (evict cfg s) = evictions s + 1
   /\ (exists victim,
          In victim (JsMap.keys (store s))
          /\ store (evict cfg s) = JsMap.delete victim (store s))
   /\ (forall now key v o,
          JsMap.has key (store s) = false ->
          evictions (set cfg now key v o s) = evictions s + 1
          /\ List.length (store (set cfg now key v o s))
             = List.length (store s)))
  /\ (forall f, customEvict cfg = Some f ->
         store (evict cfg s) = fst (f (store s) (meta s))
         /\ evictions (evict cfg s) = evictions s).
Proof.
  intros Hpos Hfull Hu. split.
  2:{ intros f Hf. rewrite (evict_with_custom cfg f s Hf). split; reflexivity. }
  intros Hc.
  assert (Hv : forall t, store t = store s -> evictions t = evictions s ->
            S (List.length (store (evict cfg t))) = List.length (store s)
            /\ evictions (evict cfg t) = evictions s + 1
            /\ exists victim,
                 In victim (JsMap.keys (store s))
                 /\ store (evict cfg t) = JsMap.delete victim (store s)).
  { intros t Hst Hev.
    destruct (evict_victim cfg t Hc) as [victim [Hin [He _]]].
    { rewrite Hst. eapply size_positive_nonempty; eauto. }
    rewrite Hst in Hin. rewrite He. cbn [store evictions with_evictions].
    rewrite delete_store, Hst, Hev.
    split; [now apply JsMapFacts.length_delete|].
    split; [reflexivity|]. exists victim. auto. }
  destruct (Hv s eq_refl eq_refl) as [H1 [H2 H3]].
  repeat (split; [assumption|]).
  intros now key v o Hnew.
  destruct (set_fields cfg now key v o s) as [Hst [_ [_ [_ [_ [_ [_ [_ Hev]]]]]]]].
  { rewrite Hnew. apply andb_false_r. }
  rewrite Hst, Hev. unfold beforeInsert. cbn [store with_priorityMap].
  apply Z.leb_le in Hfull. rewrite Hfull, Hnew. cbn [andb negb].
  destruct (Hv (with_priorityMap
                  (JsMap.set key (dflt 0 (opt_priority o)) (priorityMap s)) s)
               eq_refl eq_refl) as [G1 [G2 [victim [_ G3]]]].
  split; [exact G2|].
  rewrite length_set_fresh; [exact G1|].
  rewrite G3. now apply has_delete_other.
Qed.

Lemma evict_removes_exactly_one_witness :
  JsMap.keys (store (Samples.twoEntries Samples.lru))
  = ["a"%string; "b"%string]
  /\ S (List.length (store (evict Samples.lru
                                  (Samples.twoEntries Samples.lru)))) = 2%nat
  /\ evictions (evict Samples.lru (Samples.twoEntries Samples.lru)) = 1.
Proof.
  assert (U : uniqueKeys (store (Samples.twoEntries Samples.lru))).
  { repeat constructor; simpl; intuition discriminate. }
  destruct (evict_removes_exactly_one Samples.lru
              (Samples.twoEntries Samples.lru)) as [H _];
    [reflexivity | vm_compute; discriminate | exact U |].
  destruct (H eq_refl) as [H1 [H2 _]].
  split; [reflexivity|]. split; [exact H1 | exact H2].
Defined.

(** C5, against the claim as stated: under the LRU strategy with a
    [customEvict] function supplied, a full cache whose two entries have
    distinct priorities keeps the entry of lowest priority through an
    eviction and loses the other one; the ranking is not applied. *)
Lemma evict_lru_with_custom_keeps_lowest :
  strategy Samples.lruWithCustom = LRU
  /\ limit Samples.lruWithCustom
     <= JsMap.size (store (Samples.twoEntries Samples.lruWithCustom))
  /\ JsMap.keys (store (Samples.twoEntries Samples.lruWithCustom))
     = ["a"%string; "b"%string]
  /\ priorityOf (Samples.twoEntries Samples.lruWithCustom) "a" = 1
  /\ priorityOf (Samples.twoEntries Samples.lruWithCustom) "b" = 2
  /\ JsMap.keys (store (evict Samples.lruWithCustom
                              (Samples.twoEntries Samples.lruWithCustom)))
     = ["a"%string]
  /\ JsMap.keys (store (set Samples.lruWithCustom 30 "c"%string 3 noOptions
                            (Samples.twoEntries Samples.lruWithCustom)))
     = ["a"%string; "c"%string].
Proof. by_computation. Qed.

(** C5, amended.  Under the LRU, FIFO and MFU strategies, when no
    [customEvict] function was supplied, the key [evict] deletes from a
    store that is not empty has the lowest priority of all entries, and
    among the entries of that priority the oldest [recordedAt] (LRU, FIFO)
    or the newest (MFU); in particular, when one entry has a priority
    strictly below every other, that entry is the one removed, whatever
    its recency. *)
Theorem evict_priority_then_recency {value : Type}
        (cfg : @Config value) (s : Cache) :
  customEvict cfg = None ->
  store s <> [] ->
  exists victim,
    In victim (JsMap.keys (store s))
    /\ store (evict cfg s) = JsMap.delete victim (store s)
    /\ JsMap.has victim (store (evict cfg s)) = false
    /\ (forall k, In k (JsMap.keys (store s)) ->
          priorityOf s victim <= priorityOf s k
          /\ (priorityOf s k = priorityOf s victim ->
              match strategy cfg with
              | LRU | FIFO => recordedAt s victim <= recordedAt s k
              | MFU => recordedAt s k <= recordedAt s victim
              | CUSTOM => True
              end))
    /\ (forall k, In k (JsMap.keys (store s)) ->
          (forall k', In k' (JsMap.keys (store s)) -> k' <> k ->
                      priorityOf s k < priorityOf s k') ->
          victim = k).
Proof.
  intros Hc Hne.
  destruct (evict_victim cfg s Hc Hne) as [victim [Hin [He Hmin]]].
  exists victim. split; [exact Hin|].
  assert (Hst : store (evict cfg s) = JsMap.delete victim (store s)).
  { rewrite He. cbn [store with_evictions]. apply delete_store. }
  split; [exact Hst|]. split.
  { rewrite Hst. apply JsMapFacts.has_false_get, JsMapFacts.get_delete_eq. }
  split.
  - intros k Hk. specialize (Hmin k Hk). unfold compareRecency in Hmin.
    split; [lia|]. intros Heq. destruct (strategy cfg); auto; lia.
  - intros k Hk Hlow.
    destruct (string_dec victim k) as [E|N]; auto.
    specialize (Hlow victim Hin N). specialize (Hmin k Hk). lia.
Qed.

Lemma evict_priority_then_recency_witness :
  recordedAt (Samples.twoEntries Samples.cfgMFU) "b" = 20
  /\ recordedAt (Samples.twoEntries Samples.cfgMFU) "a" = 10
  /\ exists victim,
       store (evict Samples.cfgMFU (Samples.twoEntries Samples.cfgMFU))
       = JsMap.delete victim (store (Samples.twoEntries Samples.cfgMFU))
       /\ victim = "a"%string.
Proof.
  split; [reflexivity|]. split; [reflexivity|].
  destruct (evict_priority_then_recency Samples.cfgMFU (Samples.twoEntries Samples.cfgMFU)
              eq_refl) as [victim [Hin [Hst [_ [_ Hlow]]]]];
    [vm_compute; discriminate|].
  exists victim. split; [exact Hst|].
  apply Hlow; [simpl; auto|].
  intros k' [<-|[<-|[]]] Hne; [exfalso; now apply Hne | reflexivity].
Defined.

(** ** rename (C6) *)

Section Rename.

Context {value : Type}.
Implicit Types (s : @Cache value) (cfg : @Config value).

(** A key that is not in the store keeps its priority through [evict]:
    the ranking deletes a key of the store, a [customEvict] function has
    no access to the priorities. *)
Lemma evict_priority_absent cfg s key :
  JsMap.has key (store s) = false ->
  JsMap.get key (priorityMap (evict cfg s)) = JsMap.get key (priorityMap s).
Proof.
  intros Hn. destruct (customEvict cfg) as [f|] eqn:Hc.
  - now rewrite (evict_with_custom cfg f s Hc).
  - destruct (store s) as [|e r] eqn:Hs.
    + unfold evict. rewrite Hc, Hs. reflexivity.
    + destruct (evict_victim cfg s Hc) as [victim [Hin [He _]]].
      { rewrite Hs. discriminate. }
      rewrite He. cbn [priorityMap with_evictions].
      rewrite delete_priorityMap. apply JsMapFacts.get_delete_neq.
      intros ->. apply JsMapFacts.has_true_keys in Hin. congruence.
Qed.

(** The fields of the state a successful [rename] returns, from those of
    the state [s1] that its call of [set] returns. *)
Lemma rename_fields cfg now oldKey newKey s (v : value) :
  JsMap.get oldKey (store s) = Some v ->
  JsMap.has newKey (store s) = false ->
  let s1 := set cfg now newKey v noOptions s in
  let r := rename cfg now oldKey newKey s in
  fst r = true
  /\ store (snd r) = JsMap.delete oldKey (store s1)
  /\ meta (snd r)
     = JsMap.delete oldKey
         (if truthy (JsMap.get oldKey (meta s))
          then JsMap.set newKey (or0 (JsMap.get oldKey (meta s))) (meta s1)
          else meta s1)
  /\ ttlMap (snd r)
     = JsMap.delete oldKey
         (if truthy (JsMap.get oldKey (ttlMap s))
          then JsMap.set newKey (or0 (JsMap.get oldKey (ttlMap s))) (ttlMap s1)
          else ttlMap s1)
  /\ priorityMap (snd r) = JsMap.delete oldKey (priorityMap s1)
  /\ keyTags (snd r)
     = JsMap.delete oldKey
         (match JsMap.get oldKey (keyTags s) with
          | Some tags => JsMap.set newKey (JsSet.of_list tags) (keyTags s1)
          | None => keyTags s1
          end).
Proof.
  intros Hold Hnew s1 r. unfold r, rename. rewrite Hold, Hnew.
  fold s1. cbn [fst snd]. split; [reflexivity|].
  rewrite delete_store, delete_meta, delete_ttlMap, delete_priorityMap,
    delete_keyTags.
  destruct (truthy (JsMap.get oldKey (meta s)));
    destruct (truthy (JsMap.get oldKey (ttlMap s)));
    destruct (JsMap.get oldKey (keyTags s)); repeat split; reflexivity.
Qed.

Lemma truthy_some (x : Z) : x <> 0 -> truthy (Some x) = true.
Proof. intros H. simpl. apply Z.eqb_neq in H. now rewrite H. Qed.

(** An old key without a deadline has none to hand over: the new key
    keeps what the [set] inside [rename] gave it, the deadline of the
    cache-wide [ttl] counted from the time of the call, or none. *)
Lemma rename_without_deadline cfg now oldKey newKey s (v : value) :
  JsMap.get oldKey (store s) = Some v ->
  JsMap.has newKey (store s) = false ->
  truthy (JsMap.get oldKey (ttlMap s)) = false ->
  JsMap.get newKey (ttlMap (snd (rename cfg now oldKey newKey s)))
  = deadlineOf cfg now noOptions.
Proof.
  intros Hold Hnew Hno.
  assert (Hne : newKey <> oldKey).
  { intros ->. unfold JsMap.has in Hnew. rewrite Hold in Hnew.
    discriminate. }
  destruct (rename_fields cfg now oldKey newKey s v Hold Hnew)
    as [_ [_ [_ [Htt _]]]].
  rewrite Htt, Hno, JsMapFacts.get_delete_neq by assumption.
  destruct (set_fields cfg now newKey v noOptions s) as [_ [_ [Stt _]]].
  { rewrite Hnew. apply andb_false_r. }
  rewrite Stt. destruct (deadlineOf cfg now noOptions).
  - apply JsMapFacts.get_set_eq.
  - apply JsMapFacts.get_delete_eq.
Qed.

End Rename.

(** What [rename] does on every input.  It returns false and leaves the
    state as it is when the old key is not in the store or the new key is;
    otherwise it returns true, the new key holds the value of the old key,
    its recency timestamp and its deadline (where the old key has one; a
    timestamp or deadline is a non-zero number) and, in [keyTags], its tag
    set; the old key is gone from the store and from the recency, deadline,
    priority and key-to-tags maps, and the priority of the new key is the
    default 0 whatever the priority of the old key was.  Whether the key
    sets of [tagMap] follow depends on the eviction inside [rename]:
    [rename_tagged] and the theorem after this one. *)
Theorem rename_carries_all_but_priority {value : Type}
        (cfg : @Config value) (now : Z) (oldKey newKey : string) (s : Cache) :
  (JsMap.has oldKey (store s) = false \/ JsMap.has newKey (store s) = true ->
   rename cfg now oldKey newKey s = (false, s))
  /\ (forall v,
         JsMap.get oldKey (store s) = Some v ->
         JsMap.has newKey (store s) = false ->
         let r := rename cfg now oldKey newKey s in
         fst r = true
         /\ JsMap.get newKey (store (snd r)) = Some v
         /\ (forall m, JsMap.get oldKey (meta s) = Some m -> m <> 0 ->
                       JsMap.get newKey (meta (snd r)) = Some m)
         /\ (forall d, JsMap.get oldKey (ttlMap s) = Some d -> d <> 0 ->
                       JsMap.get newKey (ttlMap (snd r)) = Some d)
         /\ (forall tags, JsMap.get oldKey (keyTags s) = Some tags ->
               exists tags',
                 JsMap.get newKey (keyTags (snd r)) = Some tags'
                 /\ forall t, In t tags' <-> In t tags)
         /\ JsMap.get oldKey (store (snd r)) = None
         /\ JsMap.get oldKey (meta (snd r)) = None
         /\ JsMap.get oldKey (ttlMap (snd r)) = None
         /\ JsMap.get oldKey (priorityMap (snd r)) = None
         /\ JsMap.get oldKey (keyTags (snd r)) = None
         /\ JsMap.get newKey (priorityMap (snd r)) = Some 0
         /\ priorityOf (snd r) newKey = 0).
Proof.
  split.
  - intros H. unfold rename.
    destruct (JsMap.get oldKey (store s)) as [v|] eqn:Eo; auto.
    destruct H as [H|H]; [|now rewrite H].
    unfold JsMap.has in H. rewrite Eo in H. discriminate.
  - intros v Hold Hnew r.
    assert (Hne : newKey <> oldKey).
    { intros ->. unfold JsMap.has in Hnew. rewrite Hold in Hnew.
      discriminate. }
    destruct (rename_fields cfg now oldKey newKey s v Hold Hnew)
      as [Hr [Hst [Hme [Htt [Hpr Hkt]]]]].
    fold r in Hr, Hst, Hme, Htt, Hpr, Hkt.
    destruct (set_fields cfg now newKey v noOptions s)
      as [Sst [Sme [Stt [Spr _]]]].
    { rewrite Hnew. apply andb_false_r. }
    assert (Hp : JsMap.get newKey (priorityMap (snd r)) = Some 0).
    { rewrite Hpr, JsMapFacts.get_delete_neq by assumption.
      rewrite Spr. unfold beforeInsert. cbn [store with_priorityMap].
      rewrite Hnew.
      destruct (limit cfg <=? JsMap.size (store s)); cbn [andb negb].
      - rewrite evict_priority_absent by assumption.
        cbn [priorityMap with_priorityMap]. apply JsMapFacts.get_set_eq.
      - cbn [priorityMap with_priorityMap]. apply JsMapFacts.get_set_eq. }
    split; [exact Hr|]. split.
    { rewrite Hst, JsMapFacts.get_delete_neq by assumption.
      rewrite Sst. apply JsMapFacts.get_set_eq. }
    split.
    { intros m Hm Hnz. rewrite Hme, Hm, truthy_some by assumption.
      rewrite JsMapFacts.get_delete_neq by assumption.
      apply JsMapFacts.get_set_eq. }
    split.
    { intros d Hd Hnz. rewrite Htt, Hd, truthy_some by assumption.
      rewrite JsMapFacts.get_delete_neq by assumption.
      apply JsMapFacts.get_set_eq. }
    split.
    { intros tags Ht. exists (JsSet.of_list tags). split.
      - rewrite Hkt, Ht, JsMapFacts.get_delete_neq by assumption.
        apply JsMapFacts.get_set_eq.
      - intros t. apply JsSetFacts.in_of_list. }
    split; [rewrite Hst; apply JsMapFacts.get_delete_eq|].
    split; [rewrite Hme; apply JsMapFacts.get_delete_eq|].
    split; [rewrite Htt; apply JsMapFacts.get_delete_eq|].
    split; [rewrite Hpr; apply JsMapFacts.get_delete_eq|].
    split; [rewrite Hkt; apply JsMapFacts.get_delete_eq|].
    split; [exact Hp|]. unfold priorityOf. now rewrite Hp.
Qed.

Lemma rename_carries_all_but_priority_witness :
  priorityOf Samples.renamable "a" = 5
  /\ fst (rename Samples.lru 30 "a" "b" Samples.renamable) = true
  /\ JsMap.get "b" (store (snd (rename Samples.lru 30 "a" "b"
                                       Samples.renamable))) = Some 1
  /\ JsMap.get "b" (meta (snd (rename Samples.lru 30 "a" "b"
                                      Samples.renamable))) = Some 10
  /\ JsMap.get "b" (ttlMap (snd (rename Samples.lru 30 "a" "b"
                                        Samples.renamable))) = Some 60
  /\ priorityOf (snd (rename Samples.lru 30 "a" "b" Samples.renamable)) "b"
     = 0.
Proof.
  destruct (rename_carries_all_but_priority Samples.lru 30 "a" "b"
              Samples.renamable) as [_ H].
  destruct (H 1 eq_refl eq_refl) as [H1 [H2 [H3 [H4 [_ [_ [_ [_ [_ [_ [_ H5]]]]]]]]]]].
  split; [reflexivity|]. split; [exact H1|]. split; [exact H2|].
  split; [apply H3; [reflexivity | discriminate]|].
  split; [apply H4; [reflexivity | discriminate] | exact H5].
Defined.

(** C6, at the failing inputs.  On a cache of limit 1 that holds ["a"]
    with the tag ["x"], [rename("a", "b")] returns true and ["b"] holds the
    value, but the tag is not carried over: the [set] inside [rename]
    evicts ["a"] and with it the key set of ["x"], so ["b"] lists the tag
    while [tagMap] has no tag at all and [getByTag("x")] returns nothing.
    On a cache whose default [ttl] is 100, [rename] of a key that has no
    deadline returns true and gives the new key the deadline [now + 100]:
    the absence of a deadline is not carried over either. *)
Theorem rename_loses_tag_and_gains_deadline :
  limit Samples.single = 1
  /\ Samples.fullTagged
     = set Samples.single 10 "a"%string 1 (Samples.tagged ["x"%string])
           emptyCache
  /\ inTagMap Samples.fullTagged "x" "a" = true
  /\ rename Samples.single 20 "a" "b" Samples.fullTagged
     = (true, Samples.fullRenamed)
  /\ JsMap.get "b"%string (store Samples.fullRenamed) = Some 1
  /\ inKeyTags Samples.fullRenamed "b" "x" = true
  /\ inTagMap Samples.fullRenamed "x" "b" = false
  /\ tags Samples.fullRenamed = []
  /\ fst (getByTag (fun v => v) Samples.defined Samples.single 30
                   "x"%string Samples.fullRenamed) = []
  /\ ttl Samples.withTtl = Some 100
  /\ JsMap.get "a"%string (store Samples.permanent) = Some 1
  /\ JsMap.get "a"%string (ttlMap Samples.permanent) = None
  /\ ttlExpire 20 "a" Samples.permanent = -1
  /\ fst (rename Samples.withTtl 20 "a" "b" Samples.permanent) = true
  /\ JsMap.get "b"%string
       (ttlMap (snd (rename Samples.withTtl 20 "a" "b" Samples.permanent)))
     = Some 120
  /\ ttlExpire 20 "b"
       (snd (rename Samples.withTtl 20 "a" "b" Samples.permanent)) = 100.
Proof. by_computation. Qed.

(** ** The tag index (C1) *)

Section TagIndex.

Context {value : Type}.
Implicit Types (s : @Cache value) (cfg : @Config value)
         (m : JsMap.t JsSet.t).

Lemma has_set_delete (k key : string) (ks : JsSet.t) :
  JsSet.has k (JsSet.delete key ks)
  = negb (String.eqb k key) && JsSet.has k ks.
Proof.
  unfold JsSet.has, JsSet.delete. induction ks as [|x r IH]; simpl.
  - now rewrite andb_false_r.
  - destruct (String.eqb_spec key x) as [->|Hne]; simpl.
    + rewrite IH. destruct (String.eqb k x); reflexivity.
    + rewrite IH. destruct (String.eqb_spec k x) as [->|Hk]; simpl; auto.
      apply not_eq_sym in Hne. apply String.eqb_neq in Hne.
      now rewrite Hne.
Qed.

Lemma has_set_add (k key : string) (ks : JsSet.t) :
  JsSet.has k (JsSet.add key ks) = String.eqb k key || JsSet.has k ks.
Proof.
  unfold JsSet.add. destruct (JsSet.has key ks) eqn:E.
  - destruct (String.eqb_spec k key) as [->|Hne]; simpl; auto.
  - unfold JsSet.has. rewrite existsb_app. simpl.
    rewrite orb_false_r. apply orb_comm.
Qed.

Lemma set_delete_nil (k key : string) (ks : JsSet.t) :
  JsSet.delete key ks = [] -> k <> key -> JsSet.has k ks = false.
Proof.
  intros H Hne.
  pose proof (has_set_delete k key ks) as E. rewrite H in E.
  apply String.eqb_neq in Hne. rewrite Hne in E. simpl in E. now rewrite <- E.
Qed.

Lemma size_zero (ks : JsSet.t) : (JsSet.size ks =? 0) = true <-> ks = [].
Proof.
  unfold JsSet.size. rewrite Z.eqb_eq. destruct ks; simpl; split; try lia;
    auto; discriminate.
Qed.

Lemma add_not_nil (key : string) (ks : JsSet.t) : JsSet.add key ks <> [].
Proof.
  unfold JsSet.add. destruct (JsSet.has key ks) eqn:E.
  - intros ->. discriminate.
  - destruct ks; discriminate.
Qed.

Lemma memberOf_set m x ys a b :
  memberOf (JsMap.set x ys m) a b
  = if String.eqb a x then JsSet.has b ys else memberOf m a b.
Proof.
  unfold memberOf. destruct (String.eqb_spec a x) as [->|Hne].
  - now rewrite JsMapFacts.get_set_eq.
  - now rewrite JsMapFacts.get_set_neq.
Qed.

Lemma memberOf_delete m x a b :
  memberOf (JsMap.delete x m) a b
  = if String.eqb a x then false else memberOf m a b.
Proof.
  unfold memberOf. destruct (String.eqb_spec a x) as [->|Hne].
  - now rewrite JsMapFacts.get_delete_eq.
  - now rewrite JsMapFacts.get_delete_neq.
Qed.

Lemma noEmptySet_set m x ys :
  noEmptySet m -> ys <> [] -> noEmptySet (JsMap.set x ys m).
Proof.
  intros Hm Hy a. destruct (string_dec a x) as [->|Hne].
  - rewrite JsMapFacts.get_set_eq. congruence.
  - rewrite JsMapFacts.get_set_neq by assumption. apply Hm.
Qed.

Lemma noEmptySet_delete m x : noEmptySet m -> noEmptySet (JsMap.delete x m).
Proof.
  intros Hm a. destruct (string_dec a x) as [->|Hne].
  - rewrite JsMapFacts.get_delete_eq. discriminate.
  - rewrite JsMapFacts.get_delete_neq by assumption. apply Hm.
Qed.

(** One turn of the loop of [delete] takes [key] out of the set of [tag]
    and touches no other membership. *)
Lemma memberOf_untag key m tag t k :
  memberOf (untag key m tag) t k
  = if String.eqb t tag && String.eqb k key then false else memberOf m t k.
Proof.
  unfold untag. destruct (JsMap.get tag m) as [ks|] eqn:E.
  - destruct (JsSet.size (JsSet.delete key ks) =? 0) eqn:Z0.
    + apply size_zero in Z0. rewrite memberOf_delete.
      destruct (String.eqb_spec t tag) as [->|Hne]; simpl; auto.
      destruct (String.eqb_spec k key) as [->|Hk]; auto.
      unfold memberOf. rewrite E. symmetry. eapply set_delete_nil; eauto.
    + rewrite memberOf_set.
      destruct (String.eqb_spec t tag) as [->|Hne]; simpl; auto.
      rewrite has_set_delete. unfold memberOf. rewrite E.
      destruct (String.eqb k key); reflexivity.
  - destruct (String.eqb_spec t tag) as [->|Hne]; simpl; auto.
    unfold memberOf. rewrite E. destruct (String.eqb k key); reflexivity.
Qed.

Lemma noEmptySet_untag key m tag : noEmptySet m -> noEmptySet (untag key m tag).
Proof.
  intros Hm. unfold untag. destruct (JsMap.get tag m) as [ks|] eqn:E; auto.
  destruct (JsSet.size (JsSet.delete key ks) =? 0) eqn:Z0.
  - now apply noEmptySet_delete.
  - apply noEmptySet_set; auto. intros H. apply size_zero in H. congruence.
Qed.

Lemma memberOf_fold_untag key tags m t k :
  memberOf (fold_left (untag key) tags m) t k
  = if JsSet.has t tags && String.eqb k key then false else memberOf m t k.
Proof.
  revert m. induction tags as [|a r IH]; intros m; simpl; auto.
  rewrite IH, memberOf_untag. unfold JsSet.has.
  destruct (String.eqb t a), (existsb (String.eqb t) r), (String.eqb k key);
    reflexivity.
Qed.

Lemma noEmptySet_fold_untag key tags m :
  noEmptySet m -> noEmptySet (fold_left (untag key) tags m).
Proof.
  revert m. induction tags as [|a r IH]; intros m Hm; simpl; auto.
  apply IH. now apply noEmptySet_untag.
Qed.

Lemma inTagMap_delete key s t k :
  inTagMap (snd (delete key s)) t k
  = if inKeyTags s key t && String.eqb k key then false else inTagMap s t k.
Proof.
  unfold inTagMap, inKeyTags. rewrite delete_tagMap. unfold memberOf at 2.
  destruct (JsMap.get key (keyTags s)) as [tags|]; simpl; auto.
  apply memberOf_fold_untag.
Qed.

Lemma inKeyTags_delete key s k t :
  inKeyTags (snd (delete key s)) k t
  = if String.eqb k key then false else inKeyTags s k t.
Proof. unfold inKeyTags. rewrite delete_keyTags. apply memberOf_delete. Qed.

(** [delete] keeps the tag index consistent. *)
Lemma delete_consistent key s :
  tagIndexConsistent s -> tagIndexConsistent (snd (delete key s)).
Proof.
  intros [Hc He]. split.
  - intros t k. rewrite inTagMap_delete, inKeyTags_delete, Hc.
    destruct (String.eqb_spec k key) as [->|Hne].
    + destruct (inKeyTags s key t); reflexivity.
    + now rewrite andb_false_r.
  - rewrite delete_tagMap. now apply noEmptySet_fold_untag.
Qed.

(** [evict] keeps the tag index consistent. *)
Lemma evict_consistent cfg s :
  tagIndexConsistent s -> tagIndexConsistent (evict cfg s).
Proof.
  intros H. unfold evict. destruct (customEvict cfg) as [f|].
  - destruct (f (store s) (meta s)). exact H.
  - destruct (sort (compareEntries cfg s) (store s)) as [|[k v] r]; auto.
    apply (delete_consistent k s) in H. exact H.
Qed.

Lemma inKeyTags_evict cfg s k t :
  inKeyTags (evict cfg s) k t = true -> inKeyTags s k t = true.
Proof.
  unfold evict. destruct (customEvict cfg) as [f|].
  - destruct (f (store s) (meta s)). auto.
  - destruct (sort (compareEntries cfg s) (store s)) as [|[k0 v] r]; auto.
    change (inKeyTags (snd (delete k0 s)) k t = true -> inKeyTags s k t = true).
    rewrite inKeyTags_delete. destruct (String.eqb k k0); auto. discriminate.
Qed.

(** One turn of the loop of [set] puts [key] into the set of [tag] and
    touches no other membership. *)
Lemma memberOf_tagWith key m tag t k :
  memberOf (tagWith key m tag) t k
  = if String.eqb t tag then String.eqb k key || memberOf m t k
    else memberOf m t k.
Proof.
  unfold tagWith. rewrite memberOf_set.
  destruct (String.eqb_spec t tag) as [->|Hne]; auto.
  rewrite has_set_add. unfold memberOf.
  destruct (JsMap.get tag m); reflexivity.
Qed.

Lemma memberOf_fold_tagWith key tags m t k :
  memberOf (fold_left (tagWith key) tags m) t k
  = if JsSet.has t tags then String.eqb k key || memberOf m t k
    else memberOf m t k.
Proof.
  revert m. induction tags as [|a r IH]; intros m; simpl; auto.
  rewrite IH, memberOf_tagWith. unfold JsSet.has.
  destruct (String.eqb t a), (existsb (String.eqb t) r), (String.eqb k key);
    reflexivity.
Qed.

Lemma noEmptySet_fold_tagWith key tags m :
  noEmptySet m -> noEmptySet (fold_left (tagWith key) tags m).
Proof.
  revert m. induction tags as [|a r IH]; intros m Hm; simpl; auto.
  apply IH. unfold tagWith. apply noEmptySet_set; auto. apply add_not_nil.
Qed.

(** [set] keeps the tag index consistent when every tag the key already
    has is among the tags given, in particular on a key without tags. *)
Lemma set_consistent cfg now key (v : value) o s :
  tagIndexConsistent s ->
  (forall t, inKeyTags s key t = true -> In t (opt_tags o)) ->
  tagIndexConsistent (set cfg now key v o s).
Proof.
  intros Hs Hsub.
  destruct (negb (overWrite cfg) && JsMap.has key (store s)) eqn:Hg.
  { unfold set. cbn [store with_priorityMap]. rewrite Hg. exact Hs. }
  destruct (set_fields cfg now key v o s Hg)
    as [_ [_ [_ [_ [Hkt [Htm _]]]]]].
  set (s2 := beforeInsert cfg key o s) in *.
  assert (H2 : tagIndexConsistent s2
               /\ forall t, inKeyTags s2 key t = true -> In t (opt_tags o)).
  { unfold s2, beforeInsert.
    set (s1 := with_priorityMap
                 (JsMap.set key (dflt 0 (opt_priority o)) (priorityMap s)) s).
    assert (H1 : tagIndexConsistent s1) by exact Hs.
    assert (Hsub1 : forall t, inKeyTags s1 key t = true -> In t (opt_tags o))
      by exact Hsub.
    cbv zeta.
    destruct ((limit cfg <=? JsMap.size (store s1))
              && negb (JsMap.has key (store s1))).
    - split; [now apply evict_consistent|].
      intros t Ht. apply inKeyTags_evict in Ht. now apply Hsub1.
    - split; assumption. }
  destruct H2 as [[Hc He] Hsub2]. split.
  - intros t k. unfold inTagMap, inKeyTags. rewrite Hkt, Htm.
    rewrite memberOf_fold_tagWith, memberOf_set.
    fold (inTagMap s2 t k). fold (inKeyTags s2 k t). rewrite Hc.
    destruct (String.eqb_spec k key) as [->|Hne]; simpl.
    + destruct (JsSet.has t (JsSet.of_list (opt_tags o))) eqn:Ht; auto.
      destruct (inKeyTags s2 key t) eqn:Hk; auto.
      apply Hsub2, JsSetFacts.in_of_list, JsSetFacts.has_true_in in Hk.
      congruence.
    + destruct (JsSet.has t (JsSet.of_list (opt_tags o))); reflexivity.
  - rewrite Htm. now apply noEmptySet_fold_tagWith.
Qed.

Lemma deleteByTag_state tag s keys :
  JsMap.get tag (tagMap s) = Some keys ->
  snd (deleteByTag tag s)
  = (fun t => with_tagMap (JsMap.delete tag (tagMap t)) t)
      (fold_left (fun t k => snd (delete k t)) keys s).
Proof.
  intros E. unfold deleteByTag. rewrite E.
  assert (H : forall l n t,
             snd (fold_left
                    (fun (acc : Z * @Cache value) (key : string) =>
                       let (existed, s0) := delete key (snd acc) in
                       (if existed then fst acc + 1 else fst acc, s0))
                    l (n, t))
             = fold_left (fun t k => snd (delete k t)) l t).
  { induction l as [|k r IH]; intros n t; cbn [fold_left]; auto.
    cbn [snd fst]. destruct (delete k t) as [b t1] eqn:Ed. cbn [snd].
    apply IH. }
  specialize (H keys 0 s).
  destruct (fold_left _ keys (0, s)) as [n t]. cbn [snd] in *. now rewrite H.
Qed.

Lemma fold_delete_consistent tag keys s :
  tagIndexConsistent s ->
  (forall k, inTagMap s tag k = true -> In k keys) ->
  let s' := fold_left (fun t k => snd (delete k t)) keys s in
  tagIndexConsistent s' /\ forall k, inTagMap s' tag k = false.
Proof.
  revert s. induction keys as [|k0 r IH]; intros s Hs Hin; cbn [fold_left].
  - split; auto. intros k. destruct (inTagMap s tag k) eqn:E; auto.
    destruct (Hin k E).
  - apply IH; [now apply delete_consistent|].
    intros k. rewrite inTagMap_delete.
    destruct (inKeyTags s k0 tag && String.eqb k k0) eqn:C; [discriminate|].
    intros Hk. destruct (Hin k Hk) as [<-|Hr]; auto.
    destruct Hs as [Hc _]. rewrite Hc in Hk.
    rewrite Hk, String.eqb_refl in C. discriminate.
Qed.

(** [deleteByTag] keeps the tag index consistent. *)
Lemma deleteByTag_consistent tag s :
  tagIndexConsistent s -> tagIndexConsistent (snd (deleteByTag tag s)).
Proof.
  intros Hs. destruct (JsMap.get tag (tagMap s)) as [keys|] eqn:E.
  - rewrite (deleteByTag_state tag s keys E).
    destruct (fold_delete_consistent tag keys s Hs) as [[Hc He] Hn].
    { intros k Hk. unfold inTagMap, memberOf in Hk. rewrite E in Hk.
      now apply JsSetFacts.has_true_in. }
    split.
    + intros t k. unfold inTagMap, inKeyTags in *.
      cbn [tagMap keyTags with_tagMap]. rewrite memberOf_delete, <- Hc.
      destruct (String.eqb_spec t tag) as [->|Hne]; auto.
    + cbn [tagMap with_tagMap]. now apply noEmptySet_delete.
  - unfold deleteByTag. rewrite E. exact Hs.
Qed.

Lemma has_map_set {B : Type} (x a : string) (y : B) (m : JsMap.t B) :
  JsMap.has a (JsMap.set x y m) = String.eqb a x || JsMap.has a m.
Proof.
  unfold JsMap.has. destruct (String.eqb_spec a x) as [->|Hne]; simpl.
  - now rewrite JsMapFacts.get_set_eq.
  - now rewrite JsMapFacts.get_set_neq.
Qed.

Lemma memberOf_absent m t k : JsMap.has t m = false -> memberOf m t k = false.
Proof.
  unfold JsMap.has, memberOf. destruct (JsMap.get t m); auto. discriminate.
Qed.

(** One turn of the loop of [rename] swaps the old key for the new one in
    the set of [tag], when [tagMap] has that tag. *)
Lemma memberOf_retag oldKey newKey m tag t k :
  memberOf (retag oldKey newKey m tag) t k
  = if String.eqb t tag && JsMap.has t m
    then negb (String.eqb k oldKey)
         && (String.eqb k newKey || memberOf m t k)
    else memberOf m t k.
Proof.
  unfold retag. destruct (String.eqb_spec t tag) as [->|Hne]; simpl.
  - unfold JsMap.has. destruct (JsMap.get tag m) as [ks|] eqn:E.
    + rewrite JsMapFacts.get_set_eq, memberOf_set, String.eqb_refl.
      rewrite has_set_delete, has_set_add. unfold memberOf. now rewrite E.
    + rewrite E. reflexivity.
  - destruct (JsMap.get tag m) as [ks|] eqn:E.
    + rewrite JsMapFacts.get_set_eq, !memberOf_set.
      apply String.eqb_neq in Hne. now rewrite Hne.
    + rewrite E. reflexivity.
Qed.

Lemma has_retag oldKey newKey m tag t :
  JsMap.has t (retag oldKey newKey m tag) = JsMap.has t m.
Proof.
  unfold retag. destruct (JsMap.get tag m) as [ks|] eqn:E.
  - rewrite JsMapFacts.get_set_eq, !has_map_set.
    destruct (String.eqb_spec t tag) as [->|Hne]; simpl; auto.
    unfold JsMap.has. now rewrite E.
  - rewrite E. reflexivity.
Qed.

Lemma noEmptySet_retag oldKey newKey m tag :
  newKey <> oldKey -> noEmptySet m -> noEmptySet (retag oldKey newKey m tag).
Proof.
  intros Hne Hm. unfold retag. destruct (JsMap.get tag m) as [ks|] eqn:E.
  - rewrite JsMapFacts.get_set_eq. apply noEmptySet_set.
    + apply noEmptySet_set; auto. apply add_not_nil.
    + intros H.
      pose proof (has_set_delete newKey oldKey (JsSet.add newKey ks)) as C.
      rewrite H, has_set_add, String.eqb_refl in C.
      apply String.eqb_neq in Hne. rewrite Hne in C. discriminate.
  - rewrite E. exact Hm.
Qed.

Lemma memberOf_fold_retag oldKey newKey tags m t k :
  memberOf (fold_left (retag oldKey newKey) tags m) t k
  = if JsSet.has t tags && JsMap.has t m
    then negb (String.eqb k oldKey)
         && (String.eqb k newKey || memberOf m t k)
    else memberOf m t k.
Proof.
  revert m. induction tags as [|a r IH]; intros m; simpl; auto.
  rewrite IH, has_retag, memberOf_retag. unfold JsSet.has.
  destruct (String.eqb t a), (existsb (String.eqb t) r), (JsMap.has t m),
    (String.eqb k oldKey), (String.eqb k newKey), (memberOf m t k);
    reflexivity.
Qed.

Lemma noEmptySet_fold_retag oldKey newKey tags m :
  newKey <> oldKey -> noEmptySet m ->
  noEmptySet (fold_left (retag oldKey newKey) tags m).
Proof.
  intros Hne. revert m. induction tags as [|a r IH]; intros m Hm; simpl; auto.
  apply IH. now apply noEmptySet_retag.
Qed.

Lemma has_of_list (t : string) (l : list string) :
  JsSet.has t (JsSet.of_list l) = JsSet.has t l.
Proof.
  destruct (JsSet.has t l) eqn:E.
  - now apply JsSetFacts.has_true_in, JsSetFacts.in_of_list,
      JsSetFacts.has_true_in.
  - apply JsSetFacts.has_false_in. rewrite JsSetFacts.in_of_list.
    now apply JsSetFacts.has_false_in.
Qed.

Lemma memberOf_has m t k : memberOf m t k = true -> JsMap.has t m = true.
Proof.
  unfold memberOf, JsMap.has. destruct (JsMap.get t m); auto.
Qed.

(** [set] on a present key that drops one of the key's tags leaves the key
    in the key set of that tag: the index is no longer consistent. *)
Lemma set_dropping_tag_inconsistent cfg now key (v : value) o s t :
  tagIndexConsistent s ->
  overWrite cfg = true ->
  JsMap.has key (store s) = true ->
  inKeyTags s key t = true ->
  ~ In t (opt_tags o) ->
  let s' := set cfg now key v o s in
  inTagMap s' t key = true /\ inKeyTags s' key t = false
  /\ ~ tagIndexConsistent s'.
Proof.
  intros [Hc _] Hov Hin Ht Hnot s'.
  destruct (set_fields cfg now key v o s) as [_ [_ [_ [_ [Hkt [Htm _]]]]]].
  { now rewrite Hov. }
  assert (Hb : beforeInsert cfg key o s
               = with_priorityMap
                   (JsMap.set key (dflt 0 (opt_priority o)) (priorityMap s)) s).
  { unfold beforeInsert. cbn [store with_priorityMap]. rewrite Hin.
    now rewrite andb_false_r. }
  rewrite Hb in Hkt, Htm. cbn [keyTags tagMap with_priorityMap] in Hkt, Htm.
  assert (Hd : JsSet.has t (JsSet.of_list (opt_tags o)) = false).
  { rewrite has_of_list. now apply JsSetFacts.has_false_in. }
  assert (H1 : inTagMap s' t key = true).
  { unfold inTagMap. fold s' in Htm. rewrite Htm, memberOf_fold_tagWith, Hd.
    fold (inTagMap s t key). now rewrite Hc. }
  assert (H2 : inKeyTags s' key t = false).
  { unfold inKeyTags. fold s' in Hkt.
    now rewrite Hkt, memberOf_set, String.eqb_refl. }
  split; [exact H1|]. split; [exact H2|].
  intros [Hc' _]. specialize (Hc' t key). congruence.
Qed.

(** [rename] keeps the tag index consistent when its [set] does not evict
    (the store is below the limit) and the new key has no tags of its
    own. *)
Lemma rename_consistent cfg now oldKey newKey s :
  tagIndexConsistent s ->
  JsMap.size (store s) < limit cfg ->
  (forall t, inKeyTags s newKey t = false) ->
  tagIndexConsistent (snd (rename cfg now oldKey newKey s)).
Proof.
  intros Hs Hroom Hfresh. unfold rename.
  destruct (JsMap.get oldKey (store s)) as [v|] eqn:Hold; [|exact Hs].
  destruct (JsMap.has newKey (store s)) eqn:Hnew; [exact Hs|].
  assert (Hne : newKey <> oldKey).
  { intros ->. unfold JsMap.has in Hnew. rewrite Hold in Hnew. discriminate. }
  destruct (set_fields cfg now newKey v noOptions s)
    as [_ [_ [_ [_ [Hkt [Htm _]]]]]].
  { rewrite Hnew. apply andb_false_r. }
  assert (Hb : beforeInsert cfg newKey noOptions s
               = with_priorityMap (JsMap.set newKey 0 (priorityMap s)) s).
  { unfold beforeInsert. cbn [store with_priorityMap opt_priority noOptions dflt].
    apply Z.leb_gt in Hroom. now rewrite Hroom. }
  rewrite Hb in Hkt, Htm. cbn in Hkt, Htm.
  set (s1 := set cfg now newKey v noOptions s) in *.
  cbn [snd].
  set (s2 := if truthy (JsMap.get oldKey (ttlMap s)) then _ else _).
  assert (Hkt2 : keyTags s2 = JsMap.set newKey [] (keyTags s)).
  { unfold s2. destruct (truthy (JsMap.get oldKey (ttlMap s)));
      destruct (truthy (JsMap.get oldKey (meta s))); exact Hkt. }
  assert (Htm2 : tagMap s2 = tagMap s).
  { unfold s2. destruct (truthy (JsMap.get oldKey (ttlMap s)));
      destruct (truthy (JsMap.get oldKey (meta s))); exact Htm. }
  clearbody s2. clear Hkt Htm.
  destruct Hs as [Hc He].
  assert (C2 : tagIndexConsistent s2).
  { split.
    - intros t k. unfold inTagMap, inKeyTags. rewrite Hkt2, Htm2, memberOf_set.
      fold (inTagMap s t k). rewrite Hc.
      destruct (String.eqb_spec k newKey) as [->|Hk]; auto.
    - now rewrite Htm2. }
  destruct (JsMap.get oldKey (keyTags s)) as [tags|] eqn:Ht;
    [|now apply delete_consistent].
  set (s3 := with_tagMap _ (with_keyTags _ s2)).
  assert (Hto : forall t, inKeyTags s oldKey t = JsSet.has t tags).
  { intros t. unfold inKeyTags, memberOf. now rewrite Ht. }
  assert (Hk3 : forall k t,
             inKeyTags s3 k t
             = if String.eqb k newKey then JsSet.has t tags
               else inKeyTags s k t).
  { intros k t. unfold inKeyTags, s3. cbn [keyTags with_tagMap with_keyTags].
    rewrite Hkt2, !memberOf_set, has_of_list.
    destruct (String.eqb k newKey); reflexivity. }
  assert (Ht3 : forall t k,
             inTagMap s3 t k
             = if JsSet.has t tags
               then negb (String.eqb k oldKey)
                    && (String.eqb k newKey || inKeyTags s k t)
               else inKeyTags s k t).
  { intros t k. unfold inTagMap, s3. cbn [tagMap with_tagMap with_keyTags].
    rewrite Htm2, memberOf_fold_retag. fold (inTagMap s t k). rewrite Hc.
    destruct (JsSet.has t tags) eqn:Htt; auto.
    assert (Hh : JsMap.has t (tagMap s) = true).
    { apply memberOf_has with oldKey. fold (inTagMap s t oldKey).
      now rewrite Hc, Hto. }
    now rewrite Hh. }
  split.
  - intros t k. rewrite inTagMap_delete, inKeyTags_delete, Ht3, !Hk3.
    apply String.eqb_neq in Hne. rewrite String.eqb_sym in Hne.
    rewrite Hne, Hto.
    destruct (String.eqb_spec k oldKey) as [->|Hko].
    + rewrite Hne, Hto. destruct (JsSet.has t tags); reflexivity.
    + rewrite andb_false_r.
      destruct (String.eqb_spec k newKey) as [->|Hkn].
      * rewrite Hfresh. destruct (JsSet.has t tags); reflexivity.
      * destruct (JsSet.has t tags); reflexivity.
  - rewrite delete_tagMap. apply noEmptySet_fold_untag.
    unfold s3. cbn [tagMap with_tagMap with_keyTags]. rewrite Htm2.
    now apply noEmptySet_fold_retag.
Qed.

(** After such a [rename] the new key is listed under exactly the tags the
    old key had. *)
Lemma rename_tagged cfg now oldKey newKey s (v : value) :
  tagIndexConsistent s ->
  JsMap.size (store s) < limit cfg ->
  (forall t, inKeyTags s newKey t = false) ->
  JsMap.get oldKey (store s) = Some v ->
  JsMap.has newKey (store s) = false ->
  forall t,
    inTagMap (snd (rename cfg now oldKey newKey s)) t newKey
    = inKeyTags s oldKey t.
Proof.
  intros Hs Hroom Hfresh Hold Hnew t.
  destruct (rename_consistent cfg now oldKey newKey s Hs Hroom Hfresh)
    as [Hc _].
  rewrite Hc.
  assert (Hne : newKey <> oldKey).
  { intros ->. unfold JsMap.has in Hnew. rewrite Hold in Hnew. discriminate. }
  destruct (rename_fields cfg now oldKey newKey s v Hold Hnew)
    as [_ [_ [_ [_ [_ Hkt]]]]].
  destruct (set_fields cfg now newKey v noOptions s)
    as [_ [_ [_ [_ [Skt _]]]]].
  { rewrite Hnew. apply andb_false_r. }
  unfold inKeyTags, memberOf.
  rewrite Hkt, JsMapFacts.get_delete_neq by assumption.
  destruct (JsMap.get oldKey (keyTags s)) as [tags|].
  - rewrite JsMapFacts.get_set_eq. apply has_of_list.
  - rewrite Skt, JsMapFacts.get_set_eq. reflexivity.
Qed.

End TagIndex.

Lemma taggedX_consistent : tagIndexConsistent Samples.taggedX.
Proof.
  split.
  - intros tag key. unfold inTagMap, inKeyTags, memberOf, JsSet.has. cbn.
    destruct (String.eqb tag "x") eqn:Et, (String.eqb key "a") eqn:Ek;
      cbn; rewrite ?Et, ?Ek; reflexivity.
  - intros tag. cbn. destruct (String.eqb tag "x"); discriminate.
Qed.

(** C1, at the failing inputs.  [set("a", 1, {tags: ["x"]})] leaves a
    consistent index; [set] of the same key with [{tags: ["y"]}] replaces
    the key's tag set and leaves the key in the key set of ["x"], so the
    two directions disagree.  On a cache of limit 1 that holds ["a"] with
    the tag ["x"], [rename("a", "b")] evicts the old key, with it the tag,
    and hands the new key a tag that [tagMap] no longer has. *)
Theorem set_overwrite_breaks_tag_index :
  tagIndexConsistent Samples.taggedX
  /\ Samples.retaggedY
     = set Samples.lru 11 "a"%string 1 (Samples.tagged ["y"%string])
           Samples.taggedX
  /\ inTagMap Samples.retaggedY "x" "a" = true
  /\ inKeyTags Samples.retaggedY "a" "x" = false
  /\ ~ tagIndexConsistent Samples.retaggedY
  /\ tagIndexConsistent Samples.fullTagged
  /\ inKeyTags Samples.fullRenamed "b" "x" = true
  /\ inTagMap Samples.fullRenamed "x" "b" = false
  /\ ~ tagIndexConsistent Samples.fullRenamed.
Proof.
  split; [exact taggedX_consistent|].
  split; [reflexivity|]. split; [reflexivity|]. split; [reflexivity|].
  split.
  { intros [H _]. specialize (H "x"%string "a"%string). discriminate. }
  split; [exact taggedX_consistent|].
  split; [reflexivity|]. split; [reflexivity|].
  intros [H _]. specialize (H "x"%string "b"%string). discriminate.
Qed.

(** * Further properties of the engine *)

(** ** Writing and reading an entry *)

Section ReadWrite.

Context {value : Type}.
Variable cloneValue : value -> value.
Implicit Types (s : @Cache value) (cfg : @Config value).

Lemma evict_hits_misses cfg s :
  hits (evict cfg s) = hits s /\ misses (evict cfg s) = misses s.
Proof.
  unfold evict. destruct (customEvict cfg) as [f|].
  - destruct (f (store s) (meta s)). split; reflexivity.
  - destruct (sort (compareEntries cfg s) (store s)) as [|[k v] r]; auto.
    cbn [hits misses with_evictions].
    destruct (delete_counters k s) as [H1 [H2 _]]. auto.
Qed.

Lemma beforeInsert_hits_misses cfg key o s :
  hits (beforeInsert cfg key o s) = hits s
  /\ misses (beforeInsert cfg key o s) = misses s.
Proof.
  unfold beforeInsert. cbv zeta.
  match goal with |- context [if ?c then _ else _] => destruct c end.
  - apply (evict_hits_misses cfg
             (with_priorityMap
                (JsMap.set key (dflt 0 (opt_priority o)) (priorityMap s)) s)).
  - split; reflexivity.
Qed.

Lemma insertion_guard cfg key s :
  overWrite cfg = true \/ JsMap.has key (store s) = false ->
  negb (overWrite cfg) && JsMap.has key (store s) = false.
Proof. intros [H|H]; rewrite H; auto. apply andb_false_r. Qed.

(** What the [set] that inserts leaves under the key. *)
Lemma set_entry cfg now key (v : value) o s :
  overWrite cfg = true \/ JsMap.has key (store s) = false ->
  JsMap.get key (store (set cfg now key v o s)) = Some v
  /\ JsMap.get key (meta (set cfg now key v o s)) = Some now
  /\ JsMap.get key (ttlMap (set cfg now key v o s)) = deadlineOf cfg now o.
Proof.
  intros Hg. apply insertion_guard in Hg.
  destruct (set_fields cfg now key v o s Hg) as [Hst [Hme [Htt _]]].
  rewrite Hst, Hme, Htt. repeat split; try apply JsMapFacts.get_set_eq.
  destruct (deadlineOf cfg now o).
  - apply JsMapFacts.get_set_eq.
  - apply JsMapFacts.get_delete_eq.
Qed.

Lemma not_expired_before (now' : Z) (deadline : option Z) :
  (forall d, deadline = Some d -> now' <= d) -> expired now' deadline = false.
Proof.
  intros H. unfold expired. destruct deadline as [d|]; simpl; auto.
  specialize (H d eq_refl). apply Z.ltb_ge in H. rewrite H.
  apply andb_false_r.
Qed.

Lemma get_hit cfg now key s (v : value) :
  JsMap.get key (store s) = Some v ->
  expired now (JsMap.get key (ttlMap s)) = false ->
  get cloneValue cfg now key s
  = (Some (if cloneOnGet cfg then cloneValue v else v),
     with_hits (hits s + 1)
       (if updateOnGet cfg
        then with_meta (JsMap.set key now (meta s)) s else s)).
Proof.
  intros Hs He. unfold get. rewrite Hs, He.
  destruct (updateOnGet cfg); reflexivity.
Qed.

End ReadWrite.

(** X1.  A [set] that inserts (overwriting is allowed, or the key is new)
    followed by a [get] of the key no later than the deadline the [set]
    gave it returns the value written (its copy under [cloneOnGet]), counts
    one hit and no miss, and leaves the value in the store. *)
Theorem set_then_get {value : Type} (cloneValue : value -> value)
        (cfg : @Config value) (now now' : Z) (key : string) (v : value)
        (o : SetOptions) (s : Cache) :
  overWrite cfg = true \/ JsMap.has key (store s) = false ->
  (forall d, deadlineOf cfg now o = Some d -> now' <= d) ->
  let r := get cloneValue cfg now' key (set cfg now key v o s) in
  fst r = Some (if cloneOnGet cfg then cloneValue v else v)
  /\ JsMap.get key (store (snd r)) = Some v
  /\ hits (snd r) = hits s + 1
  /\ misses (snd r) = misses s.
Proof.
  intros Hg Hd r.
  destruct (set_entry cfg now key v o s Hg) as [Hst [_ Htt]].
  assert (He : expired now' (JsMap.get key (ttlMap (set cfg now key v o s)))
               = false).
  { rewrite Htt. now apply not_expired_before. }
  unfold r. rewrite (get_hit cloneValue cfg now' key _ v Hst He).
  cbn [fst snd].
  destruct (set_fields cfg now key v o s (insertion_guard cfg key s Hg))
    as [_ [_ [_ [_ [_ [_ [Hh [Hm _]]]]]]]].
  destruct (beforeInsert_hits_misses cfg key o s) as [Bh Bm].
  split; [reflexivity|]. split.
  - destruct (updateOnGet cfg); exact Hst.
  - destruct (updateOnGet cfg); cbn [hits misses with_hits with_meta];
      rewrite ?Hh, ?Hm, ?Bh, ?Bm; auto.
Qed.

Lemma set_then_get_witness :
  fst (get (fun v => v) Samples.lru 1050 "a"%string
         (set Samples.lru 1000 "a"%string 1
              (mkSetOptions (Some 50) None []) emptyCache))
  = Some 1.
Proof.
  destruct (set_then_get (fun v => v) Samples.lru 1000 1050 "a"%string 1
              (mkSetOptions (Some 50) None []) emptyCache) as [H _].
  - now left.
  - intros d E. vm_compute in E. injection E as <-. discriminate.
  - exact H.
Defined.

Lemma ttlExpire_of_deadline {value : Type} (now : Z) (key : string)
      (s : @Cache value) :
  JsMap.has key (store s) = true ->
  ttlExpire now key s
  = match JsMap.get key (ttlMap s) with
    | Some d => if (d =? 0) || negb (now <? d) then -1 else d - now
    | None => -1
    end.
Proof.
  intros Hs. unfold ttlExpire. rewrite Hs. cbn [negb orb].
  destruct (JsMap.get key (ttlMap s)) as [d|]; simpl; auto.
  destruct (d =? 0); simpl; auto. destruct (now <? d); reflexivity.
Qed.

Lemma has_after_set {value : Type} (cfg : @Config value) now key (v : value)
      o s :
  overWrite cfg = true \/ JsMap.has key (store s) = false ->
  JsMap.has key (store (set cfg now key v o s)) = true.
Proof.
  intros Hg. destruct (set_entry cfg now key v o s Hg) as [H _].
  unfold JsMap.has. now rewrite H.
Qed.

(** X2.  After a [set] that inserts at a time [now >= 0], [ttlExpire]
    reads the deadline the [set] computed: with a positive [ttl] option the
    time left is [now + ttl - now'] whatever the [ttl] of the cache; with
    no [ttl] option (or 0) the [ttl] of the cache is used in the same way;
    a negative [ttl] option, or no [ttl] at all, leaves the key without
    deadline and the answer is -1, also when the key had a deadline
    before. *)
Theorem set_then_ttlExpire {value : Type} (cfg : @Config value)
        (now now' : Z) (key : string) (v : value) (o : SetOptions)
        (s : Cache) :
  overWrite cfg = true \/ JsMap.has key (store s) = false ->
  0 <= now ->
  let s' := set cfg now key v o s in
  (forall t, opt_ttl o = Some t -> 0 < t -> now' < now + t ->
             ttlExpire now' key s' = now + t - now')
  /\ (forall t, truthy (opt_ttl o) = false -> ttl cfg = Some t -> 0 < t ->
                now' < now + t -> ttlExpire now' key s' = now + t - now')
  /\ (forall t, opt_ttl o = Some t -> t < 0 ->
                JsMap.get key (ttlMap s') = None
                /\ ttlExpire now' key s' = -1)
  /\ (truthy (opt_ttl o) = false -> ttl cfg = None ->
      JsMap.get key (ttlMap s') = None /\ ttlExpire now' key s' = -1).
Proof.
  intros Hg Hnow s'.
  destruct (set_entry cfg now key v o s Hg) as [_ [_ Htt]].
  pose proof (ttlExpire_of_deadline now' key s'
                (has_after_set cfg now key v o s Hg)) as Ht.
  fold s' in Htt. rewrite Htt in Ht. rewrite Ht, Htt. unfold deadlineOf.
  assert (Hpos : forall t, 0 < t -> now' < now + t ->
            (if (now + t =? 0) || negb (now' <? now + t)
             then -1 else now + t - now') = now + t - now').
  { intros t H1 H2. assert (E : (now + t =? 0) = false) by (apply Z.eqb_neq; lia).
    apply Z.ltb_lt in H2. now rewrite E, H2. }
  split; [|split; [|split]].
  - intros t Ho Hp Hlt. rewrite Ho.
    assert (E : truthy (Some t) = true).
    { simpl. assert ((t =? 0) = false) by (apply Z.eqb_neq; lia).
      now rewrite H. }
    rewrite E. apply Z.ltb_lt in Hp. rewrite Hp. now apply Hpos; lia.
  - intros t Ho Hc Hp Hlt. rewrite Ho, Hc.
    pose proof Hp as Hp'. apply Z.ltb_lt in Hp'. rewrite Hp'.
    now apply Hpos.
  - intros t Ho Hneg. rewrite Ho.
    assert (E : truthy (Some t) = true).
    { simpl. assert ((t =? 0) = false) by (apply Z.eqb_neq; lia).
      now rewrite H. }
    rewrite E. assert (E2 : (0 <? t) = false) by (apply Z.ltb_ge; lia).
    rewrite E2. split; reflexivity.
  - intros Ho Hc. rewrite Ho, Hc. split; reflexivity.
Qed.

Lemma set_then_ttlExpire_witness :
  ttlExpire 1020 "a" Samples.withDeadline = 30.
Proof.
  destruct (set_then_ttlExpire Samples.lru 1000 1020 "a"%string 1
              (mkSetOptions (Some 50) None []) emptyCache) as [H _].
  - now left.
  - discriminate.
  - exact (H 50 eq_refl eq_refl eq_refl).
Defined.

(** X3.  A [get] of a key whose deadline is behind the clock answers
    [undefined], deletes the entry from the store and from the recency,
    deadline, priority and key-to-tags maps, and counts one miss: no hit
    and no eviction. *)
Theorem get_expired_deletes {value : Type} (cloneValue : value -> value)
        (cfg : @Config value) (now : Z) (key : string) (d : Z) (s : Cache) :
  JsMap.has key (store s) = true ->
  JsMap.get key (ttlMap s) = Some d ->
  d <> 0 ->
  d < now ->
  let r := get cloneValue cfg now key s in
  fst r = None
  /\ snd r = with_misses (misses s + 1) (snd (delete key s))
  /\ JsMap.get key (store (snd r)) = None
  /\ JsMap.get key (meta (snd r)) = None
  /\ JsMap.get key (ttlMap (snd r)) = None
  /\ JsMap.get key (priorityMap (snd r)) = None
  /\ JsMap.get key (keyTags (snd r)) = None
  /\ hits (snd r) = hits s
  /\ misses (snd r) = misses s + 1
  /\ evictions (snd r) = evictions s.
Proof.
  intros Hs Hd Hnz Hlt r.
  assert (He : expired now (JsMap.get key (ttlMap s)) = true).
  { unfold expired. rewrite Hd. simpl. apply Z.eqb_neq in Hnz.
    apply Z.ltb_lt in Hlt. now rewrite Hnz, Hlt. }
  assert (Hr : r = (None, with_misses (misses s + 1) (snd (delete key s)))).
  { unfold r, get. unfold JsMap.has in Hs.
    destruct (JsMap.get key (store s)); [|discriminate].
    rewrite He. destruct (delete_counters key s) as [_ [Hm _]].
    cbv zeta. now rewrite Hm. }
  rewrite Hr. cbn [fst snd store meta ttlMap priorityMap keyTags hits misses
                   evictions with_misses].
  rewrite delete_store, delete_meta, delete_ttlMap, delete_priorityMap,
    delete_keyTags.
  destruct (delete_counters key s) as [Hh [_ Hev]].
  repeat (split; [first [reflexivity | apply JsMapFacts.get_delete_eq
                        | assumption]|]).
  assumption.
Qed.

Lemma get_expired_deletes_witness :
  fst (get (fun v => v) Samples.lru 1060 "a"%string Samples.withDeadline)
  = None
  /\ misses (snd (get (fun v => v) Samples.lru 1060 "a"%string
                      Samples.withDeadline)) = 1.
Proof.
  destruct (get_expired_deletes (fun v => v) Samples.lru 1060 "a"%string 1050
              Samples.withDeadline eq_refl eq_refl)
    as [H1 [_ [_ [_ [_ [_ [_ [_ [H2 _]]]]]]]]];
    [discriminate | reflexivity |].
  split; [exact H1 | exact H2].
Defined.

Section Liveness.

Context {value : Type}.
Variable cloneValue : value -> value.
Implicit Types (s : @Cache value) (cfg : @Config value).

(** The entry is in the store and its deadline, if any, is not behind. *)
Lemma has_true_iff cfg now key s :
  fst (has cfg now key s) = true
  <-> JsMap.has key (store s) = true
      /\ expired now (JsMap.get key (ttlMap s)) = false.
Proof.
  unfold has.
  destruct (JsMap.has key (store s)); cbn [negb orb].
  - destruct (expired now (JsMap.get key (ttlMap s))); cbn [fst];
      intuition congruence.
  - cbn [fst]. intuition congruence.
Qed.

Lemma get_some_iff cfg now key s :
  fst (get cloneValue cfg now key s) <> None
  <-> JsMap.has key (store s) = true
      /\ expired now (JsMap.get key (ttlMap s)) = false.
Proof.
  unfold get, JsMap.has.
  destruct (JsMap.get key (store s)) as [v|].
  - destruct (expired now (JsMap.get key (ttlMap s))); cbn [fst];
      intuition congruence.
  - cbn [fst]. intuition congruence.
Qed.

Lemma has_store cfg now key s :
  store (snd (has cfg now key s))
  = store (snd (get cloneValue cfg now key s)).
Proof.
  unfold has, get, JsMap.has.
  destruct (JsMap.get key (store s)) as [v|] eqn:Hs; cbn [negb orb].
  - destruct (expired now (JsMap.get key (ttlMap s))); cbn [snd].
    + cbn [store with_misses]. reflexivity.
    + destruct (updateOnHas cfg), (updateOnGet cfg); reflexivity.
  - cbn [snd]. rewrite delete_store. cbn [store with_misses].
    apply JsMapFacts.delete_absent. now apply JsMapFacts.get_none_keys.
Qed.

Lemma has_counters cfg now key s :
  hits (snd (has cfg now key s)) = hits s
  /\ misses (snd (has cfg now key s)) = misses s
  /\ evictions (snd (has cfg now key s)) = evictions s.
Proof.
  unfold has.
  destruct (negb (JsMap.has key (store s))
            || expired now (JsMap.get key (ttlMap s))); cbn [snd].
  - apply delete_counters.
  - destruct (updateOnHas cfg); repeat split; reflexivity.
Qed.

End Liveness.

(** X4.  [has] and [get] agree: at the same time [has] answers true
    exactly when [get] finds a value, and both leave the same store
    behind; [has] touches none of the three counters. *)
Theorem has_agrees_with_get {value : Type} (cloneValue : value -> value)
        (cfg : @Config value) (now : Z) (key : string) (s : Cache) :
  (fst (has cfg now key s) = true
   <-> fst (get cloneValue cfg now key s) <> None)
  /\ store (snd (has cfg now key s))
     = store (snd (get cloneValue cfg now key s))
  /\ hits (snd (has cfg now key s)) = hits s
  /\ misses (snd (has cfg now key s)) = misses s
  /\ evictions (snd (has cfg now key s)) = evictions s.
Proof.
  split.
  - rewrite has_true_iff, (get_some_iff cloneValue). tauto.
  - split; [apply has_store | apply has_counters].
Qed.

(** X5.  [ttlExpire] never answers 0 nor a negative number other than
    -1: the result is -1 or strictly positive, and a positive result means
    that [get] and [has] at that time still find the entry. *)
Theorem ttlExpire_positive_or_minus_one {value : Type}
        (cloneValue : value -> value) (cfg : @Config value) (now : Z)
        (key : string) (s : Cache) :
  (ttlExpire now key s = -1 \/ 0 < ttlExpire now key s)
  /\ (0 < ttlExpire now key s ->
      fst (get cloneValue cfg now key s) <> None
      /\ fst (has cfg now key s) = true).
Proof.
  assert (H : ttlExpire now key s = -1
              \/ (0 < ttlExpire now key s
                  /\ JsMap.has key (store s) = true
                  /\ expired now (JsMap.get key (ttlMap s)) = false)).
  { unfold ttlExpire, expired.
    destruct (JsMap.has key (store s)); cbn [negb orb]; auto.
    destruct (truthy (JsMap.get key (ttlMap s))); cbn [negb andb]; auto.
    destruct (now <? or0 (JsMap.get key (ttlMap s))) eqn:E; auto.
    right. apply Z.ltb_lt in E. split; [lia|]. split; auto.
    apply Z.ltb_ge. lia. }
  split; [tauto|]. intros Hpos.
  destruct H as [H|[_ [Hs He]]]; [lia|].
  split; [apply get_some_iff | apply has_true_iff]; auto.
Qed.

Lemma ttlExpire_positive_or_minus_one_witness :
  0 < ttlExpire 1020 "a" Samples.withDeadline
  /\ fst (has Samples.lru 1020 "a"%string Samples.withDeadline) = true.
Proof.
  destruct (ttlExpire_positive_or_minus_one (fun v => v) Samples.lru 1020
              "a"%string Samples.withDeadline) as [_ H].
  split; [reflexivity|]. apply H. reflexivity.
Defined.

(** ** delete and expire *)

Lemma delete_absent_noop {value : Type} (key : string) (s : @Cache value) :
  JsMap.get key (store s) = None ->
  JsMap.get key (meta s) = None ->
  JsMap.get key (ttlMap s) = None ->
  JsMap.get key (priorityMap s) = None ->
  JsMap.get key (keyTags s) = None ->
  delete key s = (false, s).
Proof.
  intros H1 H2 H3 H4 H5. unfold delete, JsMap.has. rewrite H1.
  cbn [keyTags with_store with_meta with_ttlMap with_priorityMap].
  rewrite H5.
  apply JsMapFacts.get_none_keys in H1, H2, H3, H4.
  destruct s as [st me tt pr tm kt h m e].
  cbn [store meta ttlMap priorityMap tagMap keyTags hits misses evictions
       with_store with_meta with_ttlMap with_priorityMap] in *.
  rewrite !JsMapFacts.delete_absent by assumption. reflexivity.
Qed.

(** X6.  [delete] answers whether the key was in the store and removes it
    from the store and from the recency, deadline, priority and
    key-to-tags maps; the entries of every other key in those maps and the
    three counters are as before, and a second [delete] of the key answers
    false and changes nothing. *)
Theorem delete_removes_key_only {value : Type} (key : string)
        (s : @Cache value) :
  let r := delete key s in
  fst r = JsMap.has key (store s)
  /\ (JsMap.get key (store (snd r)) = None
      /\ JsMap.get key (meta (snd r)) = None
      /\ JsMap.get key (ttlMap (snd r)) = None
      /\ JsMap.get key (priorityMap (snd r)) = None
      /\ JsMap.get key (keyTags (snd r)) = None)
  /\ (forall k, k <> key ->
        JsMap.get k (store (snd r)) = JsMap.get k (store s)
        /\ JsMap.get k (meta (snd r)) = JsMap.get k (meta s)
        /\ JsMap.get k (ttlMap (snd r)) = JsMap.get k (ttlMap s)
        /\ JsMap.get k (priorityMap (snd r)) = JsMap.get k (priorityMap s)
        /\ JsMap.get k (keyTags (snd r)) = JsMap.get k (keyTags s))
  /\ (hits (snd r) = hits s /\ misses (snd r) = misses s
      /\ evictions (snd r) = evictions s)
  /\ delete key (snd r) = (false, snd r).
Proof.
  intros r. unfold r.
  assert (G : JsMap.get key (store (snd (delete key s))) = None
              /\ JsMap.get key (meta (snd (delete key s))) = None
              /\ JsMap.get key (ttlMap (snd (delete key s))) = None
              /\ JsMap.get key (priorityMap (snd (delete key s))) = None
              /\ JsMap.get key (keyTags (snd (delete key s))) = None).
  { rewrite delete_store, delete_meta, delete_ttlMap, delete_priorityMap,
      delete_keyTags. repeat split; apply JsMapFacts.get_delete_eq. }
  split; [reflexivity|]. split; [exact G|]. split; [|split].
  - intros k Hk.
    rewrite delete_store, delete_meta, delete_ttlMap, delete_priorityMap,
      delete_keyTags.
    repeat split; now apply JsMapFacts.get_delete_neq.
  - apply delete_counters.
  - destruct G as [G1 [G2 [G3 [G4 G5]]]]. now apply delete_absent_noop.
Qed.

(** X7.  [expire] on a key that has a deadline, called at a time other
    than 1, answers true and rewrites the deadline to [now - 1]; the entry
    stays in the store, and from that time on [get] misses it and
    [ttlExpire] answers -1.  On a key without deadline [expire] answers
    false and changes nothing. *)
Theorem expire_then_get_misses {value : Type} (cloneValue : value -> value)
        (cfg : @Config value) (now now' : Z) (key : string) (s : Cache) :
  (JsMap.has key (ttlMap s) = false -> expire now key s = (false, s))
  /\ (JsMap.has key (ttlMap s) = true ->
      now <> 1 ->
      now <= now' ->
      let s' := snd (expire now key s) in
      fst (expire now key s) = true
      /\ JsMap.get key (ttlMap s') = Some (now - 1)
      /\ store s' = store s
      /\ fst (get cloneValue cfg now' key s') = None
      /\ ttlExpire now' key s' = -1).
Proof.
  split.
  - intros H. unfold expire. now rewrite H.
  - intros H Hne Hle s'.
    assert (E : expire now key s
                = (true, with_ttlMap (JsMap.set key (now - 1) (ttlMap s)) s)).
    { unfold expire. now rewrite H. }
    unfold s'. rewrite E. cbn [fst snd store ttlMap with_ttlMap].
    split; [reflexivity|].
    split; [apply JsMapFacts.get_set_eq|]. split; [reflexivity|].
    assert (Hex : expired now' (Some (now - 1)) = true).
    { unfold expired. simpl.
      assert (E1 : (now - 1 =? 0) = false) by (apply Z.eqb_neq; lia).
      assert (E2 : (now - 1 <? now') = true) by (apply Z.ltb_lt; lia).
      now rewrite E1, E2. }
    split.
    + unfold get. cbn [store ttlMap with_ttlMap].
      destruct (JsMap.get key (store s)); [|reflexivity].
      rewrite JsMapFacts.get_set_eq, Hex. reflexivity.
    + unfold ttlExpire. cbn [store ttlMap with_ttlMap].
      rewrite JsMapFacts.get_set_eq.
      destruct (negb (JsMap.has key (store s)) || negb (truthy (Some (now - 1))));
        auto.
      assert (E2 : (now' <? or0 (Some (now - 1))) = false)
        by (apply Z.ltb_ge; simpl; lia).
      now rewrite E2.
Qed.

Lemma expire_then_get_misses_witness :
  fst (expire 1010 "a" Samples.withDeadline) = true
  /\ fst (get (fun v => v) Samples.lru 1010 "a"%string
            (snd (expire 1010 "a" Samples.withDeadline))) = None.
Proof.
  destruct (expire_then_get_misses (fun v => v) Samples.lru 1010 1010
              "a"%string Samples.withDeadline) as [_ H].
  destruct H as [H1 [_ [_ [H2 _]]]];
    [reflexivity | discriminate | discriminate |].
  split; [exact H1 | exact H2].
Defined.

(** ** The counters *)

Section Counters.

Context {value : Type}.
Variable cloneValue : value -> value.
Implicit Types (s : @Cache value) (cfg : @Config value).

Lemma get_counts cfg now key s :
  let r := get cloneValue cfg now key s in
  match fst r with
  | Some _ => hits (snd r) = hits s + 1 /\ misses (snd r) = misses s
  | None => hits (snd r) = hits s /\ misses (snd r) = misses s + 1
  end
  /\ evictions (snd r) = evictions s.
Proof.
  unfold get. destruct (JsMap.get key (store s)) as [v|].
  - destruct (expired now (JsMap.get key (ttlMap s))); cbn [fst snd].
    + destruct (delete_counters key s) as [Dh [Dm De]].
      cbn [hits misses evictions with_misses]. rewrite Dh, Dm, De. auto.
    + destruct (updateOnGet cfg); cbn; auto.
  - cbn. auto.
Qed.

(** The reads of [getByTag] lower no counter and evict nothing. *)
Lemma getAll_counters isUndefined cfg now keys s :
  let r := getAll cloneValue isUndefined cfg now keys s in
  hits s <= hits (snd r) /\ misses s <= misses (snd r)
  /\ evictions (snd r) = evictions s.
Proof.
  revert s. induction keys as [|k rest IH]; intros s; cbn [getAll].
  - cbn. repeat split; lia.
  - pose proof (get_counts cfg now k s) as G. cbv zeta in G.
    destruct (get cloneValue cfg now k s) as [v s1]. cbn [fst snd] in G.
    specialize (IH s1). cbv zeta in IH.
    destruct (getAll cloneValue isUndefined cfg now rest s1) as [vs s2].
    cbn [fst snd] in *. destruct IH as [I1 [I2 I3]]. destruct G as [G1 G2].
    rewrite I3, G2.
    destruct v as [x|]; destruct G1 as [G1 G1']; repeat split; lia.
Qed.

End Counters.

Section Bookkeeping.

Context {value : Type}.
Variable cloneValue : value -> value.
Implicit Types (s : @Cache value) (cfg : @Config value).

Lemma evict_evictions cfg s :
  evictions s <= evictions (evict cfg s) <= evictions s + 1.
Proof.
  unfold evict. destruct (customEvict cfg) as [f|].
  - destruct (f (store s) (meta s)). cbn. lia.
  - destruct (sort (compareEntries cfg s) (store s)) as [|[k v] r]; [lia|].
    destruct (delete_counters k s) as [_ [_ He]].
    cbn [evictions with_evictions]. rewrite He. lia.
Qed.

Lemma set_counters cfg now key (v : value) o s :
  hits (set cfg now key v o s) = hits s
  /\ misses (set cfg now key v o s) = misses s
  /\ evictions s <= evictions (set cfg now key v o s) <= evictions s + 1.
Proof.
  destruct (negb (overWrite cfg) && JsMap.has key (store s)) eqn:Hg.
  - unfold set. cbn [store with_priorityMap]. rewrite Hg. cbn.
    repeat split; lia.
  - destruct (set_fields cfg now key v o s Hg)
      as [_ [_ [_ [_ [_ [_ [Hh [Hm He]]]]]]]].
    destruct (beforeInsert_hits_misses cfg key o s) as [Bh Bm].
    rewrite Hh, Hm, He, Bh, Bm. split; [reflexivity|]. split; [reflexivity|].
    unfold beforeInsert. cbv zeta.
    match goal with |- context [if ?c then _ else _] => destruct c end.
    + apply (evict_evictions cfg
               (with_priorityMap
                  (JsMap.set key (dflt 0 (opt_priority o)) (priorityMap s)) s)).
    + cbn. lia.
Qed.

(** The state after a run of [delete]s. *)
Lemma fold_delete_fields (l : list string) s :
  let s' := fold_left (fun t k => snd (delete k t)) l s in
  store s' = fold_left (fun m k => JsMap.delete k m) l (store s)
  /\ meta s' = fold_left (fun m k => JsMap.delete k m) l (meta s)
  /\ ttlMap s' = fold_left (fun m k => JsMap.delete k m) l (ttlMap s)
  /\ priorityMap s'
     = fold_left (fun m k => JsMap.delete k m) l (priorityMap s)
  /\ keyTags s' = fold_left (fun m k => JsMap.delete k m) l (keyTags s)
  /\ hits s' = hits s /\ misses s' = misses s /\ evictions s' = evictions s.
Proof.
  revert s. induction l as [|k r IH]; intros s; cbn [fold_left].
  - repeat split; reflexivity.
  - specialize (IH (snd (delete k s))). cbv zeta in IH.
    destruct IH as [I1 [I2 [I3 [I4 [I5 [I6 [I7 I8]]]]]]].
    destruct (delete_counters k s) as [Dh [Dm De]].
    rewrite I1, I2, I3, I4, I5, I6, I7, I8, delete_store, delete_meta,
      delete_ttlMap, delete_priorityMap, delete_keyTags, Dh, Dm, De.
    repeat split; reflexivity.
Qed.

Lemma get_fold_delete {A : Type} (l : list string) (m : JsMap.t A) k :
  JsMap.get k (fold_left (fun m k => JsMap.delete k m) l m)
  = if in_dec string_dec k l then None else JsMap.get k m.
Proof.
  revert m. induction l as [|a r IH]; intros m; cbn [fold_left]; auto.
  rewrite IH. destruct (in_dec string_dec k r) as [I|N];
    destruct (in_dec string_dec k (a :: r)) as [I'|N']; auto.
  - exfalso. apply N'. now right.
  - destruct I' as [->|I']; [apply JsMapFacts.get_delete_eq | contradiction].
  - apply JsMapFacts.get_delete_neq. intros ->. apply N'. now left.
Qed.

Lemma length_delete_le {A : Type} (k : string) (m : JsMap.t A) :
  (List.length (JsMap.delete k m) <= List.length m)%nat.
Proof. apply filter_length_le. Qed.

Lemma length_fold_delete_le {A : Type} (l : list string) (m : JsMap.t A) :
  (List.length (fold_left (fun m k => JsMap.delete k m) l m)
   <= List.length m)%nat.
Proof.
  revert m. induction l as [|a r IH]; intros m; cbn [fold_left]; auto.
  etransitivity; [apply IH | apply length_delete_le].
Qed.

(** [prune] is the run of [delete]s over the keys whose deadline is
    behind. *)
Lemma prune_state now s :
  snd (prune now s)
  = fold_left (fun t k => snd (delete k t)) (overdue now s) s.
Proof.
  unfold prune, overdue.
  assert (H : forall (l : list (string * Z)) (n : Z) (t : @Cache value),
             snd (fold_left
                    (fun (acc : Z * Cache) (e : string * Z) =>
                       if snd e <? now
                       then let (existed, s0) := delete (fst e) (snd acc) in
                            (if existed then fst acc + 1 else fst acc, s0)
                       else acc)
                    l (n, t))
             = fold_left (fun t k => snd (delete k t))
                 (List.map fst (List.filter (fun e => snd e <? now) l)) t).
  { induction l as [|[k d] r IH]; intros n t;
      cbn [fold_left List.filter List.map]; auto.
    cbn [snd fst]. destruct (d <? now); cbn [List.map fold_left fst].
    - destruct (delete k t) as [b t1] eqn:E. cbn [snd].
      rewrite IH. reflexivity.
    - apply IH. }
  apply H.
Qed.

Lemma rename_store_counters cfg now oldKey newKey s :
  let r := snd (rename cfg now oldKey newKey s) in
  (r = s
   \/ exists v, JsMap.has newKey (store s) = false
        /\ store r = JsMap.delete oldKey
                       (store (set cfg now newKey v noOptions s)))
  /\ hits r = hits s /\ misses r = misses s
  /\ evictions s <= evictions r <= evictions s + 1.
Proof.
  unfold rename.
  destruct (JsMap.get oldKey (store s)) as [v|] eqn:Hold;
    [|cbn; split; [now left | lia]].
  destruct (JsMap.has newKey (store s)) eqn:Hnew;
    [cbn; split; [now left | lia]|].
  cbn [snd]. split.
  - right. exists v. split; [reflexivity|]. rewrite delete_store.
    destruct (truthy (JsMap.get oldKey (meta s)));
      destruct (truthy (JsMap.get oldKey (ttlMap s)));
      destruct (JsMap.get oldKey (keyTags s)); reflexivity.
  - match goal with |- context [delete oldKey ?t] =>
      destruct (delete_counters oldKey t) as [Dh [Dm De]];
      rewrite Dh, Dm, De
    end.
    destruct (set_counters cfg now newKey v noOptions s) as [Sh [Sm Se]].
    destruct (truthy (JsMap.get oldKey (meta s)));
      destruct (truthy (JsMap.get oldKey (ttlMap s)));
      destruct (JsMap.get oldKey (keyTags s));
      cbn [hits misses evictions with_meta with_ttlMap with_tagMap
           with_keyTags]; rewrite ?Sh, ?Sm; repeat split; lia.
Qed.

End Bookkeeping.

Section Steps.

Context {value : Type}.
Variable cloneValue : value -> value.
Implicit Types (s : @Cache value) (cfg : @Config value).

Lemma deleteByTag_fields tag s :
  let s' := snd (deleteByTag tag s) in
  store s'
  = fold_left (fun m k => JsMap.delete k m)
      (dflt [] (JsMap.get tag (tagMap s))) (store s)
  /\ hits s' = hits s /\ misses s' = misses s /\ evictions s' = evictions s.
Proof.
  destruct (JsMap.get tag (tagMap s)) as [keys|] eqn:E.
  - cbv zeta. rewrite (deleteByTag_state tag s keys E).
    cbn [store hits misses evictions with_tagMap dflt].
    destruct (fold_delete_fields keys s) as [H1 [_ [_ [_ [_ [H6 [H7 H8]]]]]]].
    auto.
  - unfold deleteByTag. rewrite E. cbn. auto.
Qed.

Lemma get_store_le cfg now key s :
  (List.length (store (snd (get cloneValue cfg now key s)))
   <= List.length (store s))%nat.
Proof.
  unfold get. destruct (JsMap.get key (store s)); cbn [snd]; auto.
  destruct (expired now (JsMap.get key (ttlMap s))); cbn [snd].
  - cbn [store with_misses]. rewrite delete_store. apply length_delete_le.
  - destruct (updateOnGet cfg); cbn; auto.
Qed.

Lemma getAll_store_le isUndefined cfg now keys s :
  (List.length
     (store (snd (getAll cloneValue isUndefined cfg now keys s)))
   <= List.length (store s))%nat.
Proof.
  revert s. induction keys as [|k r IH]; intros s; cbn [getAll]; auto.
  pose proof (get_store_le cfg now k s) as G.
  destruct (get cloneValue cfg now k s) as [v s1]. cbn [snd] in G.
  specialize (IH s1).
  destruct (getAll cloneValue isUndefined cfg now r s1) as [vs s2].
  cbn [snd] in *. lia.
Qed.

(** The calls that never add an entry. *)
Lemma shrinking_steps cfg s :
  (forall now key,
      (List.length (store (snd (get cloneValue cfg now key s)))
       <= List.length (store s))%nat)
  /\ (forall isUndefined now tag,
         (List.length
            (store (snd (getByTag cloneValue isUndefined cfg now tag s)))
          <= List.length (store s))%nat)
  /\ (forall now key,
         (List.length (store (snd (has cfg now key s)))
          <= List.length (store s))%nat)
  /\ (forall key,
         (List.length (store (snd (delete key s)))
          <= List.length (store s))%nat)
  /\ (forall tag,
         (List.length (store (snd (deleteByTag tag s)))
          <= List.length (store s))%nat)
  /\ (forall now key, store (snd (expire now key s)) = store s)
  /\ (forall now,
         (List.length (store (snd (prune now s)))
          <= List.length (store s))%nat).
Proof.
  split; [intros; apply get_store_le|].
  split.
  { intros isUndefined now tag. unfold getByTag.
    destruct (JsMap.get tag (tagMap s)); auto. apply getAll_store_le. }
  split.
  { intros now key. rewrite (has_store cloneValue). apply get_store_le. }
  split; [intros key; rewrite delete_store; apply length_delete_le|].
  split.
  { intros tag. destruct (deleteByTag_fields tag s) as [H _].
    rewrite H. apply length_fold_delete_le. }
  split.
  { intros now key. unfold expire.
    destruct (negb (JsMap.has key (ttlMap s))); reflexivity. }
  intros now. rewrite prune_state.
  destruct (fold_delete_fields (overdue now s) s) as [H _].
  rewrite H. apply length_fold_delete_le.
Qed.

Lemma evict_length cfg s :
  customEvict cfg = None -> store s <> [] -> uniqueKeys (store s) ->
  S (List.length (store (evict cfg s))) = List.length (store s).
Proof.
  intros Hc Hne Hu.
  destruct (evict_victim cfg s Hc Hne) as [victim [Hin [He _]]].
  rewrite He. cbn [store with_evictions]. rewrite delete_store.
  now apply JsMapFacts.length_delete.
Qed.

Lemma length_set_present {A : Type} (k : string) (v : A) (m : JsMap.t A) :
  JsMap.has k m = true -> List.length (JsMap.set k v m) = List.length m.
Proof.
  intros H.
  pose proof (JsMapFacts.keys_set_present k v m) as E. rewrite H in E.
  unfold JsMap.keys in E. apply (f_equal (@List.length string)) in E.
  now rewrite !length_map in E.
Qed.

Lemma set_within_limit cfg now key (v : value) o s :
  customEvict cfg = None -> 0 < limit cfg -> uniqueKeys (store s) ->
  JsMap.size (store s) <= limit cfg ->
  JsMap.size (store (set cfg now key v o s)) <= limit cfg.
Proof.
  intros Hc Hpos Hu Hle.
  destruct (negb (overWrite cfg) && JsMap.has key (store s)) eqn:Hg.
  { unfold set. cbn [store with_priorityMap]. now rewrite Hg. }
  destruct (set_fields cfg now key v o s Hg) as [Hst _].
  rewrite Hst. unfold beforeInsert. cbv zeta. cbn [store with_priorityMap].
  destruct (JsMap.has key (store s)) eqn:Hk; cbn [negb].
  - rewrite andb_false_r. cbn [store with_priorityMap].
    unfold JsMap.size in *. now rewrite length_set_present.
  - rewrite andb_true_r.
    destruct (limit cfg <=? JsMap.size (store s)) eqn:Hf.
    + apply Z.leb_le in Hf.
      set (s1 := with_priorityMap _ s).
      assert (Hne : store s1 <> []).
      { apply size_positive_nonempty with (limit cfg); auto. }
      pose proof (evict_length cfg s1 Hc Hne Hu) as Hlen.
      destruct (evict_victim cfg s1 Hc Hne) as [victim [_ [He _]]].
      assert (Hk' : JsMap.has key (store (evict cfg s1)) = false).
      { rewrite He. cbn [store with_evictions]. rewrite delete_store.
        now apply has_delete_other. }
      unfold JsMap.size in *. rewrite length_set_fresh by assumption.
      change (store s1) with (store s) in Hlen. lia.
    + apply Z.leb_gt in Hf. cbn [store with_priorityMap].
      unfold JsMap.size in *. rewrite length_set_fresh by assumption. lia.
Qed.

End Steps.

(** X9.  No call of [set], [get], [getByTag], [has], [delete],
    [deleteByTag], [rename], [flush], [expire] or [prune] lowers a counter:
    hits, misses and evictions after the call are at least what they were,
    and one call adds at most one eviction. *)
Theorem counters_never_decrease {value : Type} (cloneValue : value -> value)
        (cfg : @Config value) (s s' : Cache) :
  step cloneValue cfg s s' ->
  hits s <= hits s' /\ misses s <= misses s'
  /\ evictions s <= evictions s' <= evictions s + 1.
Proof.
  intros H. destruct H.
  - destruct (set_counters cfg now key v o s) as [H1 [H2 H3]]. lia.
  - pose proof (get_counts cloneValue cfg now key s) as G. cbv zeta in G.
    destruct G as [G1 G2].
    destruct (fst (get cloneValue cfg now key s)); lia.
  - unfold getByTag. destruct (JsMap.get tag (tagMap s)) as [keys|].
    + destruct (getAll_counters cloneValue isUndefined cfg now keys s)
        as [G1 [G2 G3]]. lia.
    + cbn. lia.
  - destruct (has_counters cfg now key s) as [H1 [H2 H3]]. lia.
  - destruct (delete_counters key s) as [H1 [H2 H3]]. lia.
  - destruct (deleteByTag_fields tag s) as [_ [H1 [H2 H3]]]. lia.
  - destruct (rename_store_counters cfg now oldKey newKey s)
      as [_ [H1 [H2 H3]]]. lia.
  - cbn. lia.
  - unfold expire. destruct (negb (JsMap.has key (ttlMap s))); cbn; lia.
  - rewrite prune_state.
    destruct (fold_delete_fields (overdue now s) s)
      as [_ [_ [_ [_ [_ [H1 [H2 H3]]]]]]]. lia.
Qed.

Lemma counters_never_decrease_witness :
  evictions Samples.afterThirdSet = 1
  /\ evictions Samples.afterThirdSet
     <= evictions (set Samples.refreshing 5 "d"%string 4 noOptions
                       Samples.afterThirdSet)
     <= evictions Samples.afterThirdSet + 1.
Proof.
  split; [reflexivity|].
  apply (counters_never_decrease (fun v => v) Samples.refreshing
           Samples.afterThirdSet _ (step_set _ _ 5 "d"%string 4 noOptions _)).
Defined.

(** One call keeps the store within the limit. *)
Lemma step_within_limit {value : Type} (cloneValue : value -> value)
      (cfg : @Config value) (s s' : Cache) :
  customEvict cfg = None ->
  0 < limit cfg ->
  wellFormed s ->
  JsMap.size (store s) <= limit cfg ->
  step cloneValue cfg s s' ->
  JsMap.size (store s') <= limit cfg.
Proof.
  intros Hc Hpos W Hle H.
  destruct (shrinking_steps cloneValue cfg s)
    as [S1 [S2 [S3 [S4 [S5 [S6 S7]]]]]].
  unfold JsMap.size in *.
  destruct H.
  - apply (set_within_limit cfg now key v o s Hc Hpos (wf_store _ W) Hle).
  - specialize (S1 now key). lia.
  - specialize (S2 isUndefined now tag). lia.
  - specialize (S3 now key). lia.
  - specialize (S4 key). lia.
  - specialize (S5 tag). lia.
  - destruct (rename_store_counters cfg now oldKey newKey s)
      as [[E|[v [_ E]]] _].
    + rewrite E. exact Hle.
    + rewrite E.
      pose proof (set_within_limit cfg now newKey v noOptions s Hc Hpos
                    (wf_store _ W) Hle) as L.
      pose proof (length_delete_le oldKey
                    (store (set cfg now newKey v noOptions s))).
      unfold JsMap.size in L. lia.
  - cbn. lia.
  - now rewrite S6.
  - specialize (S7 now). lia.
Qed.

Lemma runs_reachable {value : Type} (cloneValue : value -> value)
      (cfg : @Config value) (s : Cache) :
  runs cloneValue cfg s -> reachable cloneValue cfg s.
Proof.
  induction 1 as [|s s' _ IH Hs|s _ IH].
  - apply reach_new.
  - destruct Hs.
    + now apply reach_set.
    + now apply reach_get.
    + now apply reach_getByTag.
    + now apply reach_has.
    + now apply reach_delete.
    + now apply reach_deleteByTag.
    + now apply reach_rename.
    + now apply reach_flush.
    + now apply reach_expire.
    + now apply reach_prune.
  - now apply reach_resetStats.
Qed.

(** X10.  Without a [customEvict] function the limit is kept: a cache
    that is filled by [set], [get], [getByTag], [has], [delete],
    [deleteByTag], [rename], [flush], [expire], [prune] and [resetStats]
    alone, in any number and order, never holds more than [limit]
    entries. *)
Theorem store_within_limit {value : Type} (cloneValue : value -> value)
        (cfg : @Config value) (s : Cache) :
  customEvict cfg = None ->
  0 < limit cfg ->
  runs cloneValue cfg s ->
  Collection.size s <= limit cfg.
Proof.
  intros Hc Hpos R. unfold Collection.size.
  induction R as [|s s' R IH Hs|s R IH].
  - cbn. lia.
  - apply (step_within_limit cloneValue cfg s s' Hc Hpos); auto.
    apply (reachable_wellFormed cloneValue cfg).
    + unfold configMaps. now rewrite Hc.
    + now apply runs_reachable.
  - exact IH.
Qed.

Lemma store_within_limit_witness :
  Collection.keys Samples.afterThirdSet = ["a"; "c"]%string
  /\ Collection.size Samples.afterThirdSet <= 2.
Proof.
  split; [reflexivity|].
  apply (store_within_limit (fun v => v) Samples.refreshing
           Samples.afterThirdSet eq_refl eq_refl).
  unfold Samples.afterThirdSet.
  eapply runs_step; [|apply step_set].
  eapply runs_step; [|apply step_get].
  eapply runs_step; [|apply step_set].
  eapply runs_step; [|apply step_set].
  apply runs_new.
Defined.

(** ** [prune] *)

Section Pruning.

Context {value : Type}.
Implicit Types (s : @Cache value).

Lemma get_in {A : Type} (k : string) (a : A) (m : JsMap.t A) :
  JsMap.get k m = Some a -> In (k, a) m.
Proof.
  induction m as [|[k' v'] r IH]; cbn [JsMap.get]; [discriminate|].
  destruct (String.eqb_spec k k') as [->|Hne].
  - intros [= ->]. now left.
  - intros H. right. auto.
Qed.

Lemma in_get {A : Type} (k : string) (a : A) (m : JsMap.t A) :
  uniqueKeys m -> In (k, a) m -> JsMap.get k m = Some a.
Proof.
  unfold uniqueKeys.
  induction m as [|[k' v'] r IH]; cbn [JsMap.get JsMap.keys List.map fst];
    intros Hnd Hin; [destruct Hin|].
  inversion Hnd as [|? ? Hni Hnd']; subst.
  destruct Hin as [[= -> ->]|Hin].
  - now rewrite String.eqb_refl.
  - destruct (String.eqb_spec k k') as [->|Hne]; [|now apply IH].
    exfalso. apply Hni. apply (in_map fst) in Hin. exact Hin.
Qed.

Lemma in_fold_delete {A : Type} (l : list string) (m : JsMap.t A) e :
  In e (fold_left (fun m k => JsMap.delete k m) l m) ->
  In e m /\ ~ In (fst e) l.
Proof.
  revert m. induction l as [|a r IH]; intros m; cbn [fold_left].
  - intros H. split; auto.
  - intros H. apply IH in H. destruct H as [H N].
    unfold JsMap.delete in H. apply filter_In in H. destruct H as [H E].
    split; auto. intros [->|I]; [|contradiction].
    rewrite String.eqb_refl in E. discriminate.
Qed.

Lemma overdue_in now s k :
  In k (overdue now s) <-> exists d, In (k, d) (ttlMap s) /\ d < now.
Proof.
  unfold overdue. rewrite in_map_iff. split.
  - intros [[k' d] [E H]]. cbn in E. subst k'.
    apply filter_In in H. destruct H as [H L]. cbn in L.
    exists d. split; auto. now apply Z.ltb_lt.
  - intros [d [H L]]. exists (k, d). split; auto.
    apply filter_In. split; auto. cbn. now apply Z.ltb_lt.
Qed.

(** With nothing overdue [prune] is a no-op. *)
Lemma prune_nothing now s :
  overdue now s = [] -> prune now s = (0, s).
Proof.
  unfold prune, overdue. generalize 0 as n.
  generalize (ttlMap s) as l. intros l. revert s.
  induction l as [|e r IH]; intros s n H; cbn [fold_left]; auto.
  cbn [List.filter] in H. destruct (snd e <? now); [discriminate|].
  now apply IH.
Qed.

(** The number [prune] returns. *)
Lemma prune_count now s :
  uniqueKeys (ttlMap s) ->
  fst (prune now s)
  = Z.of_nat (List.length
                (List.filter (fun k => JsMap.has k (store s))
                             (overdue now s))).
Proof.
  unfold prune, overdue, uniqueKeys.
  assert (H : forall (l : list (string * Z)) (n : Z) (t : @Cache value),
             NoDup (JsMap.keys l) ->
             fst (fold_left
                    (fun (acc : Z * @Cache value) (e : string * Z) =>
                       if snd e <? now
                       then let (existed, s0) := delete (fst e) (snd acc) in
                            (if existed then fst acc + 1 else fst acc, s0)
                       else acc) l (n, t))
             = n + Z.of_nat
                     (List.length
                        (List.filter
                           (fun k => JsMap.has k (store t))
                           (List.map fst
                              (List.filter (fun e => snd e <? now) l))))).
  { induction l as [|e r IH]; intros n t Hnd; cbn [fold_left].
    - cbn. lia.
    - cbn [JsMap.keys List.map] in Hnd.
      inversion Hnd as [|? ? Hni Hnd']; subst.
      cbn [List.filter]. destruct (snd e <? now); cbn [snd].
      + change (delete (fst e) t)
          with (JsMap.has (fst e) (store t), snd (delete (fst e) t)).
        cbv iota. cbn [fst List.map List.filter].
        rewrite IH by assumption. rewrite delete_store.
        assert (E : List.filter
                      (fun k => JsMap.has k (JsMap.delete (fst e) (store t)))
                      (List.map fst
                         (List.filter (fun e0 => snd e0 <? now) r))
                    = List.filter (fun k => JsMap.has k (store t))
                        (List.map fst
                           (List.filter (fun e0 => snd e0 <? now) r))).
        { apply filter_ext_in. intros k Hk. unfold JsMap.has.
          rewrite JsMapFacts.get_delete_neq; auto.
          intros ->. apply Hni. apply in_map_iff in Hk.
          destruct Hk as [x [Ex Hx]]. apply filter_In in Hx.
          apply in_map_iff. exists x. tauto. }
        rewrite E.
        destruct (JsMap.has (fst e) (store t)); cbn [List.length]; lia.
      + now apply IH. }
  intros Hnd. rewrite H by assumption. lia.
Qed.

End Pruning.

(** X11.  [prune] removes exactly the entries whose deadline is behind the
    clock.  A key whose deadline is earlier than [now] is afterwards in
    none of the store, the recency, deadline and priority maps and the
    key-to-tags map; every other key has in these five maps what it had;
    the counters are untouched; the number returned counts the overdue keys
    that were in the store; and a second [prune] at the same time returns
    0 and changes nothing. *)
Theorem prune_removes_overdue {value : Type} (now : Z) (s : @Cache value) :
  uniqueKeys (ttlMap s) ->
  let s' := snd (prune now s) in
  (forall k d,
      JsMap.get k (ttlMap s) = Some d -> d < now ->
      JsMap.get k (store s') = None /\ JsMap.get k (meta s') = None
      /\ JsMap.get k (ttlMap s') = None
      /\ JsMap.get k (priorityMap s') = None
      /\ JsMap.get k (keyTags s') = None)
  /\ (forall k,
         (forall d, JsMap.get k (ttlMap s) = Some d -> now <= d) ->
         JsMap.get k (store s') = JsMap.get k (store s)
         /\ JsMap.get k (meta s') = JsMap.get k (meta s)
         /\ JsMap.get k (ttlMap s') = JsMap.get k (ttlMap s)
         /\ JsMap.get k (priorityMap s') = JsMap.get k (priorityMap s)
         /\ JsMap.get k (keyTags s') = JsMap.get k (keyTags s))
  /\ hits s' = hits s /\ misses s' = misses s /\ evictions s' = evictions s
  /\ fst (prune now s)
     = Z.of_nat (List.length
                   (List.filter (fun k => JsMap.has k (store s))
                                (overdue now s)))
  /\ prune now s' = (0, s').
Proof.
  intros Hu s'. unfold s'. rewrite prune_state.
  destruct (fold_delete_fields (overdue now s) s)
    as [H1 [H2 [H3 [H4 [H5 [H6 [H7 H8]]]]]]].
  split.
  { intros k d Hk Hd. rewrite H1, H2, H3, H4, H5, !get_fold_delete.
    destruct (in_dec string_dec k (overdue now s)) as [I|N]; [tauto|].
    exfalso. apply N. apply overdue_in. exists d. split; auto.
    now apply get_in. }
  split.
  { intros k Hk. rewrite H1, H2, H3, H4, H5, !get_fold_delete.
    destruct (in_dec string_dec k (overdue now s)) as [I|N]; [|tauto].
    exfalso. apply overdue_in in I. destruct I as [d [I L]].
    apply (in_get k d _ Hu) in I. specialize (Hk d I). lia. }
  split; [exact H6|]. split; [exact H7|]. split; [exact H8|].
  split; [now apply prune_count|].
  rewrite <- prune_state. apply prune_nothing.
  destruct (overdue now (snd (prune now s))) as [|k r] eqn:E; auto.
  exfalso.
  assert (I : In k (overdue now (snd (prune now s)))) by (rewrite E; now left).
  apply overdue_in in I. destruct I as [d [I L]].
  rewrite prune_state, H3 in I. apply in_fold_delete in I.
  destruct I as [I N]. apply N. apply overdue_in. exists d. auto.
Qed.

Lemma prune_removes_overdue_witness :
  JsMap.get "a"%string (store (snd (prune 2000 Samples.mixedDeadlines))) = None
  /\ JsMap.get "b"%string (store (snd (prune 2000 Samples.mixedDeadlines)))
     = Some 2
  /\ fst (prune 2000 Samples.mixedDeadlines) = 1.
Proof.
  destruct (prune_removes_overdue 2000 Samples.mixedDeadlines)
    as [H1 [H2 [_ [_ [_ [H3 _]]]]]].
  - unfold uniqueKeys. vm_compute. constructor; [intros []|constructor].
  - split; [apply (H1 "a"%string 1050 eq_refl); reflexivity|].
    split; [|exact H3].
    destruct (H2 "b"%string) as [E _]; [discriminate|exact E].
Defined.

(** ** The tag index under each call *)

Section TagIndexSteps.

Context {value : Type}.
Variable cloneValue : value -> value.
Implicit Types (s : @Cache value) (cfg : @Config value).

Lemma consistent_same_index s s' :
  tagMap s' = tagMap s -> keyTags s' = keyTags s ->
  tagIndexConsistent s -> tagIndexConsistent s'.
Proof.
  unfold tagIndexConsistent, inTagMap, inKeyTags. intros -> ->. auto.
Qed.

Lemma get_consistent cfg now key s :
  tagIndexConsistent s ->
  tagIndexConsistent (snd (get cloneValue cfg now key s)).
Proof.
  intros H. unfold get. destruct (JsMap.get key (store s)); cbn [snd].
  - destruct (expired now (JsMap.get key (ttlMap s))); cbn [snd].
    + apply (consistent_same_index (snd (delete key s)));
        [reflexivity | reflexivity | now apply delete_consistent].
    + destruct (updateOnGet cfg);
        apply (consistent_same_index s); auto.
  - apply (consistent_same_index s); auto.
Qed.

Lemma getAll_consistent isUndefined cfg now keys s :
  tagIndexConsistent s ->
  tagIndexConsistent (snd (getAll cloneValue isUndefined cfg now keys s)).
Proof.
  revert s. induction keys as [|k r IH]; intros s H; cbn [getAll]; auto.
  pose proof (get_consistent cfg now k s H) as G.
  destruct (get cloneValue cfg now k s) as [v s1]. cbn [snd] in G.
  specialize (IH s1 G).
  destruct (getAll cloneValue isUndefined cfg now r s1) as [vs s2].
  exact IH.
Qed.

Lemma fold_delete_keeps_consistent (l : list string) s :
  tagIndexConsistent s ->
  tagIndexConsistent (fold_left (fun t k => snd (delete k t)) l s).
Proof.
  revert s. induction l as [|k r IH]; intros s H; cbn [fold_left]; auto.
  apply IH. now apply delete_consistent.
Qed.

End TagIndexSteps.

(** X12.  The two directions of the tag index stay in agreement, and no
    tag is left with an empty key set, under [get], [getByTag], [has],
    [delete], [deleteByTag], [flush], [expire] and [prune]; under [set]
    when every tag the key already carries is among the tags of the call
    (in particular for a key that carries none); and under [rename] when
    the store is below its limit and the new key carries no tag. *)
Theorem tag_index_kept {value : Type} (cloneValue : value -> value)
        (cfg : @Config value) (s : Cache) :
  tagIndexConsistent s ->
  (forall now key, tagIndexConsistent (snd (get cloneValue cfg now key s)))
  /\ (forall isUndefined now tag,
         tagIndexConsistent
           (snd (getByTag cloneValue isUndefined cfg now tag s)))
  /\ (forall now key, tagIndexConsistent (snd (has cfg now key s)))
  /\ (forall key, tagIndexConsistent (snd (delete key s)))
  /\ (forall tag, tagIndexConsistent (snd (deleteByTag tag s)))
  /\ tagIndexConsistent (flush s)
  /\ (forall now key, tagIndexConsistent (snd (expire now key s)))
  /\ (forall now, tagIndexConsistent (snd (prune now s)))
  /\ (forall now key v o,
         (forall t, inKeyTags s key t = true -> In t (opt_tags o)) ->
         tagIndexConsistent (set cfg now key v o s))
  /\ (forall now oldKey newKey,
         JsMap.size (store s) < limit cfg ->
         (forall t, inKeyTags s newKey t = false) ->
         tagIndexConsistent (snd (rename cfg now oldKey newKey s))).
Proof.
  intros H.
  split; [intros; now apply get_consistent|].
  split.
  { intros isUndefined now tag. unfold getByTag.
    destruct (JsMap.get tag (tagMap s)); auto. now apply getAll_consistent. }
  split.
  { intros now key. unfold has.
    destruct (negb (JsMap.has key (store s))
              || expired now (JsMap.get key (ttlMap s))); cbn [snd].
    - now apply delete_consistent.
    - destruct (updateOnHas cfg); exact H. }
  split; [intros; now apply delete_consistent|].
  split; [intros; now apply deleteByTag_consistent|].
  split.
  { split; [reflexivity|]. intros x. cbn. discriminate. }
  split.
  { intros now key. unfold expire.
    destruct (negb (JsMap.has key (ttlMap s))); exact H. }
  split.
  { intros now. rewrite prune_state. now apply fold_delete_keeps_consistent. }
  split; [intros; now apply set_consistent|].
  intros; now apply rename_consistent.
Qed.

Lemma tag_index_kept_witness :
  tagIndexConsistent (snd (deleteByTag "x"%string Samples.taggedX))
  /\ tagIndexConsistent
       (set Samples.lru 11 "a"%string 1 (Samples.tagged ["x"; "y"]%string)
            Samples.taggedX).
Proof.
  destruct (tag_index_kept (fun v => v) Samples.lru Samples.taggedX
              taggedX_consistent)
    as [_ [_ [_ [_ [H5 [_ [_ [_ [H9 _]]]]]]]]].
  split; [apply H5|]. apply H9.
  intros t. unfold inKeyTags, memberOf. cbn.
  destruct (String.eqb_spec t "x") as [->|N]; [intros _; now left|].
  cbn. discriminate.
Defined.

(** ** Reading by tag *)

Section TagReads.

Context {value : Type}.
Variable cloneValue : value -> value.
Variable isUndefined : value -> bool.
Implicit Types (s : @Cache value) (cfg : @Config value).

Lemma get_liveValue cfg now key s :
  fst (get cloneValue cfg now key s)
  = option_map (Collection.copied cloneValue cfg) (liveValue now s key).
Proof.
  unfold get, liveValue. destruct (JsMap.get key (store s)) as [v|]; auto.
  destruct (expired now (JsMap.get key (ttlMap s))); reflexivity.
Qed.

(** A read changes the value no later read at the same time finds. *)
Lemma liveValue_after_get cfg now key s k :
  liveValue now (snd (get cloneValue cfg now key s)) k = liveValue now s k.
Proof.
  unfold get. destruct (JsMap.get key (store s)) as [v|] eqn:Hs; cbn [snd].
  - destruct (expired now (JsMap.get key (ttlMap s))) eqn:He; cbn [snd].
    + unfold liveValue. cbn [store ttlMap with_misses].
      rewrite delete_store, delete_ttlMap.
      destruct (String.eqb_spec k key) as [->|Hne].
      * rewrite JsMapFacts.get_delete_eq, Hs, He. reflexivity.
      * rewrite !JsMapFacts.get_delete_neq by assumption. reflexivity.
    + destruct (updateOnGet cfg); reflexivity.
  - reflexivity.
Qed.

Lemma getAll_values cfg now keys s :
  fst (getAll cloneValue isUndefined cfg now keys s)
  = flat_map (keptValue cloneValue isUndefined cfg now s) keys
  /\ forall k,
       liveValue now (snd (getAll cloneValue isUndefined cfg now keys s)) k
       = liveValue now s k.
Proof.
  revert s. induction keys as [|k0 r IH]; intros s; cbn [getAll flat_map].
  - split; reflexivity.
  - pose proof (get_liveValue cfg now k0 s) as G.
    pose proof (liveValue_after_get cfg now k0 s) as L.
    destruct (get cloneValue cfg now k0 s) as [v s1]. cbn [fst snd] in G, L.
    destruct (IH s1) as [I1 I2].
    destruct (getAll cloneValue isUndefined cfg now r s1) as [vs s2].
    cbn [fst snd] in *.
    assert (E : flat_map (keptValue cloneValue isUndefined cfg now s1) r
                = flat_map (keptValue cloneValue isUndefined cfg now s) r).
    { apply flat_map_ext. intros k. unfold keptValue. now rewrite L. }
    split.
    + rewrite I1, E. subst v.
      assert (K0 : keptValue cloneValue isUndefined cfg now s k0
                   = match liveValue now s k0 with
                     | Some x =>
                         if isUndefined (Collection.copied cloneValue cfg x)
                         then []
                         else [Collection.copied cloneValue cfg x]
                     | None => []
                     end) by reflexivity.
      rewrite K0.
      destruct (liveValue now s k0) as [x|]; cbn [option_map]; auto.
      destruct (isUndefined (Collection.copied cloneValue cfg x));
        reflexivity.
    + intros k. now rewrite I2, L.
Qed.

Lemma liveKeys_after_get cfg now key s keys :
  liveKeys now (snd (get cloneValue cfg now key s)) keys
  = liveKeys now s keys.
Proof.
  unfold liveKeys. apply filter_ext. intros k.
  now rewrite liveValue_after_get.
Qed.

(** One hit for every key a read finds, one miss for every other. *)
Lemma getAll_live_counts cfg now keys s :
  let r := getAll cloneValue isUndefined cfg now keys s in
  hits (snd r) = hits s + Z.of_nat (List.length (liveKeys now s keys))
  /\ misses (snd r)
     = misses s + Z.of_nat (List.length keys)
       - Z.of_nat (List.length (liveKeys now s keys))
  /\ evictions (snd r) = evictions s.
Proof.
  revert s. induction keys as [|k0 r IH]; intros s; cbn [getAll].
  - cbn. repeat split; lia.
  - pose proof (get_counts cloneValue cfg now k0 s) as G. cbv zeta in G.
    pose proof (get_liveValue cfg now k0 s) as V.
    pose proof (liveKeys_after_get cfg now k0 s r) as K.
    destruct (get cloneValue cfg now k0 s) as [v s1].
    cbn [fst snd] in G, V, K.
    specialize (IH s1). cbv zeta in IH.
    destruct (getAll cloneValue isUndefined cfg now r s1) as [vs s2].
    cbn [fst snd] in *. destruct IH as [I1 [I2 I3]]. destruct G as [G1 G2].
    rewrite I1, I2, I3, G2, K.
    assert (K0 : liveKeys now s (k0 :: r)
                 = match liveValue now s k0 with
                   | Some _ => k0 :: liveKeys now s r
                   | None => liveKeys now s r
                   end).
    { unfold liveKeys. cbn [List.filter].
      destruct (liveValue now s k0); reflexivity. }
    rewrite K0.
    destruct (liveValue now s k0) as [x|]; cbn [option_map] in V; subst v;
      destruct G1 as [G1 G1']; rewrite G1, G1'; cbn [List.length];
      repeat split; lia.
Qed.

(** The values kept are at most one for every key found, and exactly one
    when none of the values found is [undefined]. *)
Lemma length_kept cfg now s keys :
  (List.length (flat_map (keptValue cloneValue isUndefined cfg now s) keys)
   <= List.length (liveKeys now s keys))%nat
  /\ ((forall k v, In k keys -> liveValue now s k = Some v ->
                   isUndefined (Collection.copied cloneValue cfg v) = false) ->
      List.length (flat_map (keptValue cloneValue isUndefined cfg now s) keys)
      = List.length (liveKeys now s keys)).
Proof.
  induction keys as [|k0 r [IH1 IH2]]; cbn [flat_map].
  - split; reflexivity.
  - assert (K0 : liveKeys now s (k0 :: r)
                   = match liveValue now s k0 with
                     | Some _ => k0 :: liveKeys now s r
                     | None => liveKeys now s r
                     end).
    { unfold liveKeys. cbn [List.filter].
      destruct (liveValue now s k0); reflexivity. }
    assert (K1 : keptValue cloneValue isUndefined cfg now s k0
                 = match liveValue now s k0 with
                   | Some x =>
                       if isUndefined (Collection.copied cloneValue cfg x)
                       then []
                       else [Collection.copied cloneValue cfg x]
                   | None => []
                   end) by reflexivity.
    rewrite K0, K1, length_app. split.
    + destruct (liveValue now s k0) as [x|]; cbn [List.length]; [|lia].
      destruct (isUndefined (Collection.copied cloneValue cfg x));
        cbn [List.length]; lia.
    + intros H.
      assert (H' : forall k v, In k r -> liveValue now s k = Some v ->
                     isUndefined (Collection.copied cloneValue cfg v) = false).
      { intros k v Hk. apply H. now right. }
      specialize (IH2 H').
      destruct (liveValue now s k0) as [x|] eqn:E; cbn [List.length]; [|lia].
      rewrite (H k0 x (or_introl eq_refl) E). cbn [List.length]. lia.
Qed.

End TagReads.

(** X13.  [getByTag(tag)] returns, in the order of the tag's key set, the
    value (its copy under [cloneOnGet]) of every key of the set that is in
    the store, whose deadline is not behind the clock and whose value is not
    [undefined], and nothing for the other keys; for a tag that is not in
    [tagMap] it returns the empty list.  The reads do not change what a
    later read at the same time finds under any key. *)
Theorem getByTag_returns_live_values {value : Type}
        (cloneValue : value -> value) (isUndefined : value -> bool)
        (cfg : @Config value) (now : Z) (tag : string) (s : Cache) :
  fst (getByTag cloneValue isUndefined cfg now tag s)
  = flat_map (keptValue cloneValue isUndefined cfg now s)
             (dflt [] (JsMap.get tag (tagMap s)))
  /\ forall k,
       liveValue now (snd (getByTag cloneValue isUndefined cfg now tag s)) k
       = liveValue now s k.
Proof.
  unfold getByTag. destruct (JsMap.get tag (tagMap s)) as [keys|].
  - apply getAll_values.
  - split; reflexivity.
Qed.

(** X8.  Every [get] is counted once: a call that finds the value adds
    one hit and no miss, a call that does not adds one miss and no hit.
    [getByTag] on a tag that has a key set makes one [get] for every key of
    the set: every key a read finds adds one hit and every other key one
    miss.  The values returned are at most as many as the hits added, since
    a value found that is [undefined] is counted and not returned, and
    exactly as many when no value found is [undefined].  On a tag that has
    no key set [getByTag] returns the empty array and changes nothing.
    Neither touches the evictions counter. *)
Theorem reads_are_counted_once {value : Type} (cloneValue : value -> value)
        (isUndefined : value -> bool) (cfg : @Config value) (now : Z)
        (s : Cache) :
  (forall key,
      let r := get cloneValue cfg now key s in
      match fst r with
      | Some _ => hits (snd r) = hits s + 1 /\ misses (snd r) = misses s
      | None => hits (snd r) = hits s /\ misses (snd r) = misses s + 1
      end
      /\ evictions (snd r) = evictions s)
  /\ (forall tag,
         JsMap.get tag (tagMap s) = None ->
         getByTag cloneValue isUndefined cfg now tag s = ([], s))
  /\ (forall tag keys,
         JsMap.get tag (tagMap s) = Some keys ->
         let r := getByTag cloneValue isUndefined cfg now tag s in
         hits (snd r) = hits s + Z.of_nat (List.length (liveKeys now s keys))
         /\ misses (snd r)
            = misses s + Z.of_nat (List.length keys)
              - Z.of_nat (List.length (liveKeys now s keys))
         /\ evictions (snd r) = evictions s
         /\ (List.length (fst r) <= List.length (liveKeys now s keys))%nat
         /\ ((forall k v, In k keys -> liveValue now s k = Some v ->
                isUndefined (Collection.copied cloneValue cfg v) = false) ->
             List.length (fst r) = List.length (liveKeys now s keys))).
Proof.
  split; [intros key; apply get_counts|]. split.
  - intros tag H. unfold getByTag. now rewrite H.
  - intros tag keys H. unfold getByTag. rewrite H. cbv zeta.
    destruct (getAll_live_counts cloneValue isUndefined cfg now keys s)
      as [C1 [C2 C3]].
    destruct (getAll_values cloneValue isUndefined cfg now keys s) as [V _].
    destruct (length_kept cloneValue isUndefined cfg now s keys) as [L1 L2].
    rewrite V. auto.
Qed.

Lemma reads_are_counted_once_witness :
  fst (getByTag (fun v => v) Samples.zeroIsUndefined Samples.lru 5
                "t"%string Samples.storedUndefined) = []
  /\ hits (snd (getByTag (fun v => v) Samples.zeroIsUndefined Samples.lru 5
                         "t"%string Samples.storedUndefined)) = 1
  /\ fst (getByTag (fun v => v) Samples.defined Samples.lru 5 "t"%string
                   Samples.twoTagged) = [1; 2]
  /\ hits (snd (getByTag (fun v => v) Samples.defined Samples.lru 5
                         "t"%string Samples.twoTagged)) = 2.
Proof.
  destruct (reads_are_counted_once (fun v => v) Samples.zeroIsUndefined
              Samples.lru 5 Samples.storedUndefined) as [_ [_ H]].
  destruct (H "t"%string ["k"%string] eq_refl) as [H1 _].
  destruct (reads_are_counted_once (fun v => v) Samples.defined
              Samples.lru 5 Samples.twoTagged) as [_ [_ G]].
  destruct (G "t"%string ["u"%string; "v"%string] eq_refl) as [G1 _].
  split; [reflexivity|]. split; [exact H1|].
  split; [reflexivity | exact G1].
Defined.

(** ** [deleteByTag] *)

Section DeleteByTag.

Context {value : Type}.
Implicit Types (s : @Cache value).

Lemma deleteByTag_count tag s keys :
  JsMap.get tag (tagMap s) = Some keys -> NoDup keys ->
  fst (deleteByTag tag s)
  = Z.of_nat (List.length
                (List.filter (fun k => JsMap.has k (store s)) keys)).
Proof.
  intros E Hnd. unfold deleteByTag. rewrite E.
  assert (H : forall (l : list string) (n : Z) (t : @Cache value),
             NoDup l ->
             fst (fold_left
                    (fun (acc : Z * @Cache value) (key : string) =>
                       let (existed, s0) := delete key (snd acc) in
                       (if existed then fst acc + 1 else fst acc, s0))
                    l (n, t))
             = n + Z.of_nat
                     (List.length
                        (List.filter (fun k => JsMap.has k (store t)) l))).
  { induction l as [|k r IH]; intros n t Hl; cbn [fold_left].
    - cbn. lia.
    - inversion Hl as [|? ? Hni Hr]; subst. cbn [snd].
      change (delete k t) with (JsMap.has k (store t), snd (delete k t)).
      cbv iota. cbn [fst List.filter]. rewrite IH by assumption.
      rewrite delete_store.
      assert (F : List.filter
                    (fun k0 => JsMap.has k0 (JsMap.delete k (store t))) r
                  = List.filter (fun k0 => JsMap.has k0 (store t)) r).
      { apply filter_ext_in. intros k0 Hk0. unfold JsMap.has.
        rewrite JsMapFacts.get_delete_neq; auto. intros ->. contradiction. }
      rewrite F. destruct (JsMap.has k (store t)); cbn [List.length]; lia. }
  specialize (H keys 0 s Hnd).
  destruct (fold_left _ keys (0, s)) as [n t]. cbn [fst] in *. lia.
Qed.

End DeleteByTag.

(** X14.  [deleteByTag(tag)] on a tag of [tagMap] removes every key of
    the tag's key set from the store and from the recency, deadline and
    priority maps and the key-to-tags map, leaves every other key in these
    maps as it was, removes the tag from [tagMap], leaves the counters
    alone, and returns the number of keys of the set that were in the
    store. *)
Theorem deleteByTag_removes_tagged {value : Type} (tag : string)
        (s : @Cache value) (keys : JsSet.t) :
  JsMap.get tag (tagMap s) = Some keys ->
  NoDup keys ->
  let r := deleteByTag tag s in
  (forall k, In k keys ->
      JsMap.get k (store (snd r)) = None /\ JsMap.get k (meta (snd r)) = None
      /\ JsMap.get k (ttlMap (snd r)) = None
      /\ JsMap.get k (priorityMap (snd r)) = None
      /\ JsMap.get k (keyTags (snd r)) = None)
  /\ (forall k, ~ In k keys ->
         JsMap.get k (store (snd r)) = JsMap.get k (store s)
         /\ JsMap.get k (meta (snd r)) = JsMap.get k (meta s)
         /\ JsMap.get k (ttlMap (snd r)) = JsMap.get k (ttlMap s)
         /\ JsMap.get k (priorityMap (snd r)) = JsMap.get k (priorityMap s)
         /\ JsMap.get k (keyTags (snd r)) = JsMap.get k (keyTags s))
  /\ JsMap.get tag (tagMap (snd r)) = None
  /\ hits (snd r) = hits s /\ misses (snd r) = misses s
  /\ evictions (snd r) = evictions s
  /\ fst r = Z.of_nat (List.length
                         (List.filter (fun k => JsMap.has k (store s)) keys)).
Proof.
  intros E Hnd r. unfold r. rewrite (deleteByTag_state tag s keys E).
  cbn [store meta ttlMap priorityMap keyTags tagMap hits misses evictions
       with_tagMap].
  destruct (fold_delete_fields keys s)
    as [H1 [H2 [H3 [H4 [H5 [H6 [H7 H8]]]]]]].
  split.
  { intros k Hk. rewrite H1, H2, H3, H4, H5, !get_fold_delete.
    destruct (in_dec string_dec k keys); tauto. }
  split.
  { intros k Hk. rewrite H1, H2, H3, H4, H5, !get_fold_delete.
    destruct (in_dec string_dec k keys); tauto. }
  split; [apply JsMapFacts.get_delete_eq|].
  split; [exact H6|]. split; [exact H7|]. split; [exact H8|].
  now apply deleteByTag_count.
Qed.

Lemma deleteByTag_removes_tagged_witness :
  fst (deleteByTag "t"%string Samples.twoTagged) = 2
  /\ JsMap.get "u"%string (store (snd (deleteByTag "t"%string Samples.twoTagged)))
     = None
  /\ JsMap.get "t"%string (tagMap (snd (deleteByTag "t"%string Samples.twoTagged)))
     = None.
Proof.
  destruct (deleteByTag_removes_tagged "t"%string Samples.twoTagged
              ["u"; "v"]%string eq_refl)
    as [H1 [_ [H3 [_ [_ [_ H7]]]]]].
  - repeat constructor; cbn; intuition discriminate.
  - split; [exact H7|]. split; [|exact H3].
    apply (H1 "u"%string). now left.
Defined.

(** X15.  Writing again a key that is in the store, with [overWrite] on
    and without one of the tags it carries, leaves the tag index
    inconsistent whenever it was consistent: the key no longer lists the
    tag, the tag still lists the key, and [getByTag] of the dropped tag
    still returns the value just written, as long as what [get] returns
    for it is not [undefined] and its deadline is not behind the clock. *)
Theorem set_without_old_tag_leaves_stale_entry {value : Type}
        (cloneValue : value -> value) (isUndefined : value -> bool)
        (cfg : @Config value) (now now' : Z)
        (key : string) (v : value) (o : SetOptions) (s : Cache)
        (t : string) :
  tagIndexConsistent s ->
  overWrite cfg = true ->
  JsMap.has key (store s) = true ->
  inKeyTags s key t = true ->
  ~ In t (opt_tags o) ->
  (forall d, deadlineOf cfg now o = Some d -> now' <= d) ->
  isUndefined (Collection.copied cloneValue cfg v) = false ->
  let s' := set cfg now key v o s in
  inKeyTags s' key t = false
  /\ inTagMap s' t key = true
  /\ ~ tagIndexConsistent s'
  /\ In (Collection.copied cloneValue cfg v)
        (fst (getByTag cloneValue isUndefined cfg now' t s')).
Proof.
  intros Hs Hov Hin Ht Hnot Hd Hdef s'.
  destruct (set_dropping_tag_inconsistent cfg now key v o s t
              Hs Hov Hin Ht Hnot) as [A [B C]].
  fold s' in A, B, C.
  split; [exact B|]. split; [exact A|]. split; [exact C|].
  unfold inTagMap, memberOf in A. unfold getByTag.
  destruct (JsMap.get t (tagMap s')) as [keys|]; [|discriminate].
  destruct (getAll_values cloneValue isUndefined cfg now' keys s') as [G _].
  rewrite G. apply in_flat_map. exists key. split.
  - now apply JsSetFacts.has_true_in.
  - destruct (set_entry cfg now key v o s (or_introl Hov)) as [Hst [_ Htt]].
    fold s' in Hst, Htt. unfold keptValue, liveValue. rewrite Hst, Htt.
    rewrite not_expired_before by assumption. rewrite Hdef. now left.
Qed.

Lemma set_without_old_tag_leaves_stale_entry_witness :
  inKeyTags Samples.retaggedY "a" "x" = false
  /\ In 1 (fst (getByTag (fun v => v) Samples.defined Samples.lru 12
                         "x"%string Samples.retaggedY)).
Proof.
  destruct (set_without_old_tag_leaves_stale_entry (fun v => v)
              Samples.defined Samples.lru
              11 12 "a"%string 1 (Samples.tagged ["y"%string])
              Samples.taggedX "x"%string taggedX_consistent eq_refl eq_refl
              eq_refl)
    as [H1 [_ [_ H4]]].
  - cbn. intuition discriminate.
  - cbn. discriminate.
  - reflexivity.
  - split; [exact H1 | exact H4].
Defined.

(** ** [loadSnapshot] and [clone] *)

Section Loading.

Context {value : Type}.
Implicit Types (s : @Cache value) (o : @SnapshotObject value).






End Loading.


(** X17.  [clone] of a cache whose configuration the constructor accepts
    and whose maps hold each key once returns a cache with the same
    configuration but no default [ttl], whose store has the keys of the
    original in the same order with every value passed through JSON, whose
    recency, deadline and tag maps and counters are those of the original,
    and whose priority map is empty. *)
Theorem clone_copies_all_but_priorities {value : Type}
        (jsonValue : value -> value) (cfg : @Config value) (s : Cache) :
  validConfig cfg ->
  wellFormed s ->
  clone jsonValue cfg s
  = inr (withoutTtl cfg,
         Returned
           (with_priorityMap JsMap.empty
              (with_store
                 (List.map (fun e => (fst e, jsonValue (snd e))) (store s))
                 s))).
Proof.
  intros [Hl Hc] W. unfold clone.
  assert (Hk : constructor (deepCloneOptions cfg)
               = inr (withoutTtl cfg, emptyCache)).
  { unfold constructor, withoutTtl. cbn [deepCloneOptions o_limit o_strategy
      o_customEvict o_ttl o_updateOnGet o_updateOnHas o_cloneOnGet
      o_overWrite dflt].
    apply Z.leb_gt in Hl. rewrite Hl.
    destruct (strategy cfg) eqn:Es; try reflexivity.
    destruct (customEvict cfg) eqn:Ec; [reflexivity|].
    exfalso. now apply Hc. }
  rewrite Hk. f_equal. f_equal.
  set (js := List.map (fun e => (fst e, jsonValue (snd e))) (store s)).
  assert (E : jsonSnapshot jsonValue (snapshot s)
              = snapshot (with_store js s)).
  { unfold jsonSnapshot, snapshot, mapField, js.
    cbn [snap_data snap_meta snap_ttlMap snap_tagMap snap_keyTags snap_stats
         store meta ttlMap tagMap keyTags hits misses evictions with_store].
    now rewrite !map_map. }
  rewrite E. apply loadSnapshot_snapshot.
  apply wf_with_store; auto.
  unfold uniqueKeys, JsMap.keys, js. rewrite map_map. cbn [fst].
  apply (wf_store _ W).
Qed.

Lemma clone_copies_all_but_priorities_witness :
  clone (fun v => v + 100) Samples.lru (Samples.oneEntry Samples.lru)
  = inr (Samples.lru,
         Returned
           (mkCache [("a"%string, 101)] [("a"%string, 10)] [] []
                    [] [("a"%string, [])] 0 0 0)).
Proof.
  rewrite (clone_copies_all_but_priorities (fun v => v + 100) Samples.lru
             (Samples.oneEntry Samples.lru)).
  - reflexivity.
  - split; [reflexivity | discriminate].
  - apply (reachable_wellFormed (fun v => v) Samples.lru); [exact I|].
    apply reach_set, reach_new.
Defined.

(** ** [filter], [partition], [some] and [every] *)

Section Collecting.

Context {value : Type}.
Variable cloneValue : value -> value.
Implicit Types (s : @Cache value) (cfg : @Config value).

Lemma deepClone_valid cfg :
  validConfig cfg ->
  constructor (deepCloneOptions cfg) = inr (withoutTtl cfg, emptyCache).
Proof.
  intros [Hl Hc]. unfold constructor, withoutTtl.
  cbn [deepCloneOptions o_limit o_strategy o_customEvict o_ttl o_updateOnGet
       o_updateOnHas o_cloneOnGet o_overWrite dflt].
  apply Z.leb_gt in Hl. rewrite Hl.
  destruct (strategy cfg) eqn:Es; try reflexivity.
  destruct (customEvict cfg) eqn:Ec; [reflexivity|].
  exfalso. now apply Hc.
Qed.

Lemma keys_map_fst {A B : Type} (f : string * A -> B)
      (l : list (string * A)) :
  JsMap.keys (List.map (fun e => (fst e, f e)) l) = JsMap.keys l.
Proof. unfold JsMap.keys. rewrite map_map. reflexivity. Qed.

Lemma set_fresh_map {A B : Type} (f : string * A -> B) (k : string) (a : A)
      (l : list (string * A)) :
  ~ In k (JsMap.keys l) ->
  JsMap.set k (f (k, a)) (List.map (fun e => (fst e, f e)) l)
  = List.map (fun e => (fst e, f e)) (l ++ [(k, a)]).
Proof.
  intros H. rewrite JsMapFacts.set_fresh by now rewrite keys_map_fst.
  now rewrite map_app.
Qed.

(** One more [set] on a cache built by [set]s alone. *)
Lemma set_collected cfg now k (v : value) (acc : list (string * value)) :
  ttl cfg = None ->
  ~ In k (JsMap.keys acc) ->
  Z.of_nat (List.length acc) < limit cfg ->
  set cfg now k v noOptions (collected now acc)
  = collected now (acc ++ [(k, v)]).
Proof.
  intros Ht Hk Hroom. unfold set, collected.
  cbn [store meta ttlMap priorityMap tagMap keyTags hits misses evictions
       with_store with_meta with_ttlMap with_priorityMap with_tagMap
       with_keyTags noOptions opt_ttl opt_priority opt_tags dflt truthy
       JsSet.of_list fold_left].
  assert (Hh : JsMap.has k acc = false).
  { apply JsMapFacts.has_false_get. now apply JsMapFacts.get_none_keys. }
  rewrite Hh, andb_false_r. cbn [negb]. rewrite andb_true_r.
  unfold JsMap.size. apply Z.leb_gt in Hroom. rewrite Hroom, Ht.
  cbn [store meta ttlMap priorityMap tagMap keyTags hits misses evictions
       with_store with_meta with_ttlMap with_priorityMap with_tagMap
       with_keyTags JsMap.delete List.filter JsMap.empty].
  rewrite (JsMapFacts.set_fresh k v acc Hk).
  rewrite (set_fresh_map (fun _ => now) k v acc Hk).
  rewrite (set_fresh_map (fun _ => 0) k v acc Hk).
  unfold with_tagMap, with_keyTags, with_ttlMap, with_meta, with_store,
    with_priorityMap.
  cbn [store meta ttlMap priorityMap tagMap keyTags hits misses evictions].
  f_equal. apply (set_fresh_map (fun _ => @nil string) k v acc Hk).
Qed.

(** The loop of [filter], from any point on. *)
Lemma filter_loop cfg cfg' now (p : string * value -> bool)
      (l acc : list (string * value)) :
  ttl cfg' = None ->
  NoDup (JsMap.keys (acc ++ l)) ->
  Z.of_nat (List.length (acc ++ l)) <= limit cfg' ->
  fold_left
    (fun r e =>
       if p e
       then set cfg' now (fst e) (Collection.copied cloneValue cfg (snd e))
                noOptions r
       else r) l
    (collected now
       (List.map (fun e => (fst e, Collection.copied cloneValue cfg (snd e)))
                 acc))
  = collected now
      (List.map (fun e => (fst e, Collection.copied cloneValue cfg (snd e)))
                (acc ++ List.filter p l)).
Proof.
  intros Ht. revert acc.
  induction l as [|e r IH]; intros acc Hnd Hlen; cbn [fold_left List.filter].
  - now rewrite app_nil_r.
  - assert (Hnd' : NoDup (JsMap.keys ((acc ++ [e]) ++ r)))
      by now rewrite <- app_assoc.
    assert (Hlen' : Z.of_nat (List.length ((acc ++ [e]) ++ r)) <= limit cfg')
      by now rewrite <- app_assoc.
    destruct (p e).
    + rewrite set_collected.
      * specialize (IH (acc ++ [e]) Hnd' Hlen').
        rewrite map_app in IH. cbn [List.map] in IH. rewrite IH.
        now rewrite <- app_assoc.
      * exact Ht.
      * rewrite keys_map_fst. unfold JsMap.keys in *.
        rewrite map_app in Hnd. cbn [List.map] in Hnd.
        apply NoDup_remove_2 in Hnd. intros I. apply Hnd.
        apply in_or_app. now left.
      * rewrite length_map. rewrite length_app in Hlen.
        cbn [List.length] in Hlen. lia.
    + apply IH.
      * unfold JsMap.keys in *. rewrite !map_app in *. cbn [List.map] in Hnd.
        now apply NoDup_remove_1 in Hnd.
      * rewrite length_app in *. cbn [List.length] in Hlen. lia.
Qed.

Lemma existsb_filter {A : Type} (p : A -> bool) (l : list A) :
  existsb p l = negb (Z.of_nat (List.length (List.filter p l)) =? 0).
Proof.
  induction l as [|a r IH]; cbn [existsb List.filter]; auto.
  destruct (p a); cbn [orb List.length]; auto.
Qed.

Lemma forallb_filter {A : Type} (p : A -> bool) (l : list A) :
  forallb p l
  = (Z.of_nat (List.length (List.filter (fun a => negb (p a)) l)) =? 0).
Proof.
  induction l as [|a r IH]; cbn [forallb List.filter]; auto.
  destruct (p a); cbn [andb negb List.length]; auto.
Qed.

End Collecting.

(** X18.  On a cache whose configuration the constructor accepts, whose
    store holds each key once and has at most [limit] entries,
    [filter(predicate)] returns a cache with the same configuration but no
    default [ttl] that holds exactly the entries the predicate accepts, in
    the order of the source and with the values copied under [cloneOnGet].
    The entries are written anew: recency is the time of the call, and
    no deadline, priority or tag of the source is carried over; the
    counters start at zero.  [some(predicate)] is true exactly when that
    cache is not empty. *)
Theorem filter_keeps_accepted_entries {value : Type}
        (cloneValue : value -> value) (cfg : @Config value) (now : Z)
        (predicate : Collection.Callback bool) (s : Cache) :
  validConfig cfg ->
  uniqueKeys (store s) ->
  JsMap.size (store s) <= limit cfg ->
  let accepted :=
    List.map (fun e => (fst e, Collection.copied cloneValue cfg (snd e)))
             (List.filter (fun e => predicate (snd e) (fst e) s) (store s)) in
  Collection.filter cloneValue cfg now predicate s
  = inr (withoutTtl cfg, collected now accepted)
  /\ Collection.some predicate s
     = negb (JsMap.size (store (collected now accepted)) =? 0).
Proof.
  intros Hv Hu Hle accepted. split.
  - unfold Collection.filter. rewrite (deepClone_valid cfg Hv).
    f_equal. f_equal.
    apply (filter_loop cloneValue cfg (withoutTtl cfg) now
             (fun e => predicate (snd e) (fst e) s) (store s) []);
      [reflexivity | exact Hu | exact Hle].
  - unfold Collection.some, accepted, collected, JsMap.size. cbn [store].
    rewrite length_map. apply existsb_filter.
Qed.

Lemma filter_keeps_accepted_entries_witness :
  Collection.filter (fun v => v) Samples.lru 30 (fun v _ _ => 1 <? v)
                    (Samples.twoEntries Samples.lru)
  = inr (Samples.lru, collected 30 [("b"%string, 2)])
  /\ Collection.some (fun v _ _ => 1 <? v) (Samples.twoEntries Samples.lru)
     = true.
Proof.
  destruct (filter_keeps_accepted_entries (fun v => v) Samples.lru 30
              (fun v _ _ => 1 <? v) (Samples.twoEntries Samples.lru))
    as [H1 H2].
  - split; [reflexivity | discriminate].
  - unfold uniqueKeys. vm_compute.
    repeat constructor; cbn; intuition discriminate.
  - vm_compute. discriminate.
  - split; [exact H1 | exact H2].
Defined.

Section Partitioning.

Context {value : Type}.
Variable cloneValue : value -> value.
Implicit Types (s : @Cache value) (cfg : @Config value).

(** The loop of [partition] is the loop of [filter] run for the callback
    on the first cache and for its negation on the second. *)
Lemma partition_loop cfg cfgM cfgU now (p : string * value -> bool)
      (l : list (string * value)) (m u : @Cache value) :
  fold_left
    (fun (acc : Cache * Cache) e =>
       if p e
       then (set cfgM now (fst e) (Collection.copied cloneValue cfg (snd e))
                 noOptions (fst acc), snd acc)
       else (fst acc,
             set cfgU now (fst e) (Collection.copied cloneValue cfg (snd e))
                 noOptions (snd acc)))
    l (m, u)
  = (fold_left
       (fun r e =>
          if p e
          then set cfgM now (fst e)
                   (Collection.copied cloneValue cfg (snd e)) noOptions r
          else r) l m,
     fold_left
       (fun r e =>
          if negb (p e)
          then set cfgU now (fst e)
                   (Collection.copied cloneValue cfg (snd e)) noOptions r
          else r) l u).
Proof.
  revert m u. induction l as [|e r IH]; intros m u; cbn [fold_left]; auto.
  destruct (p e); cbn [negb fst snd]; apply IH.
Qed.

Lemma length_filter_split {A : Type} (p : A -> bool) (l : list A) :
  (List.length (List.filter p l)
   + List.length (List.filter (fun a => negb (p a)) l)
   = List.length l)%nat.
Proof.
  induction l as [|a r IH]; cbn [List.filter]; auto.
  destruct (p a); cbn [negb List.length]; lia.
Qed.

End Partitioning.

(** X19.  Under the same conditions [partition(fn)] returns two caches
    with the configuration of the source but no default [ttl]: the first
    holds the entries [fn] accepts and the second those it rejects, each in
    the order of the source, written anew as by [filter].  Every entry of
    the source is in exactly one of the two, so the two sizes add up to the
    size of the source, and [every(fn)] is true exactly when the second
    cache is empty. *)
Theorem partition_splits_entries {value : Type}
        (cloneValue : value -> value) (cfg : @Config value) (now : Z)
        (fn : Collection.Callback bool) (s : Cache) :
  validConfig cfg ->
  uniqueKeys (store s) ->
  JsMap.size (store s) <= limit cfg ->
  let copy := fun e : string * value =>
                (fst e, Collection.copied cloneValue cfg (snd e)) in
  let matched :=
    collected now
      (List.map copy
         (List.filter (fun e => fn (snd e) (fst e) s) (store s))) in
  let unmatched :=
    collected now
      (List.map copy
         (List.filter (fun e => negb (fn (snd e) (fst e) s)) (store s))) in
  Collection.partition cloneValue cfg now fn s
  = inr ((withoutTtl cfg, matched), (withoutTtl cfg, unmatched))
  /\ JsMap.size (store matched) + JsMap.size (store unmatched)
     = JsMap.size (store s)
  /\ Collection.every fn s = (JsMap.size (store unmatched) =? 0).
Proof.
  intros Hv Hu Hle copy matched unmatched. split; [|split].
  - unfold Collection.partition. rewrite (deepClone_valid cfg Hv).
    rewrite (partition_loop cloneValue cfg (withoutTtl cfg) (withoutTtl cfg)
               now (fun e => fn (snd e) (fst e) s)).
    change (@emptyCache value) with (collected now (List.map copy [])).
    unfold copy.
    rewrite (filter_loop cloneValue cfg (withoutTtl cfg) now
               (fun e => fn (snd e) (fst e) s) (store s) [])
      by (first [reflexivity | assumption]).
    rewrite (filter_loop cloneValue cfg (withoutTtl cfg) now
               (fun e => negb (fn (snd e) (fst e) s)) (store s) [])
      by (first [reflexivity | assumption]).
    reflexivity.
  - unfold matched, unmatched, collected, JsMap.size. cbn [store].
    rewrite !length_map.
    pose proof (length_filter_split (fun e => fn (snd e) (fst e) s)
                  (store s)). lia.
  - unfold Collection.every, unmatched, collected, JsMap.size. cbn [store].
    rewrite length_map. apply forallb_filter.
Qed.

Lemma partition_splits_entries_witness :
  Collection.partition (fun v => v) Samples.lru 30 (fun v _ _ => 1 <? v)
                       (Samples.twoEntries Samples.lru)
  = inr ((Samples.lru, collected 30 [("b"%string, 2)]),
         (Samples.lru, collected 30 [("a"%string, 1)]))
  /\ Collection.every (fun v _ _ => 1 <? v) (Samples.twoEntries Samples.lru)
     = false.
Proof.
  destruct (partition_splits_entries (fun v => v) Samples.lru 30
              (fun v _ _ => 1 <? v) (Samples.twoEntries Samples.lru))
    as [H1 [_ H3]].
  - split; [reflexivity | discriminate].
  - unfold uniqueKeys. vm_compute.
    repeat constructor; cbn; intuition discriminate.
  - vm_compute. discriminate.
  - split; [exact H1 | exact H3].
Defined.

(** ** The order of the entries *)

(** X20.  The order in which [keys], [values] and [entries] list the
    store after a [set] that inserts.  A key that is in the store keeps its
    place; a new key goes to the end; and when the store is at its limit
    and no [customEvict] function was supplied, the new key goes to the end
    of the store with one of its keys taken out. *)
Theorem set_iteration_order {value : Type} (cfg : @Config value) (now : Z)
        (key : string) (v : value) (o : SetOptions) (s : Cache) :
  overWrite cfg = true \/ JsMap.has key (store s) = false ->
  0 < limit cfg ->
  let s' := set cfg now key v o s in
  (JsMap.has key (store s) = true ->
   Collection.keys s' = Collection.keys s
   /\ Collection.size s' = Collection.size s)
  /\ (JsMap.has key (store s) = false ->
      Collection.size s < limit cfg ->
      Collection.entries s' = Collection.entries s ++ [(key, v)]
      /\ Collection.keys s' = Collection.keys s ++ [key]
      /\ Collection.values s' = Collection.values s ++ [v])
  /\ (JsMap.has key (store s) = false ->
      limit cfg <= Collection.size s ->
      customEvict cfg = None ->
      exists victim,
        In victim (Collection.keys s)
        /\ Collection.entries s'
           = JsMap.delete victim (Collection.entries s) ++ [(key, v)]).
Proof.
  intros Hg Hpos s'.
  destruct (set_fields cfg now key v o s (insertion_guard cfg key s Hg))
    as [Hst _].
  fold s' in Hst. unfold Collection.keys, Collection.size, Collection.entries,
    Collection.values.
  rewrite Hst. unfold beforeInsert. cbv zeta. cbn [store with_priorityMap].
  split; [|split].
  - intros Hk. rewrite Hk. cbn [negb]. rewrite andb_false_r.
    cbn [store with_priorityMap]. split.
    + rewrite JsMapFacts.keys_set_present. now rewrite Hk.
    + unfold JsMap.size. f_equal.
      pose proof (JsMapFacts.keys_set_present key v (store s)) as E.
      rewrite Hk in E. unfold JsMap.keys in E.
      apply (f_equal (@List.length string)) in E.
      now rewrite !length_map in E.
  - intros Hk Hroom. rewrite Hk. cbn [negb]. rewrite andb_true_r.
    apply Z.leb_gt in Hroom. rewrite Hroom. cbn [store with_priorityMap].
    assert (Hn : ~ In key (JsMap.keys (store s))).
    { now apply JsMapFacts.get_none_keys, JsMapFacts.has_false_get. }
    rewrite (JsMapFacts.set_fresh key v (store s) Hn).
    unfold JsMap.keys. rewrite !map_app. auto.
  - intros Hk Hfull Hc. rewrite Hk. cbn [negb]. rewrite andb_true_r.
    pose proof Hfull as Hf. apply Z.leb_le in Hf. rewrite Hf.
    set (s1 := with_priorityMap _ s).
    assert (Hne : store s1 <> []).
    { apply size_positive_nonempty with (limit cfg); auto. }
    destruct (evict_victim cfg s1 Hc Hne) as [victim [Hin [He _]]].
    exists victim. split; [exact Hin|].
    rewrite He. cbn [store with_evictions]. rewrite delete_store.
    change (store s1) with (store s).
    apply JsMapFacts.set_fresh.
    apply JsMapFacts.get_none_keys, JsMapFacts.has_false_get.
    now apply has_delete_other.
Qed.

Lemma set_iteration_order_witness :
  Collection.keys (Samples.twoEntries Samples.lru) = ["a"; "b"]%string
  /\ Collection.keys
       (set Samples.lru 30 "a"%string 7 noOptions
            (Samples.twoEntries Samples.lru))
     = ["a"; "b"]%string.
Proof.
  split; [reflexivity|].
  destruct (set_iteration_order Samples.lru 30 "a"%string 7 noOptions
              (Samples.twoEntries Samples.lru) (or_introl eq_refl) eq_refl)
    as [H _].
  destruct (H eq_refl) as [E _]. exact E.
Defined.

(** ** The list of tags *)

(** X21.  On a state whose tag index is consistent, [tags()] lists exactly
    the tags some key carries: a tag is in the list if and only if a key
    has it in its tag set, and if and only if the tag's key set holds a
    key. *)
Theorem tags_lists_tags_in_use {value : Type} (s : @Cache value)
        (tag : string) :
  tagIndexConsistent s ->
  (In tag (tags s) <-> exists key, inKeyTags s key tag = true)
  /\ (In tag (tags s) <-> exists key, inTagMap s tag key = true).
Proof.
  intros [Hc He].
  assert (H : In tag (tags s) <-> exists key, inTagMap s tag key = true).
  { unfold tags, inTagMap, memberOf. split.
    - intros Hin. destruct (JsMap.get tag (tagMap s)) as [keys|] eqn:E.
      + destruct keys as [|k r]; [exfalso; now apply (He tag)|].
        exists k. cbn. now rewrite String.eqb_refl.
      + apply JsMapFacts.get_none_keys in E. contradiction.
    - intros [key Hk].
      destruct (in_dec string_dec tag (JsMap.keys (tagMap s))) as [I|N]; auto.
      apply JsMapFacts.get_none_keys in N. rewrite N in Hk. discriminate. }
  split; [|exact H].
  rewrite H. split; intros [key Hk]; exists key.
  - now rewrite <- Hc.
  - now rewrite Hc.
Qed.

Lemma tags_lists_tags_in_use_witness :
  In "x"%string (tags Samples.taggedX)
  <-> exists key, inKeyTags Samples.taggedX key "x" = true.
Proof.
  apply (tags_lists_tags_in_use Samples.taggedX "x"%string
           taggedX_consistent).
Defined.

(** ** Namespaces *)

Section NamespaceFacts.

Context {value : Type}.
Implicit Types (i ns : @Namespaces.Instance value).

Lemma nonempty_name (name : string) :
  name <> ""%string -> (String.length name =? 0)%nat = false.
Proof. destruct name; [congruence | reflexivity]. Qed.

Lemma get_map_values {A B : Type} (f : A -> B) (k : string)
      (m : JsMap.t A) :
  JsMap.get k (List.map (fun e => (fst e, f (snd e))) m)
  = option_map f (JsMap.get k m).
Proof.
  induction m as [|[k' a] r IH]; cbn [List.map JsMap.get fst snd]; auto.
  destruct (String.eqb k k'); auto.
Qed.

End NamespaceFacts.

(** X22.  [namespace(name)] with a non-empty name, on a cache whose
    configuration the constructor accepts, gets or creates: a namespace of
    that name is returned as it is and nothing changes; otherwise a new,
    empty cache with the configuration of the parent but no default [ttl]
    is returned and entered under the name at the end of the namespace
    list.  A second call returns the same namespace and changes nothing,
    and neither call touches the entries of the parent or any other
    namespace. *)
Theorem namespace_gets_or_creates {value : Type} (name : string)
        (i : @Namespaces.Instance value) :
  validConfig (Namespaces.configOf i) ->
  name <> ""%string ->
  exists ns i',
    Namespaces.namespace name i = inr (ns, i')
    /\ Namespaces.namespace name i' = inr (ns, i')
    /\ Namespaces.cacheOf i' = Namespaces.cacheOf i
    /\ Namespaces.configOf i' = Namespaces.configOf i
    /\ (forall other, other <> name ->
          JsMap.get other (Namespaces.namespacesOf i')
          = JsMap.get other (Namespaces.namespacesOf i))
    /\ match JsMap.get name (Namespaces.namespacesOf i) with
       | Some old => ns = old /\ i' = i
       | None =>
           ns = Namespaces.mkInstance
                  (withoutTtl (Namespaces.configOf i)) emptyCache JsMap.empty
           /\ Namespaces.listNamespaces i'
              = Namespaces.listNamespaces i ++ [name]
       end.
Proof.
  intros Hv Hn. unfold Namespaces.namespace.
  rewrite (nonempty_name name Hn).
  destruct (JsMap.get name (Namespaces.namespacesOf i)) as [old|] eqn:E.
  - exists old, i. rewrite E. repeat split; reflexivity.
  - rewrite (deepClone_valid _ Hv).
    eexists. eexists. split; [reflexivity|].
    cbn [Namespaces.namespacesOf Namespaces.configOf Namespaces.cacheOf].
    rewrite JsMapFacts.get_set_eq.
    split; [reflexivity|]. split; [reflexivity|]. split; [reflexivity|].
    split.
    + intros other Ho. now apply JsMapFacts.get_set_neq.
    + split; [reflexivity|].
      unfold Namespaces.listNamespaces. cbn [Namespaces.namespacesOf].
      rewrite JsMapFacts.keys_set_present.
      apply JsMapFacts.has_false_get in E. now rewrite E.
Qed.

Lemma namespace_gets_or_creates_witness :
  exists ns i',
    Namespaces.namespace "guild"%string Samples.root = inr (ns, i')
    /\ Namespaces.namespace "guild"%string i' = inr (ns, i')
    /\ Namespaces.cacheOf ns = emptyCache
    /\ Namespaces.listNamespaces i' = ["guild"%string].
Proof.
  destruct (namespace_gets_or_creates "guild"%string Samples.root)
    as [ns [i' [H1 [H2 [_ [_ [_ [H6 H7]]]]]]]].
  - split; [reflexivity | discriminate].
  - discriminate.
  - exists ns, i'. split; [exact H1|]. split; [exact H2|].
    split; [now rewrite H6 | exact H7].
Defined.

(** X23.  [flushNamespaces] empties the six maps of every namespace and
    nothing else: the namespace list is as before, each namespace keeps
    its configuration, its counters and the namespaces nested inside it,
    and the parent's own entries are untouched.  Calling it twice is the
    same as calling it once. *)
Theorem flushNamespaces_empties_each {value : Type}
        (i : @Namespaces.Instance value) :
  let i' := Namespaces.flushNamespaces i in
  Namespaces.listNamespaces i' = Namespaces.listNamespaces i
  /\ Namespaces.cacheOf i' = Namespaces.cacheOf i
  /\ Namespaces.configOf i' = Namespaces.configOf i
  /\ (forall name ns,
         JsMap.get name (Namespaces.namespacesOf i) = Some ns ->
         exists ns',
           JsMap.get name (Namespaces.namespacesOf i') = Some ns'
           /\ Namespaces.cacheOf ns' = flush (Namespaces.cacheOf ns)
           /\ Namespaces.configOf ns' = Namespaces.configOf ns
           /\ Namespaces.namespacesOf ns' = Namespaces.namespacesOf ns)
  /\ Namespaces.flushNamespaces i' = i'.
Proof.
  cbv zeta. unfold Namespaces.flushNamespaces, Namespaces.listNamespaces.
  cbn [Namespaces.namespacesOf Namespaces.cacheOf Namespaces.configOf].
  split.
  { unfold JsMap.keys. rewrite map_map. reflexivity. }
  split; [reflexivity|]. split; [reflexivity|]. split.
  { intros name ns E. exists (Namespaces.flushed ns).
    rewrite (get_map_values (@Namespaces.flushed value)), E.
    repeat split; reflexivity. }
  f_equal. rewrite map_map. apply map_ext. intros [k ns]. reflexivity.
Qed.

Lemma flushNamespaces_empties_each_witness :
  exists ns',
    JsMap.get "guild"%string
      (Namespaces.namespacesOf (Namespaces.flushNamespaces Samples.withGuild))
    = Some ns'
    /\ store (Namespaces.cacheOf ns') = JsMap.empty.
Proof.
  destruct (flushNamespaces_empties_each Samples.withGuild)
    as [_ [_ [_ [H _]]]].
  destruct (H "guild"%string _ eq_refl) as [ns' [E [F _]]].
  exists ns'. split; [exact E|]. rewrite F. reflexivity.
Defined.

(** X24.  [removeNamespace(name)] answers whether a namespace of that
    name existed and takes it out of the namespace list; the other
    namespaces and the parent's entries stay.  The entries of the removed
    namespace are not kept: a later [namespace(name)] returns a new, empty
    cache. *)
Theorem removeNamespace_forgets {value : Type} (name : string)
        (i : @Namespaces.Instance value) :
  validConfig (Namespaces.configOf i) ->
  name <> ""%string ->
  let r := Namespaces.removeNamespace name i in
  fst r = JsMap.has name (Namespaces.namespacesOf i)
  /\ ~ In name (Namespaces.listNamespaces (snd r))
  /\ (forall other, other <> name ->
         JsMap.get other (Namespaces.namespacesOf (snd r))
         = JsMap.get other (Namespaces.namespacesOf i))
  /\ Namespaces.cacheOf (snd r) = Namespaces.cacheOf i
  /\ exists i',
       Namespaces.namespace name (snd r)
       = inr (Namespaces.mkInstance (withoutTtl (Namespaces.configOf i))
                                    emptyCache JsMap.empty, i').
Proof.
  intros Hv Hn r. unfold r, Namespaces.removeNamespace. cbn [fst snd].
  unfold Namespaces.listNamespaces.
  cbn [Namespaces.namespacesOf Namespaces.cacheOf].
  split; [reflexivity|]. split.
  { apply JsMapFacts.get_none_keys, JsMapFacts.get_delete_eq. }
  split.
  { intros other Ho. now apply JsMapFacts.get_delete_neq. }
  split; [reflexivity|].
  unfold Namespaces.namespace. rewrite (nonempty_name name Hn).
  cbn [Namespaces.namespacesOf Namespaces.configOf Namespaces.cacheOf].
  rewrite JsMapFacts.get_delete_eq, (deepClone_valid _ Hv).
  eexists. reflexivity.
Qed.

Lemma removeNamespace_forgets_witness :
  fst (Namespaces.removeNamespace "guild"%string Samples.withGuild) = true
  /\ exists i',
       Namespaces.namespace "guild"%string
         (snd (Namespaces.removeNamespace "guild"%string Samples.withGuild))
       = inr (Namespaces.mkInstance Samples.lru emptyCache JsMap.empty, i').
Proof.
  destruct (removeNamespace_forgets "guild"%string Samples.withGuild)
    as [H1 [_ [_ [_ H5]]]].
  - split; [reflexivity | discriminate].
  - discriminate.
  - split; [exact H1 | exact H5].
Defined.

(** ** The helpers over the entries and the deadlines *)

Section Listing.

Context {value : Type}.
Implicit Types (s : @Cache value).

Lemma reduce_appending {R : Type} (fn : Collection.Callback R) s
      (l : list (string * value)) (acc : list R) :
  fold_left (fun a e => a ++ [fn (snd e) (fst e) s]) l acc
  = acc ++ List.map (fun e => fn (snd e) (fst e) s) l.
Proof.
  revert acc. induction l as [|e r IH]; intros acc; cbn [fold_left List.map].
  - now rewrite app_nil_r.
  - rewrite IH, <- app_assoc. reflexivity.
Qed.

End Listing.

(** X25.  The helpers that run over the entries do not look at the
    deadlines.  An entry whose deadline is behind the clock, which [get]
    and [has] report as absent, is still listed by [keys], [values] and
    [entries], counted by [size], handed to the callback of [map], and
    decides [some] and [every]; [reduce] with the reducer that appends
    [fn] of each entry gives the list [map] gives. *)
Theorem expired_entries_are_still_listed {value : Type}
        (cloneValue : value -> value) (cfg : @Config value) (now : Z)
        (key : string) (v : value) (d : Z) (s : Cache) :
  JsMap.get key (store s) = Some v ->
  JsMap.get key (ttlMap s) = Some d ->
  d <> 0 ->
  d < now ->
  fst (get cloneValue cfg now key s) = None
  /\ fst (has cfg now key s) = false
  /\ In key (Collection.keys s)
  /\ In v (Collection.values s)
  /\ In (key, v) (Collection.entries s)
  /\ 0 < Collection.size s
  /\ (forall (R : Type) (fn : Collection.Callback R),
         In (fn v key s) (Collection.map fn s)
         /\ Collection.reduce (fun acc x k c => acc ++ [fn x k c]) [] s
            = Collection.map fn s)
  /\ (forall fn : Collection.Callback bool,
         (fn v key s = true -> Collection.some fn s = true)
         /\ (fn v key s = false -> Collection.every fn s = false)).
Proof.
  intros Hs Hd Hnz Hlt.
  assert (He : expired now (JsMap.get key (ttlMap s)) = true).
  { rewrite Hd. unfold expired. rewrite truthy_some by assumption.
    cbn [or0 andb]. now apply Z.ltb_lt. }
  assert (Hin : In (key, v) (store s)) by now apply get_in.
  split.
  { unfold get. rewrite Hs, He. reflexivity. }
  split.
  { unfold has. rewrite He, orb_true_r. reflexivity. }
  split.
  { unfold Collection.keys, JsMap.keys.
    apply (in_map fst) in Hin. exact Hin. }
  split.
  { unfold Collection.values. apply (in_map snd) in Hin. exact Hin. }
  split; [exact Hin|]. split.
  { unfold Collection.size, JsMap.size.
    destruct (store s); [destruct Hin | cbn [List.length]; lia]. }
  split.
  { intros R fn. split.
    - unfold Collection.map.
      apply (in_map (fun e => fn (snd e) (fst e) s)) in Hin. exact Hin.
    - unfold Collection.reduce, Collection.map.
      apply (reduce_appending fn s (store s) []). }
  intros fn. split.
  - intros Hf. unfold Collection.some. apply existsb_exists.
    exists (key, v). split; auto.
  - intros Hf. unfold Collection.every.
    destruct (forallb (fun e => fn (snd e) (fst e) s) (store s)) eqn:E; auto.
    rewrite forallb_forall in E. specialize (E (key, v) Hin).
    cbn [fst snd] in E. congruence.
Qed.

Lemma expired_entries_are_still_listed_witness :
  fst (has Samples.lru 2000 "a"%string Samples.mixedDeadlines) = false
  /\ In "a"%string (Collection.keys Samples.mixedDeadlines)
  /\ Collection.size Samples.mixedDeadlines = 2.
Proof.
  destruct (expired_entries_are_still_listed (fun v => v) Samples.lru 2000
              "a"%string 1 1050 Samples.mixedDeadlines eq_refl eq_refl)
    as [_ [H2 [H3 _]]].
  - discriminate.
  - reflexivity.
  - split; [exact H2|]. split; [exact H3 | reflexivity].
Defined.

(** ** [rename] on a cache with a default [ttl], and on a full cache *)

Lemma rename_evictions {value : Type} (cfg : @Config value) (now : Z)
      (oldKey newKey : string) (s : Cache) (v : value) :
  JsMap.get oldKey (store s) = Some v ->
  JsMap.has newKey (store s) = false ->
  evictions (snd (rename cfg now oldKey newKey s))
  = evictions (set cfg now newKey v noOptions s).
Proof.
  intros Hold Hnew. unfold rename. rewrite Hold, Hnew. cbn [snd].
  match goal with |- evictions (snd (delete ?k ?x)) = _ =>
    destruct (delete_counters k x) as [_ [_ E]]; rewrite E end.
  destruct (truthy (JsMap.get oldKey (meta s))),
    (truthy (JsMap.get oldKey (ttlMap s))),
    (JsMap.get oldKey (keyTags s)); reflexivity.
Qed.

(** X26.  [rename] writes the new key with a plain [set], so an entry
    that had no deadline gets the one of the cache-wide [ttl]: on a cache
    with a positive default [ttl], renaming a key that never expires gives
    the new key the deadline [now + ttl], and a [get] after that time no
    longer finds the value. *)
Theorem rename_gives_default_deadline {value : Type}
        (cloneValue : value -> value) (cfg : @Config value) (now now' : Z)
        (oldKey newKey : string) (v : value) (t : Z) (s : Cache) :
  JsMap.get oldKey (store s) = Some v ->
  JsMap.has newKey (store s) = false ->
  truthy (JsMap.get oldKey (ttlMap s)) = false ->
  ttl cfg = Some t ->
  0 < t ->
  0 <= now ->
  now + t < now' ->
  let s' := snd (rename cfg now oldKey newKey s) in
  ttlExpire now oldKey s = -1
  /\ JsMap.get newKey (store s') = Some v
  /\ JsMap.get newKey (ttlMap s') = Some (now + t)
  /\ ttlExpire now newKey s' = t
  /\ fst (get cloneValue cfg now' newKey s') = None.
Proof.
  intros Hold Hnew Hno Ht Hpos Hnow Hlate s'.
  assert (Hne : newKey <> oldKey).
  { intros ->. unfold JsMap.has in Hnew. rewrite Hold in Hnew.
    discriminate. }
  assert (Hd : deadlineOf cfg now noOptions = Some (now + t)).
  { unfold deadlineOf. cbn [noOptions opt_ttl truthy]. rewrite Ht.
    apply Z.ltb_lt in Hpos. now rewrite Hpos. }
  assert (Htt : JsMap.get newKey (ttlMap s') = Some (now + t)).
  { unfold s'.
    rewrite (rename_without_deadline cfg now oldKey newKey s v Hold Hnew Hno).
    exact Hd. }
  assert (Hst : JsMap.get newKey (store s') = Some v).
  { destruct (rename_fields cfg now oldKey newKey s v Hold Hnew)
      as [_ [E _]].
    unfold s'. rewrite E, JsMapFacts.get_delete_neq by assumption.
    apply (set_entry cfg now newKey v noOptions s (or_intror Hnew)). }
  assert (Hhas : JsMap.has newKey (store s') = true).
  { unfold JsMap.has. now rewrite Hst. }
  assert (Htr : truthy (Some (now + t)) = true).
  { apply truthy_some. lia. }
  split.
  { unfold ttlExpire. rewrite Hno. cbn [negb]. now rewrite orb_true_r. }
  split; [exact Hst|]. split; [exact Htt|]. split.
  { unfold ttlExpire. rewrite Hhas, Htt, Htr. cbn [negb orb or0].
    assert (L : (now <? now + t) = true) by (apply Z.ltb_lt; lia).
    rewrite L. lia. }
  unfold get. rewrite Hst, Htt. unfold expired. rewrite Htr.
  cbn [andb or0].
  assert (L : (now + t <? now') = true) by (apply Z.ltb_lt; lia).
  now rewrite L.
Qed.

Lemma rename_gives_default_deadline_witness :
  ttlExpire 20 "a"%string Samples.permanent = -1
  /\ JsMap.get "b"%string
       (ttlMap (snd (rename Samples.withTtl 20 "a" "b" Samples.permanent)))
     = Some 120
  /\ fst (get (fun v => v) Samples.withTtl 200 "b"%string
              (snd (rename Samples.withTtl 20 "a" "b" Samples.permanent)))
     = None.
Proof.
  destruct (rename_gives_default_deadline (fun v => v) Samples.withTtl
              20 200 "a"%string "b"%string 1 100 Samples.permanent
              eq_refl eq_refl eq_refl eq_refl eq_refl)
    as [H1 [_ [H3 [_ H5]]]].
  - discriminate.
  - reflexivity.
  - split; [exact H1|]. split; [exact H3 | exact H5].
Defined.

(** X27.  [rename] on a full cache evicts.  When the store is at its
    limit and no [customEvict] function was supplied, the [set] inside
    [rename] removes a victim before the old key is deleted: the evictions
    counter goes up by one, and unless the victim is the old key itself the
    cache ends one entry short, the victim being an entry the call did not
    name. *)
Theorem rename_at_limit_evicts {value : Type} (cfg : @Config value)
        (now : Z) (oldKey newKey : string) (v : value) (s : Cache) :
  customEvict cfg = None ->
  0 < limit cfg ->
  limit cfg <= JsMap.size (store s) ->
  uniqueKeys (store s) ->
  JsMap.get oldKey (store s) = Some v ->
  JsMap.has newKey (store s) = false ->
  let s' := snd (rename cfg now oldKey newKey s) in
  evictions s' = evictions s + 1
  /\ exists victim,
       In victim (JsMap.keys (store s))
       /\ store s'
          = JsMap.delete oldKey
              (JsMap.delete victim (store s) ++ [(newKey, v)])
       /\ (victim <> oldKey ->
           JsMap.get victim (store s') = None
           /\ JsMap.size (store s') = JsMap.size (store s) - 1).
Proof.
  intros Hc Hpos Hfull Hu Hold Hnew s'.
  assert (Hne : newKey <> oldKey).
  { intros ->. unfold JsMap.has in Hnew. rewrite Hold in Hnew.
    discriminate. }
  destruct (rename_fields cfg now oldKey newKey s v Hold Hnew)
    as [_ [Est _]].
  fold s' in Est.
  assert (Hg : negb (overWrite cfg) && JsMap.has newKey (store s) = false)
    by (rewrite Hnew; apply andb_false_r).
  destruct (set_fields cfg now newKey v noOptions s Hg)
    as [Sst [_ [_ [_ [_ [_ [_ [_ Sev]]]]]]]].
  assert (Hb : beforeInsert cfg newKey noOptions s
               = evict cfg
                   (with_priorityMap
                      (JsMap.set newKey 0 (priorityMap s)) s)).
  { unfold beforeInsert. cbv zeta. cbn [store with_priorityMap noOptions
      opt_priority dflt]. rewrite Hnew. cbn [negb]. rewrite andb_true_r.
    apply Z.leb_le in Hfull. now rewrite Hfull. }
  rewrite Hb in Sst, Sev.
  set (s1 := with_priorityMap (JsMap.set newKey 0 (priorityMap s)) s) in *.
  assert (Hne1 : store s1 <> []).
  { apply size_positive_nonempty with (limit cfg); auto. }
  destruct (evict_victim cfg s1 Hc Hne1) as [victim [Hin [He _]]].
  change (store s1) with (store s) in Hin.
  assert (Hev : store (evict cfg s1) = JsMap.delete victim (store s)).
  { rewrite He. cbn [store with_evictions]. now rewrite delete_store. }
  assert (Hfresh : ~ In newKey (JsMap.keys (JsMap.delete victim (store s)))).
  { apply JsMapFacts.get_none_keys, JsMapFacts.has_false_get.
    now apply has_delete_other. }
  assert (Hstore : store s'
                   = JsMap.delete oldKey
                       (JsMap.delete victim (store s) ++ [(newKey, v)])).
  { rewrite Est, Sst, Hev. now rewrite JsMapFacts.set_fresh. }
  split.
  { unfold s'.
    rewrite (rename_evictions cfg now oldKey newKey s v Hold Hnew), Sev, He.
    cbn [evictions with_evictions]. reflexivity. }
  exists victim. split; [exact Hin|]. split; [exact Hstore|].
  intros Hvo. split.
  - rewrite Hstore.
    rewrite JsMapFacts.get_delete_neq by assumption.
    apply JsMapFacts.get_none_keys.
    unfold JsMap.keys. rewrite map_app. cbn [List.map fst]. intros I.
    apply in_app_or in I. destruct I as [I|[I|[]]].
    + apply JsMapFacts.get_none_keys in I; auto.
      apply JsMapFacts.get_delete_eq.
    + subst victim.
      apply JsMapFacts.has_true_keys in Hin. congruence.
  - rewrite Hstore. unfold JsMap.size.
    assert (Hu2 : NoDup (JsMap.keys
                           (JsMap.delete victim (store s) ++ [(newKey, v)]))).
    { rewrite <- (JsMapFacts.set_fresh newKey v _ Hfresh).
      apply JsMapFacts.NoDup_keys_set, JsMapFacts.NoDup_keys_delete, Hu. }
    assert (Hin2 : In oldKey (JsMap.keys
                           (JsMap.delete victim (store s) ++ [(newKey, v)]))).
    { unfold JsMap.keys. rewrite map_app. apply in_or_app. left.
      change (In oldKey (JsMap.keys (JsMap.delete victim (store s)))).
      apply JsMapFacts.has_true_keys. unfold JsMap.has.
      rewrite JsMapFacts.get_delete_neq by congruence. now rewrite Hold. }
    pose proof (JsMapFacts.length_delete oldKey _ Hu2 Hin2) as L1.
    pose proof (JsMapFacts.length_delete victim (store s) Hu Hin) as L2.
    rewrite length_app in L1. cbn [List.length] in L1. lia.
Qed.

Lemma rename_at_limit_evicts_witness :
  Collection.keys (Samples.twoEntries Samples.lru) = ["a"; "b"]%string
  /\ evictions
       (snd (rename Samples.lru 30 "b" "c" (Samples.twoEntries Samples.lru)))
     = 1
  /\ Collection.keys
       (snd (rename Samples.lru 30 "b" "c" (Samples.twoEntries Samples.lru)))
     = ["c"%string].
Proof.
  destruct (rename_at_limit_evicts Samples.lru 30 "b"%string "c"%string 2
              (Samples.twoEntries Samples.lru) eq_refl eq_refl)
    as [H1 _].
  - discriminate.
  - unfold uniqueKeys. vm_compute.
    repeat constructor; cbn; intuition discriminate.
  - reflexivity.
  - reflexivity.
  - split; [reflexivity|]. split; [exact H1 | reflexivity].
Defined.

(** ** [groupBy] *)

Section Grouping.

Context {value : Type}.
Implicit Types (s : @Cache value).

(** One turn of the loop of [groupBy]. *)
Lemma groupBy_turn (g g0 : string) (v : value)
      (groups : JsMap.t (list value)) :
  JsMap.get g
    (JsMap.set g0
       (dflt [] (JsMap.get g0
                   (if JsMap.has g0 groups then groups
                    else JsMap.set g0 [] groups)) ++ [v])
       (if JsMap.has g0 groups then groups else JsMap.set g0 [] groups))
  = if String.eqb g g0 then Some (dflt [] (JsMap.get g groups) ++ [v])
    else JsMap.get g groups.
Proof.
  destruct (String.eqb_spec g g0) as [->|Hne].
  - rewrite JsMapFacts.get_set_eq. unfold JsMap.has.
    destruct (JsMap.get g0 groups) as [xs|] eqn:E.
    + now rewrite E.
    + now rewrite JsMapFacts.get_set_eq.
  - rewrite JsMapFacts.get_set_neq by assumption.
    destruct (JsMap.has g0 groups); auto.
    now apply JsMapFacts.get_set_neq.
Qed.

Lemma groupBy_loop (fn : Collection.Callback string) s (g : string)
      (l : list (string * value)) (groups : JsMap.t (list value)) :
  JsMap.get g
    (fold_left
       (fun groups e =>
          let groupKey := fn (snd e) (fst e) s in
          let groups := if JsMap.has groupKey groups then groups
                        else JsMap.set groupKey [] groups in
          JsMap.set groupKey
                    (dflt [] (JsMap.get groupKey groups) ++ [snd e]) groups)
       l groups)
  = match JsMap.get g groups,
          List.map snd
            (List.filter (fun e => String.eqb g (fn (snd e) (fst e) s)) l)
    with
    | None, [] => None
    | o, xs => Some (dflt [] o ++ xs)
    end.
Proof.
  revert groups. induction l as [|e r IH]; intros groups;
    cbn [fold_left List.filter List.map].
  - destruct (JsMap.get g groups); cbn [dflt]; auto.
    now rewrite app_nil_r.
  - cbv zeta. rewrite IH, groupBy_turn.
    destruct (String.eqb g (fn (snd e) (fst e) s)); cbn [List.map].
    + cbn [dflt]. rewrite <- app_assoc. cbn [app].
      destruct (JsMap.get g groups); reflexivity.
    + reflexivity.
Qed.

End Grouping.

(** X28.  [groupBy(fn)], for a callback that answers a string and does
    not write to the cache, maps each group key to the values of the
    entries [fn] sends to it, in the order of the store, and has no entry
    for a key [fn] gives to no entry: every value is in the array of its own
    group and in no other, and no group is empty.  The group keys are held
    once. *)
Theorem groupBy_collects_each_group {value : Type}
        (fn : Collection.Callback string) (s : @Cache value) (g : string) :
  JsMap.get g (Collection.groupBy fn s)
  = match List.map snd
            (List.filter (fun e => String.eqb g (fn (snd e) (fst e) s))
                         (store s))
    with
    | [] => None
    | xs => Some xs
    end
  /\ uniqueKeys (Collection.groupBy fn s).
Proof.
  split.
  - unfold Collection.groupBy. rewrite groupBy_loop. cbn [JsMap.get JsMap.empty].
    destruct (List.map snd _); reflexivity.
  - unfold Collection.groupBy, uniqueKeys.
    apply fold_left_invariant; [|constructor].
    intros m e Hm. cbv zeta.
    apply JsMapFacts.NoDup_keys_set.
    destruct (JsMap.has _ m); auto.
    now apply JsMapFacts.NoDup_keys_set.
Qed.

Lemma delete_removes_key_only_witness :
  fst (delete "a"%string (Samples.twoEntries Samples.lru)) = true
  /\ JsMap.get "b"%string
       (store (snd (delete "a"%string (Samples.twoEntries Samples.lru))))
     = Some 2.
Proof.
  destruct (delete_removes_key_only "a"%string
              (Samples.twoEntries Samples.lru)) as [H1 [_ [H3 _]]].
  split; [exact H1|].
  destruct (H3 "b"%string) as [E _]; [discriminate | exact E].
Defined.
